(** * Chihuahua Toy Dash: the maze, the player, the pursuer and the session

    A shallow embedding of [src/main.js] and the properties of its update
    loop.

    Numbers.  The player's coordinates start at 64 and change by the
    player's speed 3, so they are integers, on which the arithmetic of
    JavaScript numbers is exact: they are modelled in [Z], with
    [Math.floor (v / TILE_SIZE)] as [v / TILE_SIZE] (floor division),
    [v % TILE_SIZE] as [Z.rem] (sign of the dividend) and [Math.round]
    as rounding half up.  The pursuer moves by 1.2 pixels a frame: its
    coordinates are rationals in [Q], 1.2 is read as 6/5 and the binary64
    rounding of its sums and of the product [Math.random () * n] is not
    modelled.  The statements about the pursuer are about the control flow
    of its update and hold for every position and speed; where a statement
    is about the value of a sum or of a product, it keeps a margin from the
    values at which rounding could change a comparison or a floor, wider
    than the rounding of the sums and products the code can form.  The
    pursuer states used as examples have coordinates that binary64
    represents exactly and steps that end in the same tile with or without
    rounding.

    Keys.  The handler of [keydown] looks the key up in an object literal,
    which inherits the members of [Object.prototype]: [dirs[key]] is truthy
    for the four arrow keys and for the names of those members.  The value
    queued for the player is a direction vector or such a member, and an
    update that reads the coordinates of a member raises.

    Inputs.  [Math.random ()] and [Date.now ()] are arguments of the
    functions that call them.  Writes to the page (score, timer and overlay
    text) are left out, except for the argument of each [endGame] call,
    which is logged in the session.  A TypeError is the result [None]. *)

From Stdlib Require Import ZArith QArith Qround Qabs Lia Lqa Ascii String.
From stdpp Require Import base option list strings gmap.

Local Open Scope Z_scope.

(** ** Constants and the maze *)

Definition TILE_SIZE : Z := 64.
Definition ROWS : Z := 13.
Definition COLS : Z := 15.

Definition MAZE : list string :=
  [ "111111111111111";
    "100000000000001";
    "101111011111101";
    "101000010000101";
    "101011111110101";
    "101010000010101";
    "101010111010101";
    "101010100010101";
    "101010101010101";
    "101000001000101";
    "101111011111101";
    "100000010000001";
    "111111111111111" ]%string.

Definition out_of_maze (row col : Z) : bool :=
  (row <? 0) || (row >=? ROWS) || (col <? 0) || (col >=? COLS).

(** [isWall_js] follows the two lines of [isWall] with the failure written
    out: [None] is the TypeError of indexing [undefined], which is what
    [MAZE[row][col]] raises when [MAZE[row]] does not exist.  A missing
    character compares unequal to '1'. *)
Definition isWall_js (row col : Z) : option bool :=
  if out_of_maze row col then Some true
  else
    line ← MAZE !! Z.to_nat row;
    Some (bool_decide (String.get (Z.to_nat col) line = Some "1"%char)).

(** The value [isWall] returns; [isWall_js_value] below shows that the
    failure case of [isWall_js] never happens, so no default is ever used. *)
Definition isWall (row col : Z) : bool :=
  if out_of_maze row col then true
  else
    match MAZE !! Z.to_nat row with
    | Some line => bool_decide (String.get (Z.to_nat col) line = Some "1"%char)
    | None => true
    end.

(** ** Directions *)

Record Dir := mkDir { dx : Z; dy : Z }.

#[global] Instance Dir_eq_dec : EqDecision Dir.
Proof. solve_decision. Defined.

Definition zero_dir : Dir := mkDir 0 0.

(** The four [dirs] of [Enemy.chooseDirection], in the order of the array. *)
Definition dirs4 : list Dir := [ mkDir 1 0; mkDir (-1) 0; mkDir 0 1; mkDir 0 (-1) ].

(** [v % TILE_SIZE === 0] *)
Definition aligned (v : Z) : bool := Z.rem v TILE_SIZE =? 0.

(** [Math.round (v / TILE_SIZE) * TILE_SIZE]; [Math.round] rounds halves up. *)
Definition snap (v : Z) : Z := (2 * v + TILE_SIZE) / (2 * TILE_SIZE) * TILE_SIZE.

(** ** The player *)

Module Player.

(** What [nextDirection] holds: a direction vector, or a member of
    [Object.prototype] that the keydown handler found under the name of the
    key.  Such a member, a function or the prototype itself, has no [x]
    and no [y]. *)
Inductive queued := Vec (d : Dir) | Member (name : string).

Record t := mk {
  x : Z;
  y : Z;
  speed : Z;
  direction : Dir;
  nextDirection : queued;
  size : Z
}.

(** [new Player (x, y)] *)
Definition new (x0 y0 : Z) : t :=
  mk x0 y0 3 zero_dir (Vec zero_dir) TILE_SIZE.

Definition set_direction (p : t) (d : Dir) : t :=
  mk (x p) (y p) (speed p) d (nextDirection p) (size p).

Definition set_nextDirection (p : t) (v : queued) : t :=
  mk (x p) (y p) (speed p) (direction p) v (size p).

Definition set_x (p : t) (v : Z) : t :=
  mk v (y p) (speed p) (direction p) (nextDirection p) (size p).

Definition set_y (p : t) (v : Z) : t :=
  mk (x p) v (speed p) (direction p) (nextDirection p) (size p).

(** [tryChangeDirection].  With a member queued, [nextDirection.x] and
    [nextDirection.y] are [undefined], the next column and row are [NaN],
    the bounds test of [isWall] answers false on them and [MAZE[NaN][NaN]]
    raises a TypeError: the result [None]. *)
Definition tryChangeDirection (p : t) : option t :=
  if aligned (x p) && aligned (y p) then
    match nextDirection p with
    | Vec d =>
        let currentRow := y p / TILE_SIZE in
        let currentCol := x p / TILE_SIZE in
        let nextCol := currentCol + dx d in
        let nextRow := currentRow + dy d in
        Some (if negb (isWall nextRow nextCol) then set_direction p d else p)
    | Member _ => None
    end
  else Some p.

(** The horizontal test of [update]: the column of the leading edge of
    the moved box, against the two rows the box spans. *)
Definition blocked_x (p : t) (newX : Z) : bool :=
  let col := if dx (direction p) >? 0
             then (newX + size p - 1) / TILE_SIZE
             else newX / TILE_SIZE in
  let rowTop := y p / TILE_SIZE in
  let rowBottom := (y p + size p - 1) / TILE_SIZE in
  isWall rowTop col || isWall rowBottom col.

(** The vertical test of [update]; it reads [x p] after the horizontal
    block has run. *)
Definition blocked_y (p : t) (newY : Z) : bool :=
  let row := if dy (direction p) >? 0
             then (newY + size p - 1) / TILE_SIZE
             else newY / TILE_SIZE in
  let colLeft := x p / TILE_SIZE in
  let colRight := (x p + size p - 1) / TILE_SIZE in
  isWall row colLeft || isWall row colRight.

(** The horizontal block: the state and [newX] after it. *)
Definition collide_x (p : t) (newX : Z) : t * Z :=
  if negb (dx (direction p) =? 0) && blocked_x p newX then
    let p1 := set_x p (snap (x p)) in
    (set_direction p1 (mkDir 0 (dy (direction p1))), x p)
  else (p, newX).

(** The vertical block. *)
Definition collide_y (p : t) (newY : Z) : t * Z :=
  if negb (dy (direction p) =? 0) && blocked_y p newY then
    let p1 := set_y p (snap (y p)) in
    (set_direction p1 (mkDir (dx (direction p1)) 0), y p)
  else (p, newY).

(** [update] after its call of [tryChangeDirection], which left [p0]. *)
Definition move (p0 : t) : t :=
  let newX := x p0 + dx (direction p0) * speed p0 in
  let newY := y p0 + dy (direction p0) * speed p0 in
  let '(p1, newX) := collide_x p0 newX in
  let '(p2, newY) := collide_y p1 newY in
  set_y (set_x p2 newX) newY.

(** [update]; [None] is the TypeError of [tryChangeDirection]. *)
Definition update (p : t) : option t := move <$> tryChangeDirection p.

End Player.

(** ** JavaScript numbers that are not integers *)

(** [a < b] on rationals, as a boolean. *)
Definition Qltb (a b : Q) : bool := (Qnum a * QDen b <? Qnum b * QDen a)%Z.

(** [Math.floor (v / TILE_SIZE)] *)
Definition tile_of (v : Q) : Z := Qfloor (v / inject_Z TILE_SIZE).

(** [v % TILE_SIZE === 0]: [v] is a whole number of tiles. *)
Definition alignedQ (v : Q) : bool :=
  Qeq_bool v (inject_Z (tile_of v * TILE_SIZE)).

(** [l[i]] for a number [i] that is an integer: [undefined] (here [None])
    below 0 and from the length on. *)
Definition js_index {A} (l : list A) (i : Z) : option A :=
  if i <? 0 then None else l !! Z.to_nat i.

(** [Math.floor (r * n)] for a draw [r] of [Math.random ()]. *)
Definition rand_index (r : Q) (n : nat) : Z :=
  Qfloor (r * inject_Z (Z.of_nat n)).

(** What [Math.random ()] promises about its result. *)
Definition is_draw (r : Q) : Prop := (0 <= r)%Q ∧ (r < 1)%Q.

(** ** The pursuer *)

Module Enemy.

Record t := mk {
  x : Q;
  y : Q;
  speed : Q;
  direction : Dir;
  size : Z;
  startDelay : Z;
  spawnTimestamp : Z
}.

(** [new Enemy (x, y)], built when [Date.now ()] is [now]. *)
Definition new (x0 y0 : Z) (now : Z) : t :=
  mk (inject_Z x0) (inject_Z y0) (6 # 5) zero_dir TILE_SIZE 3000 now.

Definition set_direction (e : t) (d : Dir) : t :=
  mk (x e) (y e) (speed e) d (size e) (startDelay e) (spawnTimestamp e).

Definition set_x (e : t) (v : Q) : t :=
  mk v (y e) (speed e) (direction e) (size e) (startDelay e) (spawnTimestamp e).

Definition set_y (e : t) (v : Q) : t :=
  mk (x e) v (speed e) (direction e) (size e) (startDelay e) (spawnTimestamp e).

Definition at_tile (e : t) : bool := alignedQ (x e) && alignedQ (y e).

(** [this.direction.x === -dir.x && this.direction.y === -dir.y] *)
Definition is_reverse (e : t) (dir : Dir) : bool :=
  (dx (direction e) =? - dx dir) && (dy (direction e) =? - dy dir).

(** [!isWall (nextRow, nextCol)] for [dir], from the cell of [e]. *)
Definition is_open (e : t) (dir : Dir) : bool :=
  let row := tile_of (y e) in
  let col := tile_of (x e) in
  negb (isWall (row + dy dir) (col + dx dir)).

(** The array [possible] after the [forEach]: the open directions in the
    order of [dirs], each with its [reverse] flag. *)
Definition possible (e : t) : list (Dir * bool) :=
  (λ dir, (dir, is_reverse e dir)) <$> filter (λ dir, is_open e dir = true) dirs4.

Definition candidates (e : t) : list (Dir * bool) :=
  let cs := filter (λ p, p.2 = false) (possible e) in
  if bool_decide (length cs = 0%nat) then possible e else cs.

(** [None] is the TypeError of [choice.dir] when [choice] is [undefined]. *)
Definition chooseDirection (r : Q) (e : t) : option t :=
  if negb (at_tile e) then Some e
  else
    choice ← js_index (candidates e) (rand_index r (length (candidates e)));
    Some (set_direction e choice.1).

Definition blocked_x (e : t) (newX : Q) : bool :=
  let col := if dx (direction e) >? 0
             then tile_of (newX + inject_Z (size e) - 1)
             else tile_of newX in
  let rowTop := tile_of (y e) in
  let rowBottom := tile_of (y e + inject_Z (size e) - 1) in
  isWall rowTop col || isWall rowBottom col.

Definition blocked_y (e : t) (newY : Q) : bool :=
  let row := if dy (direction e) >? 0
             then tile_of (newY + inject_Z (size e) - 1)
             else tile_of newY in
  let colLeft := tile_of (x e) in
  let colRight := tile_of (x e + inject_Z (size e) - 1) in
  isWall row colLeft || isWall row colRight.

Definition collide_x (e : t) (newX : Q) : t * Q :=
  if negb (dx (direction e) =? 0) && blocked_x e newX
  then (set_direction e zero_dir, x e)
  else (e, newX).

Definition collide_y (e : t) (newY : Q) : t * Q :=
  if negb (dy (direction e) =? 0) && blocked_y e newY
  then (set_direction e zero_dir, y e)
  else (e, newY).

(** The part of [update] after the spawn delay and [chooseDirection]. *)
Definition move (e : t) : t :=
  let newX := (x e + inject_Z (dx (direction e)) * speed e)%Q in
  let newY := (y e + inject_Z (dy (direction e)) * speed e)%Q in
  let '(e1, newX) := collide_x e newX in
  let '(e2, newY) := collide_y e1 newY in
  set_y (set_x e2 newX) newY.

(** [update]; [now] is the reading of [Date.now ()] and [r] the draw
    [chooseDirection] takes if it takes one.  The [player] argument of
    the source is not read. *)
Definition update (now : Z) (r : Q) (e : t) : option t :=
  if now - spawnTimestamp e <? startDelay e then Some e
  else move <$> chooseDirection r e.

End Enemy.

(** ** Toys *)

Module Toy.

Record t := mk {
  row : Z;
  col : Z;
  size : Z;
  collected : bool;
  type : string
}.

(** [new Toy (row, col, type)] *)
Definition new (row0 col0 : Z) (type0 : string) : t :=
  mk row0 col0 TILE_SIZE false type0.

Definition collect (toy : t) : t :=
  mk (row toy) (col toy) (size toy) true (type toy).

End Toy.

(** ** The session *)

Module Game.

(** The fields of [Game] that the update loop reads or writes.
    [endGameCalls] is not a field of the source: it logs the argument of
    every [endGame] call, latest first, in place of the overlay text the
    call writes. *)
Record t := mk {
  player : Player.t;
  enemies : list Enemy.t;
  toys : list Toy.t;
  score : Z;
  timeLeft : Z;
  running : bool;
  endGameCalls : list bool
}.

Definition set_player (g : t) (p : Player.t) : t :=
  mk p (enemies g) (toys g) (score g) (timeLeft g) (running g) (endGameCalls g).

Definition set_enemies (g : t) (es : list Enemy.t) : t :=
  mk (player g) es (toys g) (score g) (timeLeft g) (running g) (endGameCalls g).

Definition set_toys (g : t) (ts : list Toy.t) : t :=
  mk (player g) (enemies g) ts (score g) (timeLeft g) (running g) (endGameCalls g).

Definition set_score (g : t) (n : Z) : t :=
  mk (player g) (enemies g) (toys g) n (timeLeft g) (running g) (endGameCalls g).

Definition set_timeLeft (g : t) (n : Z) : t :=
  mk (player g) (enemies g) (toys g) (score g) n (running g) (endGameCalls g).

Definition endGame (win : bool) (g : t) : t :=
  mk (player g) (enemies g) (toys g) (score g) (timeLeft g) false
     (win :: endGameCalls g).

Definition checkCollision (a : Player.t) (b : Enemy.t) : bool :=
  let ax1 := inject_Z (Player.x a) in
  let ay1 := inject_Z (Player.y a) in
  let ax2 := inject_Z (Player.x a + Player.size a) in
  let ay2 := inject_Z (Player.y a + Player.size a) in
  let bx1 := Enemy.x b in
  let by1 := Enemy.y b in
  let bx2 := (Enemy.x b + inject_Z (Enemy.size b))%Q in
  let by2 := (Enemy.y b + inject_Z (Enemy.size b))%Q in
  Qltb ax1 bx2 && Qltb bx1 ax2 && Qltb ay1 by2 && Qltb by1 ay2.

(** The own properties of the literal [dirs] of the keydown handler. *)
Definition dirs : gmap string Dir :=
  <[ "ArrowUp"%string := mkDir 0 (-1) ]>
  (<[ "ArrowDown"%string := mkDir 0 1 ]>
  (<[ "ArrowLeft"%string := mkDir (-1) 0 ]>
  (<[ "ArrowRight"%string := mkDir 1 0 ]> ∅))).

(** The properties the literal inherits from its prototype,
    [Object.prototype]: functions and, under [__proto__], the prototype
    itself. *)
Definition object_prototype_members : list string :=
  [ "constructor"; "__defineGetter__"; "__defineSetter__"; "hasOwnProperty";
    "__lookupGetter__"; "__lookupSetter__"; "isPrototypeOf";
    "propertyIsEnumerable"; "toString"; "valueOf"; "__proto__";
    "toLocaleString" ]%string.

(** [dirs[key]] where it is truthy: an own property, or else an
    inherited one; [None] where it is [undefined]. *)
Definition dirs_get (key : string) : option Player.queued :=
  match dirs !! key with
  | Some d => Some (Player.Vec d)
  | None =>
      if bool_decide (key ∈ object_prototype_members)
      then Some (Player.Member key) else None
  end.

(** The handler [setupControls] installs, for an event with [e.key = key]. *)
Definition onkeydown (key : string) (g : t) : t :=
  match dirs_get key with
  | Some v => set_player g (Player.set_nextDirection (player g) v)
  | None => g
  end.

(** The callback of [setInterval], once a second. *)
Definition tick (g : t) : t :=
  if negb (running g) then g
  else
    let g1 := set_timeLeft g (timeLeft g - 1) in
    if timeLeft g1 <=? 0 then endGame false g1 else g1.

(** The test of the toy loop. *)
Definition hit (playerRow playerCol : Z) (toy : Toy.t) : bool :=
  negb (Toy.collected toy)
  && (Toy.row toy =? playerRow) && (Toy.col toy =? playerCol).

(** One round of [this.toys.forEach], for the toy at index [i]; the toy
    is changed in place, and [every] reads the whole array. *)
Definition visit_toy (playerRow playerCol : Z) (g : t) (i : nat) : t :=
  match toys g !! i with
  | Some toy =>
      if hit playerRow playerCol toy then
        let g1 := set_toys g (<[i := Toy.collect toy]> (toys g)) in
        let g2 := set_score g1 (score g1 + 1) in
        if forallb Toy.collected (toys g2) then endGame true g2 else g2
      else g
  | None => g
  end.

Definition collect_toys (playerRow playerCol : Z) (g : t) : t :=
  foldl (visit_toy playerRow playerCol) g (seq 0 (length (toys g))).

(** One round of [this.enemies.forEach]; [inp i] is what [Date.now ()]
    and [Math.random ()] return to the enemy at index [i]. *)
Definition visit_enemy (inp : nat → Z * Q) (g : t) (i : nat) : option t :=
  match enemies g !! i with
  | Some enemy =>
      enemy' ← Enemy.update (inp i).1 (inp i).2 enemy;
      let g1 := set_enemies g (<[i := enemy']> (enemies g)) in
      Some (if checkCollision (player g1) enemy' then endGame false g1 else g1)
  | None => Some g
  end.

Definition update_enemies (inp : nat → Z * Q) (g : t) : option t :=
  foldl (λ og i, og ≫= λ g', visit_enemy inp g' i) (Some g)
        (seq 0 (length (enemies g))).

(** [update]; [None] is a TypeError, raised by the player's
    [tryChangeDirection], before anything is written, or by an enemy's
    [chooseDirection]. *)
Definition update (inp : nat → Z * Q) (g : t) : option t :=
  p' ← Player.update (player g);
  let g1 := set_player g p' in
  let playerRow := Player.y (player g1) / TILE_SIZE in
  let playerCol := Player.x (player g1) / TILE_SIZE in
  update_enemies inp (collect_toys playerRow playerCol g1).

(** [loop], without the drawing. *)
Definition loop (inp : nat → Z * Q) (g : t) : option t :=
  if negb (running g) then Some g else update inp g.

(** *** [init] *)

(** [emptyCells] after the two nested loops, as pairs [(r, c)]. *)
Definition emptyCells : list (Z * Z) :=
  r ← seqZ 0 ROWS;
  c ← seqZ 0 COLS;
  if negb (isWall r c) && negb ((r =? 1) && (c =? 1)) then [(r, c)] else [].

(** [[a[i], a[j]] = [a[j], a[i]]].  [None] stands for an index outside
    the array, where the source would store [undefined] in [a]; with
    draws of [Math.random] the index [j] is between 0 and [i]. *)
Definition swap {A} (a : list A) (i : nat) (j : Z) : option (list A) :=
  ai ← a !! i;
  aj ← js_index a j;
  Some (<[Z.to_nat j := ai]> (<[i := aj]> a)).

(** The shuffle loop from index [i] down to 1; [rand i] is the draw of
    the round with loop variable [i]. *)
Fixpoint shuffle_from {A} (rand : nat → Q) (i : nat) (a : list A)
  : option (list A) :=
  match i with
  | O => Some a
  | S i' => swap a i (rand_index (rand i) (i + 1)) ≫= shuffle_from rand i'
  end.

Definition shuffle {A} (rand : nat → Q) (a : list A) : option (list A) :=
  shuffle_from rand (length a - 1) a.

Definition toyTypes : list string := [ "teddy"; "ball" ]%string.

Definition make_toys (cells : list (Z * Z)) : list Toy.t :=
  let toyCount := Nat.min 10 (length cells) in
  imap (λ i cell,
          Toy.new cell.1 cell.2
                  (default ""%string (toyTypes !! (i mod length toyTypes)%nat)))
       (take toyCount cells).

(** The session [init] builds before it starts the loop; [now] is the
    reading of [Date.now ()] in the [Enemy] constructor. *)
Definition setup (rand : nat → Q) (now : Z) : option t :=
  cells ← shuffle rand emptyCells;
  Some (mk (Player.new (1 * TILE_SIZE) (1 * TILE_SIZE))
           [ Enemy.new (1 * TILE_SIZE) (11 * TILE_SIZE) now ]
           (make_toys cells) 0 60 true []).

(** [init] ends with [this.loop (0)], the first frame. *)
Definition init (rand : nat → Q) (now : Z) (inp : nat → Z * Q) : option t :=
  setup rand now ≫= loop inp.

End Game.

(** ** Reachable states *)

(** The four entries of [Game.dirs], and the values the keydown handler
    stores in [nextDirection]: those four vectors and the inherited
    members. *)
Definition arrow_dir (d : Dir) : Prop := ∃ key, Game.dirs !! key = Some d.
Definition keyed (v : Player.queued) : Prop :=
  ∃ key, Game.dirs_get key = Some v.

(** The player's states in a session: created on cell (1,1), then changed
    by the keydown handler and by the updates that do not raise. *)
Inductive player_reachable : Player.t → Prop :=
  | player_start :
      player_reachable (Player.new (1 * TILE_SIZE) (1 * TILE_SIZE))
  | player_key p v :
      player_reachable p → keyed v →
      player_reachable (Player.set_nextDirection p v)
  | player_update p p' :
      player_reachable p → Player.update p = Some p' → player_reachable p'.

(** The tile [(row, col)] meets the box of side [size] at [(x, y)]. *)
Definition overlaps_tile (x y size row col : Z) : Prop :=
  col * TILE_SIZE < x + size ∧ x < (col + 1) * TILE_SIZE ∧
  row * TILE_SIZE < y + size ∧ y < (row + 1) * TILE_SIZE.

(** The sessions [init] and the three callbacks produce. *)
Inductive session_reachable : Game.t → Prop :=
  | session_init rand now inp g :
      Game.init rand now inp = Some g → session_reachable g
  | session_frame inp g g' :
      session_reachable g → Game.loop inp g = Some g' → session_reachable g'
  | session_tick g :
      session_reachable g → session_reachable (Game.tick g)
  | session_key key g :
      session_reachable g → session_reachable (Game.onkeydown key g).

(** ** The wall tests of an update *)

(** The conditions of the two collision blocks of [Player.update], for the
    state [p] that [tryChangeDirection] leaves: the axis has a direction
    and its wall test answers true.  The vertical one is evaluated after
    the horizontal block. *)
Definition player_newX (p : Player.t) : Z :=
  Player.x p + dx (Player.direction p) * Player.speed p.
Definition player_newY (p : Player.t) : Z :=
  Player.y p + dy (Player.direction p) * Player.speed p.
Definition player_blocked_x (p : Player.t) : bool :=
  negb (dx (Player.direction p) =? 0) && Player.blocked_x p (player_newX p).
Definition player_blocked_y (p : Player.t) : bool :=
  negb (dy (Player.direction p) =? 0)
  && Player.blocked_y (Player.collide_x p (player_newX p)).1 (player_newY p).

(** The player as [tryChangeDirection] leaves it and as the whole update
    leaves it, written as functions of the state before: they are read
    only where the update does not raise. *)
Definition turned (p : Player.t) : Player.t :=
  default p (Player.tryChangeDirection p).
Definition stepped (p : Player.t) : Player.t := Player.move (turned p).

(** The same conditions for [Enemy.update], for the state [chooseDirection]
    leaves; the vertical block does not run once the horizontal one has
    zeroed the direction. *)
Definition enemy_newX (e : Enemy.t) : Q :=
  (Enemy.x e + inject_Z (dx (Enemy.direction e)) * Enemy.speed e)%Q.
Definition enemy_newY (e : Enemy.t) : Q :=
  (Enemy.y e + inject_Z (dy (Enemy.direction e)) * Enemy.speed e)%Q.
Definition enemy_blocked_x (e : Enemy.t) : bool :=
  negb (dx (Enemy.direction e) =? 0) && Enemy.blocked_x e (enemy_newX e).
Definition enemy_blocked_y (e : Enemy.t) : bool :=
  negb (enemy_blocked_x e)
  && negb (dy (Enemy.direction e) =? 0) && Enemy.blocked_y e (enemy_newY e).

(** The open directions that do not reverse the pursuer's direction, in the
    order of [dirs], by the two tests of the code. *)
Definition non_reversing_open (e : Enemy.t) : list Dir :=
  filter (λ d, Enemy.is_reverse e d = false ∧ Enemy.is_open e d = true) dirs4.

(** The words of the pursuer's policy, apart from the tests the code
    computes: the reversal of a direction; the directions, in the order of
    [dirs], whose neighbour cell is not a wall; those of them that are not
    the reversal of the pursuer's direction. *)
Definition opposite (d : Dir) : Dir := mkDir (- dx d) (- dy d).
Definition open_dirs (e : Enemy.t) : list Dir :=
  filter (λ d, isWall (tile_of (Enemy.y e) + dy d) (tile_of (Enemy.x e) + dx d)
               = false) dirs4.
Definition forward_dirs (e : Enemy.t) : list Dir :=
  filter (λ d, d ≠ opposite (Enemy.direction e)) (open_dirs e).

(** The product [Math.random () * n] is rounded to binary64 before
    [Math.floor]; for [n] up to 4 the rounding moves it by less than
    [2^-50], the margin kept from the whole numbers where a statement is
    about which index a draw selects. *)
Definition draw_margin : Q := 1 # 1125899906842624.

(** A sum of a coordinate of the canvas and a size or a speed is below
    2048, where binary64 rounds by at most [2^-43]; statements about such
    sums hold up to [2^-40], for coordinates in the canvas. *)
Definition coordinate_margin : Q := 1 # 1099511627776.
Definition in_canvas (v : Q) : Prop := (0 <= v)%Q ∧ (v <= 1024)%Q.

(** ** Invariants of the player *)

(** A direction with at most one component, of size one: the zero
    direction or one of the four of the arrow keys. *)
Definition unit_dir (d : Dir) : Prop := Z.abs (dx d) + Z.abs (dy d) ≤ 1.

(** The four corner tiles of the box of side [TILE_SIZE] at [(x, y)] are
    not walls. *)
Definition box_free (x y : Z) : Prop :=
  isWall (y / TILE_SIZE) (x / TILE_SIZE) = false
  ∧ isWall (y / TILE_SIZE) ((x + TILE_SIZE - 1) / TILE_SIZE) = false
  ∧ isWall ((y + TILE_SIZE - 1) / TILE_SIZE) (x / TILE_SIZE) = false
  ∧ isWall ((y + TILE_SIZE - 1) / TILE_SIZE) ((x + TILE_SIZE - 1) / TILE_SIZE)
    = false.

(** A queued vector is zero or one of the four of the arrow keys. *)
Definition queued_unit (v : Player.queued) : Prop :=
  match v with Player.Vec d => unit_dir d | Player.Member _ => True end.

(** What [Player.update] keeps true of the player's box. *)
Definition player_safe (p : Player.t) : Prop :=
  Player.speed p = 3 ∧ Player.size p = TILE_SIZE
  ∧ unit_dir (Player.direction p) ∧ queued_unit (Player.nextDirection p)
  ∧ box_free (Player.x p) (Player.y p).

(** Both coordinates of the player are whole numbers of tiles. *)
Definition on_grid (p : Player.t) : Prop :=
  aligned (Player.x p) && aligned (Player.y p) = true.

(** ** A frame in closed form *)

(** What a frame does to one toy, for the player on [(playerRow, playerCol)]. *)
Definition collect_hit (playerRow playerCol : Z) (toy : Toy.t) : Toy.t :=
  if Game.hit playerRow playerCol toy then Toy.collect toy else toy.

(** The number of toys of [ts] that the player on that cell picks up. *)
Definition count_hits (playerRow playerCol : Z) (ts : list Toy.t) : Z :=
  Z.of_nat (length (filter (λ toy, Game.hit playerRow playerCol toy = true) ts)).

(** The enemies [es], which start at index [i] of the array, after their
    updates of a frame; [None] when one of the updates fails. *)
Fixpoint updated_enemies (inp : nat → Z * Q) (i : nat) (es : list Enemy.t)
  : option (list Enemy.t) :=
  match es with
  | [] => Some []
  | e :: es' =>
      e' ← Enemy.update (inp i).1 (inp i).2 e;
      es'' ← updated_enemies inp (S i) es';
      Some (e' :: es'')
  end.

(** The enemies of [es] whose box meets the box of [p]. *)
Definition colliding (p : Player.t) (es : list Enemy.t) : list Enemy.t :=
  filter (λ e, Game.checkCollision p e = true) es.

(** ** The events and invariants of a session *)

(** The events that end a session in a frame: every toy that is still to
    collect, and there is one, lies on the player's cell; the box of some
    enemy meets the player's. *)
Definition last_toy_taken (row col : Z) (ts : list Toy.t) : Prop :=
  (∃ toy, toy ∈ ts ∧ Toy.collected toy = false)
  ∧ ∀ toy, toy ∈ ts → Toy.collected toy = false →
           Toy.row toy = row ∧ Toy.col toy = col.
Definition caught (p : Player.t) (es : list Enemy.t) : Prop :=
  ∃ e, e ∈ es ∧ Game.checkCollision p e = true.

(** The number of collected toys, and the number of toys that are not
    collected in [ts] and are collected at the same index of [ts']. *)
Definition count_collected (ts : list Toy.t) : Z :=
  Z.of_nat (length (filter (λ toy, Toy.collected toy = true) ts)).
Definition newly_collected (ts ts' : list Toy.t) : Z :=
  Z.of_nat (length (filter (λ tt : Toy.t * Toy.t,
                              Toy.collected tt.1 = false
                              ∧ Toy.collected tt.2 = true)
                           (zip ts ts'))).

(** The score counts the collected toys; a running session has a toy left
    to collect, and time left. *)
Definition score_ok (g : Game.t) : Prop :=
  Game.score g = count_collected (Game.toys g).
Definition toy_left (g : Game.t) : Prop :=
  Game.running g = true → ∃ toy, toy ∈ Game.toys g ∧ Toy.collected toy = false.
Definition time_left (g : Game.t) : Prop :=
  Game.running g = true → 0 < Game.timeLeft g.

(** ** The cells of the maze *)

(** The cell of a toy. *)
Definition toy_cell (toy : Toy.t) : Z * Z := (Toy.row toy, Toy.col toy).

(** The cells of the grid, row by row, and among them the walkable ones
    other than the player's starting cell (1,1). *)
Definition grid_cells : list (Z * Z) :=
  r ← seqZ 0 ROWS; c ← seqZ 0 COLS; [(r, c)].
Definition walkable_besides_start : list (Z * Z) :=
  filter (λ rc, isWall rc.1 rc.2 = false ∧ rc ≠ (1, 1)) grid_cells.

(** The maze has a character at [(row, col)]. *)
Definition cell_exists (row col : Z) : bool :=
  match MAZE !! Z.to_nat row with
  | Some line => bool_decide (is_Some (String.get (Z.to_nat col) line))
  | None => false
  end.

(** A wall, or a cell with an open cell next to it in one of [dirs4]. *)
Definition has_exit (row col : Z) : bool :=
  isWall row col
  || existsb (λ d, negb (isWall (row + dy d) (col + dx d))) dirs4.

(** The states a player in state [p0] can get to: anything may be
    queued, and [Player.update] runs any number of times. *)
Inductive player_from (p0 : Player.t) : Player.t → Prop :=
  | from_here : player_from p0 p0
  | from_key p v :
      player_from p0 p → player_from p0 (Player.set_nextDirection p v)
  | from_update p p' :
      player_from p0 p → Player.update p = Some p' → player_from p0 p'.

(** A cell that is not on the border of the grid, or a wall. *)
Definition inner_or_wall (row col : Z) : bool :=
  isWall row col
  || ((1 <=? row) && (row <=? ROWS - 2) && (1 <=? col) && (col <=? COLS - 2)).

(** The four corner tiles of a pursuer's box at [(x, y)], as its wall tests
    compute them, are not walls. *)
Definition enemy_box_free (x y : Q) : Prop :=
  isWall (tile_of y) (tile_of x) = false
  ∧ isWall (tile_of y) (tile_of (x + inject_Z TILE_SIZE - 1)) = false
  ∧ isWall (tile_of (y + inject_Z TILE_SIZE - 1)) (tile_of x) = false
  ∧ isWall (tile_of (y + inject_Z TILE_SIZE - 1))
           (tile_of (x + inject_Z TILE_SIZE - 1)) = false.

(** What [Enemy.update] keeps true of a pursuer; the speed may be any
    number from 0 to 63. *)
Definition enemy_safe (e : Enemy.t) : Prop :=
  Enemy.size e = TILE_SIZE
  ∧ (0 <= Enemy.speed e)%Q ∧ (Enemy.speed e <= 63)%Q
  ∧ unit_dir (Enemy.direction e)
  ∧ enemy_box_free (Enemy.x e) (Enemy.y e).

(** The states a pursuer in state [e0] can get to by updates that do not
    fail, whatever the clock and the draws. *)
Inductive pursuer_from (e0 : Enemy.t) : Enemy.t → Prop :=
  | pursuer_here : pursuer_from e0 e0
  | pursuer_step now r e e' :
      pursuer_from e0 e → Enemy.update now r e = Some e' → pursuer_from e0 e'.

(** The sessions reached from [g0], with the number of timer ticks on the
    way. *)
Inductive session_after (g0 : Game.t) : nat → Game.t → Prop :=
  | after_here : session_after g0 0 g0
  | after_frame inp n g g' :
      session_after g0 n g → Game.loop inp g = Some g' → session_after g0 n g'
  | after_tick n g :
      session_after g0 n g → session_after g0 (S n) (Game.tick g)
  | after_key key n g :
      session_after g0 n g → session_after g0 n (Game.onkeydown key g).

(** One enemy; no [endGame] call while the session runs, and the calls of
    one frame or one tick once it has stopped. *)
Definition calls_ok (g : Game.t) : Prop :=
  length (Game.enemies g) = 1%nat
  ∧ (Game.running g = true → Game.endGameCalls g = [])
  ∧ (Game.running g = false →
     Game.endGameCalls g ∈ [ [true]; [false]; [false; true] ]).

(** [endGame (true)] has been called exactly when every toy is collected. *)
Definition won_ok (g : Game.t) : Prop :=
  true ∈ Game.endGameCalls g ↔ forallb Toy.collected (Game.toys g) = true.

(** The player is on row 1 and does not move vertically, or on column 1 or
    13 and does not move horizontally. *)
Definition on_outer_track (p : Player.t) : Prop :=
  (Player.y p = 64 ∧ dy (Player.direction p) = 0)
  ∨ ((Player.x p = 64 ∨ Player.x p = 832) ∧ dx (Player.direction p) = 0).

(** The cells of row 1, and of columns 1 and 13 down to row 10. *)
Definition track_cell (row col : Z) : Prop :=
  row = 1 ∨ ((col = 1 ∨ col = 13) ∧ row ≤ 10).

(** * Properties *)

(** ** The maze *)

Lemma out_of_maze_false row col :
  out_of_maze row col = false ↔ 0 ≤ row < ROWS ∧ 0 ≤ col < COLS.
Proof. unfold out_of_maze, ROWS, COLS. lia. Qed.

Lemma out_of_maze_true row col :
  out_of_maze row col = true ↔ row < 0 ∨ row >= ROWS ∨ col < 0 ∨ col >= COLS.
Proof. unfold out_of_maze, ROWS, COLS. lia. Qed.

(** A property of cells checked on the 13 x 15 cells holds on each. *)
Lemma maze_cells_ind (P : Z → Z → bool) :
  forallb (λ r, forallb (P r) (seqZ 0 COLS)) (seqZ 0 ROWS) = true →
  ∀ row col, 0 ≤ row < ROWS → 0 ≤ col < COLS → P row col = true.
Proof.
  intros Hall row col Hrow Hcol.
  rewrite forallb_forall in Hall.
  specialize (Hall row). rewrite forallb_forall in Hall.
  apply Hall; apply list_elem_of_In, elem_of_seqZ; lia.
Qed.

Lemma maze_cell row col :
  0 ≤ row < ROWS → 0 ≤ col < COLS →
  ∃ line ch, MAZE !! Z.to_nat row = Some line
             ∧ String.get (Z.to_nat col) line = Some ch.
Proof.
  intros Hrow Hcol.
  assert (cell_exists row col = true) as H
    by (revert row col Hrow Hcol; apply maze_cells_ind; vm_compute; reflexivity).
  unfold cell_exists in H. destruct (MAZE !! Z.to_nat row) as [line|]; [|done].
  apply bool_decide_eq_true in H as [ch Hch]. eauto.
Qed.

Lemma isWall_js_value row col : isWall_js row col = Some (isWall row col).
Proof.
  unfold isWall_js, isWall. destruct (out_of_maze row col) eqn:Hout; [done|].
  apply out_of_maze_false in Hout as [Hrow Hcol].
  destruct (maze_cell row col Hrow Hcol) as (line & ch & -> & _). done.
Qed.

Lemma isWall_outside row col :
  row < 0 ∨ row >= ROWS ∨ col < 0 ∨ col >= COLS → isWall row col = true.
Proof. intros H. apply out_of_maze_true in H. unfold isWall. by rewrite H. Qed.

Lemma isWall_false_inside row col :
  isWall row col = false → 0 ≤ row < ROWS ∧ 0 ≤ col < COLS.
Proof.
  intros H. apply out_of_maze_false. unfold isWall in H.
  by destruct (out_of_maze row col).
Qed.

(** C6. Outside the 13 x 15 grid [isWall] answers true, and inside it
    answers whether the character of the maze at that row and column is
    '1'; in both cases it returns a value and raises nothing. *)
Theorem isWall_total_and_exact (row col : Z) :
  (row < 0 ∨ row >= 13 ∨ col < 0 ∨ col >= 15 → isWall_js row col = Some true)
  ∧ (0 ≤ row < 13 → 0 ≤ col < 15 →
     ∃ line ch, MAZE !! Z.to_nat row = Some line
                ∧ String.get (Z.to_nat col) line = Some ch
                ∧ isWall_js row col = Some (bool_decide (ch = "1"%char))).
Proof.
  split.
  - intros H. rewrite isWall_js_value. f_equal. by apply isWall_outside.
  - intros Hrow Hcol.
    destruct (maze_cell row col Hrow Hcol) as (line & ch & Hline & Hch).
    exists line, ch. split_and!; [done..|].
    unfold isWall_js.
    assert (out_of_maze row col = false) as -> by by apply out_of_maze_false.
    rewrite Hline. simpl. rewrite Hch. f_equal.
    apply bool_decide_ext. split; congruence.
Qed.

Lemma isWall_total_and_exact_witness :
  isWall_js (-1) 3 = Some true
  ∧ ∃ line ch, MAZE !! Z.to_nat 3 = Some line
               ∧ String.get (Z.to_nat 7) line = Some ch
               ∧ isWall_js 3 7 = Some (bool_decide (ch = "1"%char)).
Proof.
  split.
  - apply (proj1 (isWall_total_and_exact (-1) 3)). lia.
  - apply (proj2 (isWall_total_and_exact 3 7)); lia.
Defined.

(** ** Draws of [Math.random] and array indices *)

Lemma Qfloor_eq_iff (v : Q) (i : Z) :
  Qfloor v = i ↔ (inject_Z i <= v)%Q ∧ (v < inject_Z (i + 1))%Q.
Proof.
  split.
  - intros <-. split; [apply Qfloor_le | apply Qlt_floor].
  - intros [Hlo Hhi].
    apply Qfloor_resp_le in Hlo. rewrite Qfloor_Z in Hlo.
    pose proof (Qle_lt_trans _ _ _ (Qfloor_le v) Hhi) as H.
    rewrite <- Zlt_Qlt in H. lia.
Qed.

Lemma Qdiv_le_iff (a b c : Q) : (0 < b)%Q → (a / b <= c)%Q ↔ (a <= c * b)%Q.
Proof.
  intros Hb. split; [|by apply Qle_shift_div_r].
  intros H. apply (Qmult_le_r _ _ b Hb) in H.
  rewrite (Qmult_comm (a / b)), Qmult_div_r in H; [done|].
  intros E. rewrite E in Hb. by apply Qlt_irrefl in Hb.
Qed.

Lemma Qlt_div_iff (a b c : Q) : (0 < c)%Q → (a < b / c)%Q ↔ (a * c < b)%Q.
Proof.
  intros Hc. split; [|by apply Qlt_shift_div_l].
  intros H. apply (Qmult_lt_r _ _ c Hc) in H.
  rewrite (Qmult_comm (b / c)), Qmult_div_r in H; [done|].
  intros E. rewrite E in Hc. by apply Qlt_irrefl in Hc.
Qed.

Lemma inject_nat_pos (n : nat) : (0 < n)%nat → (0 < inject_Z (Z.of_nat n))%Q.
Proof. intros Hn. change 0%Q with (inject_Z 0). rewrite <- Zlt_Qlt. lia. Qed.

(** The draws that select index [i] among [n] form the interval
    from [i / n] to [(i + 1) / n]. *)
Lemma rand_index_interval (r : Q) (n : nat) (i : Z) :
  (0 < n)%nat →
  rand_index r n = i
  ↔ (inject_Z i / inject_Z (Z.of_nat n) <= r)%Q
    ∧ (r < inject_Z (i + 1) / inject_Z (Z.of_nat n))%Q.
Proof.
  intros Hn. pose proof (inject_nat_pos n Hn) as Hm.
  unfold rand_index. rewrite Qfloor_eq_iff.
  by rewrite Qdiv_le_iff, Qlt_div_iff.
Qed.

Lemma rand_index_bounds (r : Q) (n : nat) :
  is_draw r → (0 < n)%nat → 0 ≤ rand_index r n < Z.of_nat n.
Proof.
  intros [H0 H1] Hn. pose proof (inject_nat_pos n Hn) as Hm.
  unfold rand_index. split.
  - change 0 with (Qfloor 0). apply Qfloor_resp_le.
    apply Qmult_le_0_compat; [done|]. by apply Qlt_le_weak.
  - rewrite Zlt_Qlt. eapply Qle_lt_trans; [apply Qfloor_le|].
    rewrite <- (Qmult_1_l (inject_Z (Z.of_nat n))) at 2.
    by apply Qmult_lt_r.
Qed.

Lemma js_index_Some {A} (l : list A) (i : Z) (a : A) :
  js_index l i = Some a ↔ 0 ≤ i ∧ l !! Z.to_nat i = Some a.
Proof.
  unfold js_index. destruct (Z.ltb_spec i 0).
  - split; [done|]. intros [? _]. lia.
  - split; [by split|]. by intros [_ ?].
Qed.

Lemma js_index_is_Some {A} (l : list A) (i : Z) :
  0 ≤ i < Z.of_nat (length l) → is_Some (js_index l i).
Proof.
  intros Hi. unfold js_index. destruct (Z.ltb_spec i 0); [lia|].
  apply lookup_lt_is_Some. lia.
Qed.

(** ** The pursuer's choice of direction *)

Lemma NoDup_dirs4 : NoDup dirs4.
Proof. compute_done. Qed.

Lemma filter_tagged {A} (f : A → bool) (l : list A) :
  filter (λ p : A * bool, p.2 = false) ((λ a, (a, f a)) <$> l)
  = (λ a, (a, false)) <$> filter (λ a, f a = false) l.
Proof.
  induction l as [|a l IH]; [done|].
  rewrite fmap_cons, !filter_cons. simpl.
  destruct (f a) eqn:Hf; repeat case_decide; try done.
  by rewrite fmap_cons, IH.
Qed.

Lemma possible_elem e d b :
  (d, b) ∈ Enemy.possible e
  ↔ d ∈ dirs4 ∧ Enemy.is_open e d = true ∧ b = Enemy.is_reverse e d.
Proof.
  unfold Enemy.possible. rewrite list_elem_of_fmap. split.
  - intros (d' & [= -> ->] & Hd'). apply list_elem_of_filter in Hd'. tauto.
  - intros (Hd & Hopen & ->). exists d. split; [done|].
    by apply list_elem_of_filter.
Qed.

Lemma candidates_non_reversing e :
  non_reversing_open e ≠ [] →
  Enemy.candidates e = (λ d, (d, false)) <$> non_reversing_open e.
Proof.
  intros Hne. unfold Enemy.candidates, Enemy.possible.
  rewrite filter_tagged, list_filter_filter. fold (non_reversing_open e).
  rewrite bool_decide_eq_false_2; [done|].
  rewrite length_fmap. by destruct (non_reversing_open e).
Qed.

Lemma candidates_subset e p : p ∈ Enemy.candidates e → p ∈ Enemy.possible e.
Proof.
  unfold Enemy.candidates. case_bool_decide as Hlen; [done|].
  intros Hin. by apply list_elem_of_filter in Hin as [_ ?].
Qed.

Lemma candidates_nil e : Enemy.candidates e = [] ↔ Enemy.possible e = [].
Proof.
  unfold Enemy.candidates. case_bool_decide as Hlen; [done|].
  split; intros H.
  - rewrite H in Hlen. done.
  - rewrite H. done.
Qed.

(** A reversal is only ever a candidate when every open direction is one. *)
Lemma candidates_reverse e d :
  (d, true) ∈ Enemy.candidates e →
  ∀ d', d' ∈ dirs4 → Enemy.is_open e d' = true → Enemy.is_reverse e d' = true.
Proof.
  unfold Enemy.candidates. case_bool_decide as Hlen.
  - intros _ d' Hd' Hopen.
    destruct (Enemy.is_reverse e d') eqn:Hrev; [done|].
    apply length_zero_iff_nil in Hlen.
    exfalso. eapply (filter_nil_not_elem_of _ _ (d', false) Hlen); [done|].
    apply possible_elem. by rewrite Hrev.
  - intros H. by apply list_elem_of_filter in H as [? _].
Qed.

Lemma is_reverse_unique e d d' :
  Enemy.is_reverse e d = true → Enemy.is_reverse e d' = true → d' = d.
Proof.
  unfold Enemy.is_reverse. destruct d, d'. simpl. intros H H'.
  f_equal; lia.
Qed.

Lemma possible_nonempty e d :
  d ∈ dirs4 → Enemy.is_open e d = true → Enemy.candidates e ≠ [].
Proof.
  intros Hd Hopen Hnil. apply candidates_nil in Hnil.
  assert ((d, Enemy.is_reverse e d) ∈ Enemy.possible e) as H
    by by apply possible_elem.
  rewrite Hnil in H. by apply elem_of_nil in H.
Qed.

Lemma chooseDirection_at_tile r e :
  Enemy.at_tile e = true →
  Enemy.chooseDirection r e
  = js_index (Enemy.candidates e) (rand_index r (length (Enemy.candidates e)))
    ≫= λ choice, Some (Enemy.set_direction e choice.1).
Proof. intros H. unfold Enemy.chooseDirection. by rewrite H. Qed.

Lemma chooseDirection_succeeds r e :
  is_draw r → Enemy.candidates e ≠ [] → is_Some (Enemy.chooseDirection r e).
Proof.
  intros Hr Hne. unfold Enemy.chooseDirection.
  destruct (negb (Enemy.at_tile e)); [done|].
  destruct (js_index_is_Some (Enemy.candidates e)
              (rand_index r (length (Enemy.candidates e)))) as [c ->]; [|done].
  apply rand_index_bounds; [done|]. destruct (Enemy.candidates e); [done|].
  simpl. lia.
Qed.

Lemma is_reverse_opposite e d :
  Enemy.is_reverse e d = true ↔ d = opposite (Enemy.direction e).
Proof.
  unfold Enemy.is_reverse, opposite. destruct d as [a b]. simpl.
  rewrite andb_true_iff, !Z.eqb_eq. split.
  - intros [H1 H2]. f_equal; lia.
  - intros [= -> ->]. lia.
Qed.

Lemma open_dirs_elem e d : d ∈ open_dirs e ↔ d ∈ dirs4 ∧ Enemy.is_open e d = true.
Proof.
  unfold open_dirs, Enemy.is_open. rewrite list_elem_of_filter, negb_true_iff.
  tauto.
Qed.

(** The two lists of the policy are those of the code's tests. *)
Lemma forward_dirs_code e : forward_dirs e = non_reversing_open e.
Proof.
  unfold forward_dirs, open_dirs, non_reversing_open.
  rewrite list_filter_filter. apply list_filter_iff. intros d.
  rewrite <- is_reverse_opposite. unfold Enemy.is_open.
  rewrite negb_true_iff. destruct (Enemy.is_reverse e d); split; intros [? ?]; done.
Qed.

(** C2. At a tile-aligned position [chooseDirection] assigns a direction
    whenever some neighbour is open.  The direction assigned is one of the
    four whose neighbour cell is not a wall; it is the reversal of the
    current direction only when the reversal is the only open direction;
    and when some open direction is not the reversal, the assigned one is
    among those, each of the [n] of them being the one assigned for every
    draw [r] whose product [r * n] lies between its index and the next
    whole number, at least [2^-50] away from both: they are selected on
    intervals of draws of one length, uniformly up to the rounding of the
    product. *)
Theorem chooseDirection_policy (e : Enemy.t) (r : Q) :
  Enemy.at_tile e = true → is_draw r →
  (open_dirs e ≠ [] → is_Some (Enemy.chooseDirection r e))
  ∧ ∀ e', Enemy.chooseDirection r e = Some e' →
      let d := Enemy.direction e' in
      e' = Enemy.set_direction e d
      ∧ d ∈ open_dirs e
      ∧ (d = opposite (Enemy.direction e) → ∀ d', d' ∈ open_dirs e → d' = d)
      ∧ (forward_dirs e ≠ [] → d ∈ forward_dirs e)
      ∧ NoDup (forward_dirs e)
      ∧ ∀ (i : nat) d', forward_dirs e !! i = Some d' →
          let n := inject_Z (Z.of_nat (length (forward_dirs e))) in
          (inject_Z (Z.of_nat i) + draw_margin <= r * n)%Q →
          (r * n <= inject_Z (Z.of_nat i) + 1 - draw_margin)%Q →
          d = d'.
Proof.
  intros Htile Hr. split.
  { intros Hne. destruct (open_dirs e) as [|d l] eqn:Hopen; [done|].
    assert (d ∈ open_dirs e) as [Hd Hop]%open_dirs_elem
      by (rewrite Hopen; left).
    apply chooseDirection_succeeds; [done|]. by eapply possible_nonempty. }
  intros e' He'. rewrite chooseDirection_at_tile in He' by done.
  destruct (js_index _ _) as [[d b]|] eqn:Hidx; [|done].
  injection He' as <-. simpl.
  apply js_index_Some in Hidx as [Hidx0 Hidx].
  assert ((d, b) ∈ Enemy.candidates e) as Hcand
    by (apply list_elem_of_lookup; eauto).
  pose proof (candidates_subset _ _ Hcand) as Hposs.
  apply possible_elem in Hposs as (Hd & Hopen & Hb).
  assert (NoDup (forward_dirs e)) as Hnd
    by (apply NoDup_filter, NoDup_filter, NoDup_dirs4).
  split_and!; [done|by apply open_dirs_elem|..|done|].
  - intros Hrev%is_reverse_opposite d' [Hd' Hopen']%open_dirs_elem.
    subst b. rewrite Hrev in Hcand.
    eapply is_reverse_unique; [done|].
    by eapply candidates_reverse.
  - rewrite forward_dirs_code. intros Hfree.
    rewrite candidates_non_reversing in Hidx by done.
    rewrite list_lookup_fmap in Hidx.
    destruct (non_reversing_open e !! _) as [d0|] eqn:Hd0; [|done].
    injection Hidx as -> _. by eapply list_elem_of_lookup_2.
  - rewrite forward_dirs_code in *. intros i d' Hi Hlo Hhi.
    assert (non_reversing_open e ≠ []) as Hfree by (by intros E; rewrite E in Hi).
    rewrite candidates_non_reversing in Hidx by done.
    rewrite length_fmap, list_lookup_fmap in Hidx.
    assert (rand_index r (length (non_reversing_open e)) = Z.of_nat i) as Hri.
    { unfold rand_index. apply Qfloor_eq_iff.
      unfold draw_margin in Hlo, Hhi. rewrite inject_Z_plus.
      change (inject_Z 1) with 1%Q. split; lra. }
    rewrite Hri, Nat2Z.id, Hi in Hidx. by injection Hidx as <-.
Qed.

(** From its spawn cell (11,1), at rest, the pursuer may go right or up;
    the draw 3/4 takes the second of the two. *)
Lemma chooseDirection_policy_witness :
  match Enemy.chooseDirection (3 # 4) (Enemy.new 64 704 0) with
  | Some e' => Enemy.direction e' = mkDir 0 (-1)
  | None => False
  end.
Proof.
  destruct (Enemy.chooseDirection (3 # 4) (Enemy.new 64 704 0))
    as [e'|] eqn:He'; [|vm_compute in He'; discriminate].
  destruct (proj2 (chooseDirection_policy (Enemy.new 64 704 0) (3 # 4)
                     eq_refl (conj (Qle_bool_imp_le 0 (3 # 4) eq_refl) eq_refl))
              e' He')
    as (_ & _ & _ & _ & _ & Hpick).
  apply (Hpick 1%nat (mkDir 0 (-1))).
  - reflexivity.
  - apply (Qle_bool_imp_le _ _). reflexivity.
  - apply (Qle_bool_imp_le _ _). reflexivity.
Defined.

Lemma walkable_has_exit row col :
  isWall row col = false →
  ∃ d, d ∈ dirs4 ∧ isWall (row + dy d) (col + dx d) = false.
Proof.
  intros Hfree. destruct (isWall_false_inside _ _ Hfree) as [Hrow Hcol].
  assert (has_exit row col = true) as H
    by (clear Hfree; revert row col Hrow Hcol; apply maze_cells_ind;
        vm_compute; reflexivity).
  unfold has_exit in H. rewrite Hfree, orb_false_l in H.
  apply existsb_exists in H as (d & Hd & Hopen).
  exists d. split; [by apply list_elem_of_In|]. by apply negb_true_iff.
Qed.

(** C8. Every walkable cell of the maze has a walkable orthogonal
    neighbour; so for a pursuer aligned on a walkable cell the candidate
    list is not empty, the index drawn is inside it, the element read there
    exists and [chooseDirection] assigns a direction without failing. *)
Theorem chooseDirection_never_undefined :
  (∀ row col, isWall row col = false →
     ∃ d, d ∈ dirs4 ∧ isWall (row + dy d) (col + dx d) = false)
  ∧ ∀ (e : Enemy.t) (r : Q),
      Enemy.at_tile e = true →
      isWall (tile_of (Enemy.y e)) (tile_of (Enemy.x e)) = false →
      is_draw r →
      let n := length (Enemy.candidates e) in
      n ≠ 0%nat
      ∧ 0 ≤ rand_index r n < Z.of_nat n
      ∧ is_Some (js_index (Enemy.candidates e) (rand_index r n))
      ∧ is_Some (Enemy.chooseDirection r e).
Proof.
  split; [exact walkable_has_exit|].
  intros e r Htile Hfree Hr n.
  destruct (walkable_has_exit _ _ Hfree) as (d & Hd & Hopen).
  assert (Enemy.candidates e ≠ []) as Hne.
  { apply (possible_nonempty e d Hd). unfold Enemy.is_open. by rewrite Hopen. }
  assert (n ≠ 0%nat) as Hn
    by (subst n; destruct (Enemy.candidates e); [done|simpl; lia]).
  assert (0 ≤ rand_index r n < Z.of_nat n) as Hidx
    by (apply rand_index_bounds; [done|lia]).
  split_and!; [done|lia|lia|by apply js_index_is_Some|].
  by apply chooseDirection_succeeds.
Qed.

Lemma chooseDirection_never_undefined_witness :
  is_Some (Enemy.chooseDirection (3 # 4) (Enemy.new 64 704 0)).
Proof.
  apply (proj2 chooseDirection_never_undefined (Enemy.new 64 704 0) (3 # 4)
           eq_refl eq_refl (conj (Qle_bool_imp_le 0 (3 # 4) eq_refl) eq_refl)).
Defined.

(** ** The player stays off the walls *)

Lemma unit_dir_cases d :
  unit_dir d →
  d = mkDir 0 0 ∨ d = mkDir 1 0 ∨ d = mkDir (-1) 0
  ∨ d = mkDir 0 1 ∨ d = mkDir 0 (-1).
Proof.
  destruct d as [a b]. unfold unit_dir. simpl. intros H.
  assert (a = 0 ∧ b = 0 ∨ a = 1 ∧ b = 0 ∨ a = -1 ∧ b = 0
          ∨ a = 0 ∧ b = 1 ∨ a = 0 ∧ b = -1) as Hc by lia.
  destruct Hc as [[-> ->]|[[-> ->]|[[-> ->]|[[-> ->]|[-> ->]]]]]; auto 6.
Qed.

Lemma arrow_unit_dir d : arrow_dir d → unit_dir d.
Proof.
  intros [key Hkey]. unfold Game.dirs in Hkey.
  repeat (apply lookup_insert_Some in Hkey as [[_ <-]|[_ Hkey]];
          [unfold unit_dir; simpl; lia|]).
  by rewrite lookup_empty in Hkey.
Qed.

(** The tiles a box of side [TILE_SIZE] meets are its corner tiles. *)
Lemma overlaps_tile_corner x y row col :
  overlaps_tile x y TILE_SIZE row col →
  (row = y / TILE_SIZE ∨ row = (y + TILE_SIZE - 1) / TILE_SIZE)
  ∧ (col = x / TILE_SIZE ∨ col = (x + TILE_SIZE - 1) / TILE_SIZE).
Proof.
  unfold overlaps_tile, TILE_SIZE. intros H.
  split; Z.div_mod_to_equations; lia.
Qed.

Lemma box_free_overlaps x y row col :
  box_free x y → overlaps_tile x y TILE_SIZE row col → isWall row col = false.
Proof.
  intros (H1 & H2 & H3 & H4) Hov.
  apply overlaps_tile_corner in Hov as [[-> | ->] [-> | ->]]; done.
Qed.

(** Moving the box by three pixels along a row: the tiles it then meets
    were met before or are the two tiles the leading edge was tested on. *)
Lemma slide_x x y s :
  box_free x y → s = 3 ∨ s = -3 →
  let col := if s >? 0 then (x + s + TILE_SIZE - 1) / TILE_SIZE
             else (x + s) / TILE_SIZE in
  isWall (y / TILE_SIZE) col = false →
  isWall ((y + TILE_SIZE - 1) / TILE_SIZE) col = false →
  box_free (x + s) y.
Proof.
  unfold box_free, TILE_SIZE. intros (H1 & H2 & H3 & H4) [-> | ->]; simpl;
    intros Ht Hb.
  - assert ((x + 3) / 64 = x / 64 ∨ (x + 3) / 64 = (x + 64 - 1) / 64) as [-> | ->]
      by (Z.div_mod_to_equations; lia); done.
  - replace (x + -3 + 64 - 1) with (x + 60) by lia.
    assert ((x + 60) / 64 = x / 64 ∨ (x + 60) / 64 = (x + 64 - 1) / 64)
      as [-> | ->] by (Z.div_mod_to_equations; lia); done.
Qed.

Lemma slide_y x y s :
  box_free x y → s = 3 ∨ s = -3 →
  let row := if s >? 0 then (y + s + TILE_SIZE - 1) / TILE_SIZE
             else (y + s) / TILE_SIZE in
  isWall row (x / TILE_SIZE) = false →
  isWall row ((x + TILE_SIZE - 1) / TILE_SIZE) = false →
  box_free x (y + s).
Proof.
  unfold box_free, TILE_SIZE. intros (H1 & H2 & H3 & H4) [-> | ->]; simpl;
    intros Hl Hr.
  - assert ((y + 3) / 64 = y / 64 ∨ (y + 3) / 64 = (y + 64 - 1) / 64) as [-> | ->]
      by (Z.div_mod_to_equations; lia); done.
  - replace (y + -3 + 64 - 1) with (y + 60) by lia.
    assert ((y + 60) / 64 = y / 64 ∨ (y + 60) / 64 = (y + 64 - 1) / 64)
      as [-> | ->] by (Z.div_mod_to_equations; lia); done.
Qed.

Lemma keyed_unit v : keyed v → queued_unit v.
Proof.
  intros [key Hkey]. unfold Game.dirs_get in Hkey.
  destruct (Game.dirs !! key) as [d|] eqn:Hd.
  - injection Hkey as <-. apply arrow_unit_dir. by exists key.
  - case_bool_decide; [|done]. by injection Hkey as <-.
Qed.

(** An update that does not raise gives [stepped], through [turned]. *)
Lemma tryChangeDirection_turned p p0 :
  Player.tryChangeDirection p = Some p0 → p0 = turned p.
Proof. unfold turned. by intros ->. Qed.

Lemma update_stepped p p' : Player.update p = Some p' → p' = stepped p.
Proof.
  unfold Player.update, stepped, turned.
  destruct (Player.tryChangeDirection p); [|done]. by intros [= <-].
Qed.

(** The update raises exactly on whole tiles with a member queued. *)
Lemma update_raises p :
  Player.update p = None
  ↔ aligned (Player.x p) && aligned (Player.y p) = true
    ∧ ∃ name, Player.nextDirection p = Player.Member name.
Proof.
  unfold Player.update, Player.tryChangeDirection.
  destruct (aligned _ && aligned _).
  - destruct (Player.nextDirection p) as [d|name]; simpl.
    + split; [done|]. by intros [_ [? ?]].
    + split; [|done]. intros _. split; [done|]. by exists name.
  - simpl. split; [done|]. by intros [? _].
Qed.

Lemma tryChangeDirection_cases p :
  turned p = p
  ∨ ∃ d, Player.nextDirection p = Player.Vec d
         ∧ turned p = Player.set_direction p d.
Proof.
  unfold turned, Player.tryChangeDirection.
  destruct (aligned _ && aligned _); [|by left].
  destruct (Player.nextDirection p) as [d|name]; [|by left]. simpl.
  destruct (negb _); [right; by exists d | by left].
Qed.

Lemma tryChangeDirection_safe p :
  player_safe p → player_safe (turned p).
Proof.
  intros Hp. destruct (tryChangeDirection_cases p) as [-> | (d & Hd & ->)]; [done|].
  destruct Hp as (? & ? & ? & Hq & ?). rewrite Hd in Hq.
  split_and!; try done. simpl. by rewrite Hd.
Qed.

(** One moving direction of [move_safe]: the wall test either stops the
    player where it is or clears the step, which [slide] then shows to be
    safe; [side] picks the sign of the step. *)
Ltac step_safe slide side :=
  let Hblk := fresh "Hblk" in
  let H1 := fresh "H" in
  let H2 := fresh "H" in
  match goal with
  | |- context [Player.blocked_x ?p ?v] =>
      destruct (Player.blocked_x p v) eqn:Hblk
  | |- context [Player.blocked_y ?p ?v] =>
      destruct (Player.blocked_y p v) eqn:Hblk
  end;
  simpl; rewrite Z.add_0_r; split_and!; try done;
  apply orb_false_iff in Hblk as [H1 H2]; by apply slide; [|side|..].

(** The two collision blocks and the final assignment keep a safe player
    safe. *)
Lemma move_safe p : player_safe p → player_safe (Player.move p).
Proof.
  destruct p as [x y s d nd sz]. unfold player_safe, Player.move. simpl.
  intros (-> & -> & Hd & Hnd & Hbox).
  destruct (unit_dir_cases d Hd) as [->|[->|[->|[->| ->]]]];
    unfold Player.collide_x, Player.collide_y; simpl.
  - rewrite !Z.add_0_r. by split_and!.
  - step_safe slide_x ltac:(left).
  - step_safe slide_x ltac:(right).
  - step_safe slide_y ltac:(left).
  - step_safe slide_y ltac:(right).
Qed.

Lemma update_safe p : player_safe p → player_safe (stepped p).
Proof.
  intros Hp. apply tryChangeDirection_safe in Hp.
  unfold stepped. by apply move_safe.
Qed.

Lemma start_safe : player_safe (Player.new (1 * TILE_SIZE) (1 * TILE_SIZE)).
Proof.
  unfold player_safe, box_free. simpl.
  split_and!; try reflexivity; unfold unit_dir; simpl; lia.
Qed.

Lemma reachable_safe p : player_reachable p → player_safe p.
Proof.
  induction 1 as [|p v _ IH Hv|p p' _ IH Hup].
  - apply start_safe.
  - destruct IH as (? & ? & ? & ? & ?). split_and!; try done.
    by apply keyed_unit.
  - rewrite (update_stepped _ _ Hup). by apply update_safe.
Qed.

(** C1. In every state the player reaches from cell (1,1) by key presses
    and updates, no tile that the player's 64 x 64 box overlaps is a wall. *)
Theorem player_never_in_wall (p : Player.t) (row col : Z) :
  player_reachable p →
  overlaps_tile (Player.x p) (Player.y p) 64 row col →
  isWall row col = false.
Proof.
  intros Hreach Hov. apply reachable_safe in Hreach as (_ & _ & _ & _ & Hbox).
  by eapply box_free_overlaps.
Qed.

Lemma player_never_in_wall_witness : isWall 1 2 = false.
Proof.
  apply (player_never_in_wall
           (Player.mk 67 64 3 (mkDir 1 0) (Player.Vec (mkDir 1 0)) 64)).
  - apply (player_update
             (Player.set_nextDirection
                (Player.new (1 * TILE_SIZE) (1 * TILE_SIZE))
                (Player.Vec (mkDir 1 0)))); [|reflexivity].
    apply player_key; [apply player_start|].
    exists "ArrowRight"%string. reflexivity.
  - vm_compute. repeat split; reflexivity.
Defined.

(** ** Collisions with walls, axis by axis *)

Lemma tryChangeDirection_off_grid p :
  aligned (Player.x p) && aligned (Player.y p) = false →
  turned p = p.
Proof. intros H. unfold turned, Player.tryChangeDirection. by rewrite H. Qed.

Lemma tryChangeDirection_position p :
  Player.x (turned p) = Player.x p
  ∧ Player.y (turned p) = Player.y p
  ∧ Player.speed (turned p) = Player.speed p
  ∧ Player.size (turned p) = Player.size p.
Proof. by destruct (tryChangeDirection_cases p) as [-> | (d & _ & ->)]. Qed.

(** The result of the two collision blocks and the final assignment of
    [Player.update], field by field. *)
Lemma player_move_fields p :
  let d := Player.direction p in
  let newX := Player.x p + dx d * Player.speed p in
  let newY := Player.y p + dy d * Player.speed p in
  let bx := negb (dx d =? 0) && Player.blocked_x p newX in
  let p1 := (Player.collide_x p newX).1 in
  let by_ := negb (dy d =? 0) && Player.blocked_y p1 newY in
  let p' := Player.move p in
  Player.x p' = (if bx then Player.x p else newX)
  ∧ Player.y p' = (if by_ then Player.y p else newY)
  ∧ Player.direction p' = mkDir (if bx then 0 else dx d) (if by_ then 0 else dy d)
  ∧ Player.nextDirection p' = Player.nextDirection p
  ∧ Player.speed p' = Player.speed p ∧ Player.size p' = Player.size p.
Proof.
  destruct p as [x y s [a b] nd sz]. unfold Player.move. simpl.
  unfold Player.collide_x. simpl.
  destruct (negb (a =? 0) && Player.blocked_x _ _); simpl;
    unfold Player.collide_y; simpl;
    destruct (negb (b =? 0) && Player.blocked_y _ _); simpl; done.
Qed.

Lemma enemy_move_fields e :
  let d := Enemy.direction e in
  let newX := (Enemy.x e + inject_Z (dx d) * Enemy.speed e)%Q in
  let newY := (Enemy.y e + inject_Z (dy d) * Enemy.speed e)%Q in
  let bx := negb (dx d =? 0) && Enemy.blocked_x e newX in
  let by_ := negb bx && negb (dy d =? 0) && Enemy.blocked_y e newY in
  let e' := Enemy.move e in
  Enemy.x e' = (if bx then Enemy.x e else newX)
  ∧ Enemy.y e' = (if by_ then Enemy.y e else newY)
  ∧ Enemy.direction e' = (if bx || by_ then zero_dir else d)
  ∧ Enemy.speed e' = Enemy.speed e ∧ Enemy.size e' = Enemy.size e.
Proof.
  destruct e as [x y s [a b] sz sd st]. unfold Enemy.move. simpl.
  unfold Enemy.collide_x. simpl.
  destruct (negb (a =? 0) && Enemy.blocked_x _ _); simpl;
    unfold Enemy.collide_y; simpl; [done|].
  destruct (negb (b =? 0) && Enemy.blocked_y _ _); simpl; done.
Qed.

Lemma player_update_fields p :
  let p0 := turned p in
  let d := Player.direction p0 in
  let p' := stepped p in
  Player.x p' = (if player_blocked_x p0 then Player.x p else player_newX p0)
  ∧ Player.y p' = (if player_blocked_y p0 then Player.y p else player_newY p0)
  ∧ Player.direction p'
    = mkDir (if player_blocked_x p0 then 0 else dx d)
            (if player_blocked_y p0 then 0 else dy d).
Proof.
  destruct (player_move_fields (turned p)) as (H1 & H2 & H3 & _).
  destruct (tryChangeDirection_position p) as (Hx & Hy & _).
  cbv zeta. rewrite <- Hx, <- Hy. by split_and!.
Qed.

Lemma enemy_update_active now r e :
  (now - Enemy.spawnTimestamp e <? Enemy.startDelay e) = false →
  Enemy.update now r e = Enemy.move <$> Enemy.chooseDirection r e.
Proof. intros H. unfold Enemy.update. by rewrite H. Qed.

Lemma chooseDirection_off_grid r e :
  Enemy.at_tile e = false → Enemy.chooseDirection r e = Some e.
Proof. intros H. unfold Enemy.chooseDirection. by rewrite H. Qed.

Lemma chooseDirection_position r e e0 :
  Enemy.chooseDirection r e = Some e0 →
  Enemy.x e0 = Enemy.x e ∧ Enemy.y e0 = Enemy.y e.
Proof.
  unfold Enemy.chooseDirection. destruct (negb _); [by intros [= <-]|].
  destruct (js_index _ _); [|done]. by intros [= <-].
Qed.

Lemma stepped_nextDirection p :
  Player.nextDirection (stepped p) = Player.nextDirection p.
Proof.
  unfold stepped.
  destruct (player_move_fields (turned p)) as (_ & _ & _ & H & _).
  cbv zeta in H. rewrite H.
  by destruct (tryChangeDirection_cases p) as [-> | (d & _ & ->)].
Qed.

(** With a vector queued the update does not raise. *)
Lemma update_vector p d :
  Player.nextDirection p = Player.Vec d → Player.update p = Some (stepped p).
Proof.
  intros Hd. unfold stepped, turned, Player.update, Player.tryChangeDirection.
  rewrite Hd. by destruct (aligned _ && aligned _).
Qed.

Lemma reachable_iter n p d :
  player_reachable p → Player.nextDirection p = Player.Vec d →
  player_reachable (Nat.iter n stepped p)
  ∧ Player.nextDirection (Nat.iter n stepped p) = Player.Vec d.
Proof.
  intros Hp Hd. induction n as [|n [IH1 IH2]]; [done|]. simpl. split.
  - eapply player_update; [exact IH1|]. by eapply update_vector.
  - by rewrite stepped_nextDirection.
Qed.

(** ** A blocked axis is not snapped *)

(** C5, where the code departs from it.  The player that went down from
    cell (1,1) with ArrowDown pressed, 213 frames later, is at y = 703,
    one pixel short of row 11, and the wall of row 12 blocks its next step.
    The vertical block of [update] writes the snapped coordinate 704 and
    zeroes the direction, and the final assignment [this.y = newY] puts 703
    back: the update ends off the grid, without a direction, and from
    there on no update moves the player, whatever is queued. *)
Lemma player_stops_off_grid :
  let p := Player.mk 64 703 3 (mkDir 0 1) (Player.Vec (mkDir 0 1)) 64 in
  let p' := Player.mk 64 703 3 (mkDir 0 0) (Player.Vec (mkDir 0 1)) 64 in
  player_reachable p
  ∧ player_blocked_y p = true
  ∧ snap (Player.y p) = 704
  ∧ Player.update p = Some p'
  ∧ aligned (Player.y p') = false
  ∧ ∀ v, Player.update (Player.set_nextDirection p' v)
         = Some (Player.set_nextDirection p' v).
Proof.
  split_and!; [|reflexivity..|by intros []].
  change (Player.mk 64 703 3 (mkDir 0 1) (Player.Vec (mkDir 0 1)) 64)
    with (Nat.iter 213 stepped
            (Player.set_nextDirection
               (Player.new (1 * TILE_SIZE) (1 * TILE_SIZE))
               (Player.Vec (mkDir 0 1)))).
  apply (reachable_iter 213 _ (mkDir 0 1)); [|reflexivity].
  apply player_key; [apply player_start|].
  exists "ArrowDown"%string. reflexivity.
Qed.

(** The pursuer's blocks have no snap at all.  A pursuer at y = 64.5 in
    column 1, going up: its step would end at 63.3, in the wall of row 0,
    so it is blocked and stays where it is, off the grid. *)
Lemma pursuer_not_snapped :
  let e := Enemy.mk 64 (129 # 2) (6 # 5) (mkDir 0 (-1)) 64 3000 0 in
  enemy_blocked_y e = true
  ∧ ∃ e', Enemy.update 5000 (1 # 2) e = Some e'
          ∧ Enemy.y e' = (129 # 2)%Q
          ∧ alignedQ (Enemy.y e') = false
          ∧ Enemy.direction e' = zero_dir.
Proof. split; [reflexivity|]. eexists. split_and!; reflexivity. Qed.

(** ** A direction that changes off the grid *)

(** C4, where the code departs from it.  A pursuer at y = 64.5 in column
    1, going up, is stopped by the wall of row 0, where its step to 63.3
    would end: its direction becomes zero where it stands, off the grid,
    and the updates that follow leave it there. *)
Lemma pursuer_direction_zeroed_off_grid :
  let e := Enemy.mk 64 (129 # 2) (6 # 5) (mkDir 0 (-1)) 64 3000 0 in
  Enemy.at_tile e = false
  ∧ ∃ e', Enemy.update 5000 (1 # 2) e = Some e'
          ∧ Enemy.direction e' ≠ Enemy.direction e
          ∧ Enemy.y e' = Enemy.y e
          ∧ alignedQ (Enemy.y e') = false
          ∧ ∃ e'', Enemy.update 5016 (1 # 2) e' = Some e''
                   ∧ Enemy.y e'' == Enemy.y e
                   ∧ Enemy.direction e'' = zero_dir.
Proof.
  split; [reflexivity|]. eexists.
  split_and!; [reflexivity|done|reflexivity..|].
  eexists. split_and!; reflexivity.
Qed.

(** ** The keyboard *)

Lemma dirs_lookup key d :
  Game.dirs !! key = Some d ↔
    key = "ArrowUp"%string ∧ d = mkDir 0 (-1)
    ∨ key = "ArrowDown"%string ∧ d = mkDir 0 1
    ∨ key = "ArrowLeft"%string ∧ d = mkDir (-1) 0
    ∨ key = "ArrowRight"%string ∧ d = mkDir 1 0.
Proof.
  unfold Game.dirs. rewrite !lookup_insert_Some, lookup_empty. split.
  - intros [[<- <-]|[? [[<- <-]|[? [[<- <-]|[? [[<- <-]|[? ?]]]]]]]]; by eauto 6.
  - intros [[-> ->]|[[-> ->]|[[-> ->]| [-> ->]]]]; eauto 10.
Qed.

(** What the handler does, key by key: an arrow key queues its vector, the
    name of a member of [Object.prototype] queues that member, and any
    other key changes nothing; the handler writes [nextDirection] only. *)
Lemma onkeydown_cases (key : string) (g : Game.t) :
  let g' := Game.onkeydown key g in
  let p := Game.player g in
  let p' := Game.player g' in
  (∀ d, Game.dirs !! key = Some d → Player.nextDirection p' = Player.Vec d)
  ∧ (key ∈ Game.object_prototype_members →
     Player.nextDirection p' = Player.Member key)
  ∧ (Game.dirs !! key = None → key ∉ Game.object_prototype_members → g' = g)
  ∧ Player.direction p' = Player.direction p
  ∧ Player.x p' = Player.x p ∧ Player.y p' = Player.y p
  ∧ Player.speed p' = Player.speed p ∧ Player.size p' = Player.size p
  ∧ g' = Game.set_player g p'.
Proof.
  intros g' p p'. subst g' p p'. unfold Game.onkeydown, Game.dirs_get.
  destruct (Game.dirs !! key) as [d|] eqn:Hkey.
  - simpl. split_and!; try done.
    + by intros d' [= <-].
    + intros Hin. apply dirs_lookup in Hkey.
      unfold Game.object_prototype_members in Hin.
      rewrite !elem_of_cons, elem_of_nil in Hin.
      destruct Hkey as [[-> _]|[[-> _]|[[-> _]|[-> _]]]];
        repeat (destruct Hin as [Hin|Hin]; [discriminate|]); done.
  - case_bool_decide as Hin; simpl.
    + by split_and!.
    + split_and!; try done; by destruct g.
Qed.

(** C10, where the code departs from it.  The key [toString] is not one of
    the four arrows, but [dirs[key]] finds the function of that name on
    [Object.prototype], which is truthy: the handler stores it in
    [nextDirection], and the next frame with the player on a whole tile
    raises a TypeError. *)
Lemma keydown_stores_inherited_member :
  let g := Game.mk (Player.new 64 64) [] [] 0 60 true [] in
  let g' := Game.onkeydown "toString" g in
  Game.dirs !! "toString"%string = None
  ∧ Player.nextDirection (Game.player g') = Player.Member "toString"
  ∧ g' ≠ g
  ∧ Game.update (λ _, (0, (1 # 2)%Q)) g' = None.
Proof. split_and!; [reflexivity|reflexivity|discriminate|reflexivity]. Qed.

(** ** The toy loop of a frame *)

Section toy_loop.
Context (row col : Z).

Lemma hit_uncollected toy : Game.hit row col toy = true → Toy.collected toy = false.
Proof.
  unfold Game.hit. destruct (Toy.collected toy); [done|]. done.
Qed.

Lemma collect_hit_collected toy :
  Toy.collected (collect_hit row col toy)
  = Toy.collected toy || Game.hit row col toy.
Proof.
  unfold collect_hit. destruct (Game.hit row col toy) eqn:Hhit; simpl.
  - by rewrite orb_true_r.
  - by rewrite orb_false_r.
Qed.

Lemma no_hit_among_collected ts :
  forallb Toy.collected ts = true → existsb (Game.hit row col) ts = false.
Proof.
  induction ts as [|toy ts IH]; [done|]. simpl.
  intros [Hc Hts]%andb_true_iff. rewrite (IH Hts), orb_false_r.
  unfold Game.hit. by rewrite Hc.
Qed.

Lemma collect_hit_no_hit ts :
  existsb (Game.hit row col) ts = false → collect_hit row col <$> ts = ts.
Proof.
  induction ts as [|toy ts IH]; [done|]. cbn [existsb].
  intros [Hh Hts]%orb_false_iff. rewrite fmap_cons, (IH Hts).
  unfold collect_hit. by rewrite Hh.
Qed.

Lemma count_hits_cons toy ts :
  count_hits row col (toy :: ts)
  = (if Game.hit row col toy then 1 else 0) + count_hits row col ts.
Proof.
  unfold count_hits. rewrite filter_cons.
  destruct (Game.hit row col toy); case_decide; try done; simpl; lia.
Qed.

(** The state after the rounds for the toys [rest], which follow the toys
    [done_] in the array. *)
Lemma visit_toys_from done_ rest g :
  Game.toys g = done_ ++ rest →
  let ts' := done_ ++ (collect_hit row col <$> rest) in
  let won := existsb (Game.hit row col) rest && forallb Toy.collected ts' in
  foldl (Game.visit_toy row col) g (seq (length done_) (length rest))
  = Game.mk (Game.player g) (Game.enemies g) ts'
            (Game.score g + count_hits row col rest) (Game.timeLeft g)
            (if won then false else Game.running g)
            (if won then true :: Game.endGameCalls g else Game.endGameCalls g).
Proof.
  revert done_ g. induction rest as [|toy rest IH]; intros done_ g Hts.
  { simpl. rewrite app_nil_r in *. destruct g; simpl in *. subst.
    unfold count_hits. simpl. by rewrite Z.add_0_r. }
  cbn [length seq foldl]. unfold Game.visit_toy at 2.
  rewrite Hts, list_lookup_middle by done.
  rewrite count_hits_cons, fmap_cons. cbn [existsb].
  assert (∀ t, length (done_ ++ [t]) = S (length done_)) as Hlen
    by (intros t; rewrite length_app; simpl; lia).
  destruct (Game.hit row col toy) eqn:Hhit.
  - assert (collect_hit row col toy = Toy.collect toy) as ->
      by (unfold collect_hit; by rewrite Hhit).
    rewrite insert_app_r_alt, Nat.sub_diag by done. cbn [insert list_insert].
    cbn [Game.toys Game.set_score Game.set_toys Game.score].
    rewrite <- (Hlen (Toy.collect toy)), orb_true_l, andb_true_l.
    destruct (forallb Toy.collected (done_ ++ Toy.collect toy :: rest))
      eqn:Hall.
    + rewrite IH by (simpl; by rewrite <- app_assoc).
      cbn [Game.player Game.enemies Game.score Game.timeLeft Game.running
           Game.endGameCalls Game.endGame Game.set_score Game.set_toys].
      assert (existsb (Game.hit row col) rest = false) as Hno.
      { apply no_hit_among_collected.
        rewrite forallb_app in Hall. apply andb_true_iff in Hall as [_ Hall].
        by simpl in Hall. }
      rewrite Hno, (collect_hit_no_hit rest Hno), andb_false_l.
      rewrite <- app_assoc. cbn [app]. rewrite Hall. f_equal. lia.
    + rewrite IH by (simpl; by rewrite <- app_assoc).
      cbn [Game.player Game.enemies Game.score Game.timeLeft Game.running
           Game.endGameCalls Game.set_score Game.set_toys].
      rewrite <- !app_assoc. cbn [app].
      destruct (existsb (Game.hit row col) rest) eqn:Hex.
      * rewrite andb_true_l. f_equal. lia.
      * rewrite (collect_hit_no_hit rest Hex), Hall, andb_false_l.
        f_equal. lia.
  - assert (collect_hit row col toy = toy) as ->
      by (unfold collect_hit; by rewrite Hhit).
    rewrite <- (Hlen toy), IH by (by rewrite <- app_assoc).
    rewrite <- !app_assoc, orb_false_l. cbn [app]. f_equal.
Qed.

Lemma collect_toys_result g :
  let ts' := collect_hit row col <$> Game.toys g in
  let won := existsb (Game.hit row col) (Game.toys g)
             && forallb Toy.collected ts' in
  Game.collect_toys row col g
  = Game.mk (Game.player g) (Game.enemies g) ts'
            (Game.score g + count_hits row col (Game.toys g)) (Game.timeLeft g)
            (if won then false else Game.running g)
            (if won then true :: Game.endGameCalls g else Game.endGameCalls g).
Proof. apply (visit_toys_from [] (Game.toys g) g). done. Qed.

End toy_loop.

(** ** The enemy loop of a frame *)

Section enemy_loop.
Context (inp : nat → Z * Q).

Lemma visit_enemies_failed (l : list nat) :
  foldl (λ og i, og ≫= λ g', Game.visit_enemy inp g' i) None l = None.
Proof. by induction l. Qed.

Lemma replicate_snoc_false (n : nat) (l : list bool) :
  replicate n false ++ false :: l = false :: replicate n false ++ l.
Proof. induction n as [|n IH]; [done|]. simpl. by rewrite IH. Qed.

Lemma visit_enemies_from done_ rest g :
  Game.enemies g = done_ ++ rest →
  foldl (λ og i, og ≫= λ g', Game.visit_enemy inp g' i) (Some g)
        (seq (length done_) (length rest))
  = rest' ← updated_enemies inp (length done_) rest;
    let hits := colliding (Game.player g) rest' in
    Some (Game.mk (Game.player g) (done_ ++ rest') (Game.toys g)
                  (Game.score g) (Game.timeLeft g)
                  (if bool_decide (hits = []) then Game.running g else false)
                  (replicate (length hits) false ++ Game.endGameCalls g)).
Proof.
  revert done_ g. induction rest as [|e rest IH]; intros done_ g Hes.
  { cbn [length seq foldl updated_enemies mbind option_bind].
    unfold colliding. rewrite filter_nil, bool_decide_eq_true_2 by done.
    rewrite app_nil_r in *. destruct g; simpl in *. congruence. }
  cbn [length seq foldl updated_enemies]. unfold Game.visit_enemy at 2.
  cbn [mbind option_bind]. rewrite Hes, list_lookup_middle by done.
  destruct (Enemy.update _ _ e) as [e'|]; cbn [mbind option_bind];
    [|apply visit_enemies_failed].
  rewrite insert_app_r_alt, Nat.sub_diag by done. cbn [insert list_insert].
  assert (length (done_ ++ [e']) = S (length done_)) as Hlen
    by (rewrite length_app; simpl; lia).
  rewrite <- Hlen. cbn [Game.player Game.set_enemies].
  destruct (Game.checkCollision (Game.player g) e') eqn:Hhit.
  - rewrite IH by (simpl; by rewrite <- app_assoc).
    destruct (updated_enemies inp _ rest) as [rest'|]; [|done].
    cbn [mbind option_bind Game.player Game.enemies Game.toys Game.score
         Game.timeLeft Game.running Game.endGameCalls Game.endGame
         Game.set_enemies].
    unfold colliding. rewrite filter_cons, decide_True by done.
    rewrite (bool_decide_eq_false_2 (e' :: _ = [])) by done.
    cbn [length replicate]. rewrite replicate_snoc_false, <- app_assoc.
    f_equal. f_equal. by destruct (bool_decide _).
  - rewrite IH by (simpl; by rewrite <- app_assoc).
    destruct (updated_enemies inp _ rest) as [rest'|]; [|done].
    cbn [mbind option_bind Game.player Game.enemies Game.toys Game.score
         Game.timeLeft Game.running Game.endGameCalls Game.set_enemies].
    unfold colliding. rewrite filter_cons, decide_False by congruence.
    by rewrite <- app_assoc.
Qed.

Lemma update_enemies_result g :
  Game.update_enemies inp g
  = es' ← updated_enemies inp 0 (Game.enemies g);
    let hits := colliding (Game.player g) es' in
    Some (Game.mk (Game.player g) es' (Game.toys g)
                  (Game.score g) (Game.timeLeft g)
                  (if bool_decide (hits = []) then Game.running g else false)
                  (replicate (length hits) false ++ Game.endGameCalls g)).
Proof. apply (visit_enemies_from [] (Game.enemies g) g). done. Qed.

(** A frame, in one piece: it raises where the player's update does or
    an enemy's does. *)
Lemma update_result g :
  let p' := stepped (Game.player g) in
  let row := Player.y p' / TILE_SIZE in
  let col := Player.x p' / TILE_SIZE in
  let ts' := collect_hit row col <$> Game.toys g in
  let won := existsb (Game.hit row col) (Game.toys g)
             && forallb Toy.collected ts' in
  Game.update inp g
  = _ ← Player.update (Game.player g);
    es' ← updated_enemies inp 0 (Game.enemies g);
    let hits := colliding p' es' in
    Some (Game.mk p' es' ts'
            (Game.score g + count_hits row col (Game.toys g))
            (Game.timeLeft g)
            (if bool_decide (hits = []) then
               if won then false else Game.running g
             else false)
            (replicate (length hits) false
             ++ if won then true :: Game.endGameCalls g
                else Game.endGameCalls g)).
Proof.
  intros p' row col ts' won. unfold Game.update.
  destruct (Player.update (Game.player g)) as [q|] eqn:Hq; [|done].
  cbn [mbind option_bind]. rewrite (update_stepped _ _ Hq).
  fold p'. cbn [Game.player Game.set_player]. fold row col.
  rewrite collect_toys_result, update_enemies_result.
  cbn [Game.player Game.enemies Game.toys Game.score Game.timeLeft
       Game.running Game.endGameCalls Game.set_player].
  done.
Qed.

End enemy_loop.


(** ** The toys of a new session *)

Lemma swap_perm {A} (a : list A) (i : nat) (j : Z) :
  (i < length a)%nat → 0 ≤ j < Z.of_nat (length a) →
  ∃ a', Game.swap a i j = Some a' ∧ a' ≡ₚ a.
Proof.
  intros Hi Hj. unfold Game.swap.
  destruct (lookup_lt_is_Some_2 a i Hi) as [ai Hai].
  destruct (js_index_is_Some a j Hj) as [aj Haj].
  rewrite Hai, Haj. simpl. eexists. split; [done|].
  apply js_index_Some in Haj as [_ Haj]. set (jn := Z.to_nat j) in *.
  assert (jn < length a)%nat as Hjn by (subst jn; lia).
  apply Permutation_inj. split; [by rewrite !length_insert|].
  exists (λ k, if decide (k = jn) then i else if decide (k = i) then jn else k).
  split.
  - intros k1 k2. repeat case_decide; congruence.
  - intros k. destruct (decide (k = jn)) as [->|Hk].
    + rewrite list_lookup_insert_eq by (by rewrite length_insert). done.
    + rewrite list_lookup_insert_ne by done.
      destruct (decide (k = i)) as [->|Hk'].
      * by rewrite list_lookup_insert_eq.
      * by rewrite list_lookup_insert_ne.
Qed.

Lemma shuffle_from_perm {A} (rand : nat → Q) (i : nat) (a : list A) :
  (∀ k, is_draw (rand k)) → (i < length a ∨ i = 0)%nat →
  ∃ a', Game.shuffle_from rand i a = Some a' ∧ a' ≡ₚ a.
Proof.
  intros Hrand. revert a. induction i as [|i IH]; intros a Hi.
  { by exists a. }
  cbn [Game.shuffle_from].
  destruct (swap_perm a (S i) (rand_index (rand (S i)) (S i + 1)))
    as (a1 & -> & Ha1); [lia| |].
  { pose proof (rand_index_bounds (rand (S i)) (S i + 1) (Hrand _)). lia. }
  cbn [mbind option_bind].
  destruct (IH a1) as (a' & -> & Ha').
  { left. apply Permutation_length in Ha1. lia. }
  exists a'. split; [done|]. by etrans.
Qed.

Lemma shuffle_perm {A} (rand : nat → Q) (a : list A) :
  (∀ k, is_draw (rand k)) → ∃ a', Game.shuffle rand a = Some a' ∧ a' ≡ₚ a.
Proof.
  intros Hrand. apply shuffle_from_perm; [done|]. destruct a; simpl; lia.
Qed.

Lemma emptyCells_walkable : Game.emptyCells = walkable_besides_start.
Proof. vm_compute. reflexivity. Qed.

Lemma emptyCells_elem rc :
  rc ∈ Game.emptyCells → isWall rc.1 rc.2 = false ∧ rc ≠ (1, 1).
Proof.
  rewrite emptyCells_walkable. unfold walkable_besides_start.
  rewrite list_elem_of_filter. tauto.
Qed.

Lemma emptyCells_NoDup : NoDup Game.emptyCells.
Proof. apply (bool_decide_unpack _). vm_compute. exact I. Qed.

Lemma make_toys_cells cells :
  toy_cell <$> Game.make_toys cells = take (Nat.min 10 (length cells)) cells.
Proof.
  unfold Game.make_toys. rewrite fmap_imap.
  generalize (take (Nat.min 10 (length cells)) cells). intros l.
  apply list_eq. intros i. rewrite list_lookup_imap.
  by destruct (l !! i) as [[r c]|].
Qed.

Lemma make_toys_uncollected cells toy :
  toy ∈ Game.make_toys cells → Toy.collected toy = false.
Proof.
  unfold Game.make_toys. intros (i & Hi)%list_elem_of_lookup.
  rewrite list_lookup_imap in Hi.
  destruct (_ !! i); [|done]. by injection Hi as <-.
Qed.

(** The first frame leaves the start: nothing is on the player's cell, and
    the pursuer, on the walkable cell (11,1), waits or takes a direction. *)
Lemma no_hit_off_cell row col ts :
  (row, col) ∉ toy_cell <$> ts → existsb (Game.hit row col) ts = false.
Proof.
  induction ts as [|toy ts IH]; [done|].
  rewrite fmap_cons, not_elem_of_cons. intros [Hne Hts].
  cbn [existsb]. rewrite (IH Hts), orb_false_r.
  unfold Game.hit. destruct (Toy.collected toy); [done|]. simpl.
  destruct (Z.eqb_spec (Toy.row toy) row) as [<-|]; [|done].
  destruct (Z.eqb_spec (Toy.col toy) col) as [<-|]; [|done].
  by destruct Hne.
Qed.

Lemma first_enemy_update now now' r :
  is_draw r →
  is_Some (Enemy.update now' r (Enemy.new (1 * TILE_SIZE) (11 * TILE_SIZE) now)).
Proof.
  intros Hr. unfold Enemy.update. destruct (_ <? _); [done|].
  apply fmap_is_Some, chooseDirection_succeeds; [done|].
  apply (possible_nonempty _ (mkDir 1 0)); [apply list_elem_of_here|].
  vm_compute. reflexivity.
Qed.

(** C9. With draws of [Math.random], [init] succeeds and the session it
    leaves has [min (10, n)] toys, where [n] counts the walkable cells
    other than (1,1); the toys are on pairwise distinct cells, none of
    which is a wall or the cell (1,1), and none is collected. *)
Theorem init_places_toys (rand : nat → Q) (now : Z) (inp : nat → Z * Q) :
  (∀ i, is_draw (rand i)) → is_draw (inp 0%nat).2 →
  ∃ g, Game.init rand now inp = Some g
       ∧ length (Game.toys g) = Nat.min 10 (length walkable_besides_start)
       ∧ NoDup (toy_cell <$> Game.toys g)
       ∧ ∀ toy, toy ∈ Game.toys g →
           isWall (Toy.row toy) (Toy.col toy) = false
           ∧ toy_cell toy ≠ (1, 1)
           ∧ Toy.collected toy = false.
Proof.
  intros Hrand Hinp. unfold Game.init, Game.setup.
  destruct (shuffle_perm rand Game.emptyCells Hrand) as (cells & -> & Hperm).
  cbn [mbind option_bind]. unfold Game.loop. cbn [Game.running negb].
  rewrite update_result.
  cbn [Game.player Game.enemies Game.toys Game.score Game.timeLeft
       Game.running Game.endGameCalls updated_enemies].
  destruct (first_enemy_update now (inp 0%nat).1 (inp 0%nat).2 Hinp) as [e' ->].
  cbn [mbind option_bind]. eexists. split; [done|].
  cbn [Game.toys].
  assert (∀ rc, rc ∈ toy_cell <$> Game.make_toys cells → rc ∈ Game.emptyCells)
    as Hsub.
  { intros rc. rewrite make_toys_cells, <- Hperm. apply subseteq_take. }
  change (stepped (Player.new (1 * TILE_SIZE) (1 * TILE_SIZE)))
    with (Player.new 64 64).
  change (Player.y (Player.new 64 64) / TILE_SIZE) with 1.
  change (Player.x (Player.new 64 64) / TILE_SIZE) with 1.
  rewrite collect_hit_no_hit.
  2:{ apply no_hit_off_cell. intros Hin%Hsub%emptyCells_elem. by destruct Hin. }
  split_and!.
  - rewrite <- (length_fmap toy_cell), make_toys_cells, length_take.
    rewrite <- emptyCells_walkable, (Permutation_length Hperm). lia.
  - rewrite make_toys_cells. eapply sublist_NoDup; [|apply sublist_take].
    rewrite Hperm. apply emptyCells_NoDup.
  - intros toy Htoy.
    assert (toy_cell toy ∈ Game.emptyCells) as Hcell
      by (apply Hsub, list_elem_of_fmap; eauto).
    apply emptyCells_elem in Hcell as [Hfree Hne].
    split_and!; [done|done|]. by eapply make_toys_uncollected.
Qed.

Lemma init_places_toys_witness :
  ∃ g, Game.init (λ _, 1 # 2)%Q 0 (λ _, (0, (1 # 2)%Q)) = Some g
       ∧ length (Game.toys g) = Nat.min 10 (length walkable_besides_start).
Proof.
  destruct (init_places_toys (λ _, 1 # 2)%Q 0 (λ _, (0, (1 # 2)%Q))) 
    as (g & Hg & Hlen & _).
  - intros _. split; [apply (Qle_bool_imp_le 0 (1 # 2))|]; reflexivity.
  - split; [apply (Qle_bool_imp_le 0 (1 # 2))|]; reflexivity.
  - exists g. split; [exact Hg|exact Hlen].
Defined.


(** ** The score *)

Lemma update_toys_score inp g g' :
  Game.update inp g = Some g' →
  let p' := stepped (Game.player g) in
  let row := Player.y p' / TILE_SIZE in
  let col := Player.x p' / TILE_SIZE in
  Game.player g' = p'
  ∧ Game.toys g' = collect_hit row col <$> Game.toys g
  ∧ Game.score g' = Game.score g + count_hits row col (Game.toys g)
  ∧ Game.timeLeft g' = Game.timeLeft g.
Proof.
  rewrite update_result. intros Hup p' row col.
  destruct (Player.update (Game.player g)); [|done].
  destruct (updated_enemies inp 0 (Game.enemies g)) as [es'|]; [|done].
  by injection Hup as <-.
Qed.

(** The player of a frame that does not raise is the updated player. *)
Lemma update_player inp g g' :
  Game.update inp g = Some g' →
  Player.update (Game.player g) = Some (Game.player g').
Proof.
  intros Hup. pose proof (update_toys_score inp g g' Hup) as (Hp & _).
  unfold Game.update in Hup.
  destruct (Player.update (Game.player g)) as [q|] eqn:Hq; [|done].
  by rewrite Hp, <- (update_stepped _ _ Hq).
Qed.

Lemma count_collected_cons toy ts :
  count_collected (toy :: ts)
  = (if Toy.collected toy then 1 else 0) + count_collected ts.
Proof.
  unfold count_collected. rewrite filter_cons.
  destruct (Toy.collected toy); case_decide; try done; simpl; lia.
Qed.

Lemma count_collected_hits row col ts :
  count_collected (collect_hit row col <$> ts)
  = count_collected ts + count_hits row col ts.
Proof.
  induction ts as [|toy ts IH]; [done|].
  rewrite fmap_cons, !count_collected_cons, count_hits_cons, IH.
  rewrite collect_hit_collected.
  destruct (Game.hit row col toy) eqn:Hhit.
  - rewrite (hit_uncollected _ _ _ Hhit). simpl. lia.
  - rewrite orb_false_r. lia.
Qed.

Lemma newly_collected_hits row col ts :
  newly_collected ts (collect_hit row col <$> ts) = count_hits row col ts.
Proof.
  induction ts as [|toy ts IH]; [done|].
  rewrite fmap_cons, count_hits_cons, <- IH.
  unfold newly_collected. cbn [zip zip_with]. rewrite filter_cons.
  cbn [fst snd]. rewrite collect_hit_collected.
  destruct (Game.hit row col toy) eqn:Hhit.
  - rewrite (hit_uncollected _ _ _ Hhit). rewrite decide_True by done.
    simpl. lia.
  - rewrite orb_false_r, decide_False; [lia|].
    intros [H1 H2]. congruence.
Qed.

Lemma collect_hit_keeps row col ts :
  Forall2 (λ toy toy', toy_cell toy' = toy_cell toy
                       ∧ (Toy.collected toy = true → Toy.collected toy' = true))
          ts (collect_hit row col <$> ts).
Proof.
  induction ts as [|toy ts IH]; [constructor|].
  rewrite fmap_cons. constructor; [|done].
  unfold collect_hit. by destruct (Game.hit row col toy).
Qed.

Lemma make_toys_count cells : count_collected (Game.make_toys cells) = 0.
Proof.
  unfold count_collected.
  destruct (filter _ (Game.make_toys cells)) as [|toy l] eqn:Hf; [done|].
  assert (toy ∈ toy :: l) as Hin by left.
  rewrite <- Hf in Hin. apply list_elem_of_filter in Hin as [Hc Hin].
  apply make_toys_uncollected in Hin. congruence.
Qed.

Lemma update_score_ok inp g g' :
  Game.update inp g = Some g' → score_ok g → score_ok g'.
Proof.
  intros (_ & Hts & Hsc & _)%update_toys_score. unfold score_ok.
  rewrite Hts, Hsc, count_collected_hits. lia.
Qed.

Lemma loop_score_ok inp g g' :
  Game.loop inp g = Some g' → score_ok g → score_ok g'.
Proof.
  unfold Game.loop. destruct (negb _); [by intros [= <-]|].
  apply update_score_ok.
Qed.

Lemma tick_toys g :
  Game.toys (Game.tick g) = Game.toys g ∧ Game.score (Game.tick g) = Game.score g.
Proof.
  unfold Game.tick. destruct (negb _); [done|]. by destruct (_ <=? _).
Qed.

Lemma onkeydown_toys key g :
  Game.toys (Game.onkeydown key g) = Game.toys g
  ∧ Game.score (Game.onkeydown key g) = Game.score g.
Proof. unfold Game.onkeydown. by destruct (Game.dirs_get key). Qed.

Lemma reachable_score_ok g : session_reachable g → score_ok g.
Proof.
  induction 1 as [rand now inp g Hinit|inp g g' _ IH Hloop|g _ IH|key g _ IH].
  - unfold Game.init, Game.setup in Hinit.
    destruct (Game.shuffle rand Game.emptyCells) as [cells|]; [|done].
    apply (loop_score_ok _ _ _ Hinit). unfold score_ok. simpl.
    by rewrite make_toys_count.
  - by eapply loop_score_ok.
  - unfold score_ok. by destruct (tick_toys g) as [-> ->].
  - unfold score_ok. by destruct (onkeydown_toys key g) as [-> ->].
Qed.

(** C7. In every session reached from [init] by frames, timer ticks and
    key presses the score is the number of collected toys.  A frame adds to
    the score the number of toys it turns from not collected to collected,
    keeps every toy on its cell and keeps every collected toy collected;
    ticks and key presses change neither the toys nor the score. *)
Theorem score_counts_collected :
  (∀ g, session_reachable g → Game.score g = count_collected (Game.toys g))
  ∧ (∀ inp g g',
       Game.update inp g = Some g' →
       Game.score g' = Game.score g + newly_collected (Game.toys g) (Game.toys g')
       ∧ Forall2 (λ toy toy',
                    toy_cell toy' = toy_cell toy
                    ∧ (Toy.collected toy = true → Toy.collected toy' = true))
                 (Game.toys g) (Game.toys g'))
  ∧ (∀ g, Game.toys (Game.tick g) = Game.toys g
          ∧ Game.score (Game.tick g) = Game.score g)
  ∧ (∀ key g, Game.toys (Game.onkeydown key g) = Game.toys g
              ∧ Game.score (Game.onkeydown key g) = Game.score g).
Proof.
  split_and!.
  - exact reachable_score_ok.
  - intros inp g g' (_ & Hts & Hsc & _)%update_toys_score.
    rewrite Hts, Hsc, newly_collected_hits. split; [done|].
    apply collect_hit_keeps.
  - exact tick_toys.
  - exact onkeydown_toys.
Qed.

Lemma score_counts_collected_witness :
  (∃ g, Game.init (λ _, 1 # 2)%Q 0 (λ _, (0, (1 # 2)%Q)) = Some g
        ∧ Game.score g = count_collected (Game.toys g))
  ∧ ∃ g', Game.update (λ _, (0, (1 # 2)%Q))
            (Game.mk (Player.new 64 64) [] [Toy.new 1 1 "teddy"] 0 60 true [])
          = Some g'
          ∧ Game.score g' = 0 + 1.
Proof.
  split.
  - eexists. split; [vm_compute; reflexivity|].
    apply (proj1 score_counts_collected).
    eapply (session_init (λ _, 1 # 2)%Q 0 (λ _, (0, (1 # 2)%Q))).
    vm_compute. reflexivity.
  - eexists. split; [vm_compute; reflexivity|].
    apply (proj1 (proj2 score_counts_collected) (λ _, (0, (1 # 2)%Q))
             (Game.mk (Player.new 64 64) [] [Toy.new 1 1 "teddy"] 0 60 true [])).
    vm_compute. reflexivity.
Defined.


(** ** The end of a session *)

Lemma hit_iff row col toy :
  Game.hit row col toy = true
  ↔ Toy.collected toy = false ∧ Toy.row toy = row ∧ Toy.col toy = col.
Proof.
  unfold Game.hit. rewrite !andb_true_iff, negb_true_iff, !Z.eqb_eq. tauto.
Qed.

Lemma all_collected_after row col ts :
  forallb Toy.collected (collect_hit row col <$> ts) = true
  ↔ ∀ toy, toy ∈ ts → Toy.collected toy = false →
           Toy.row toy = row ∧ Toy.col toy = col.
Proof.
  rewrite forallb_forall. split.
  - intros H toy Hin Hc.
    specialize (H (collect_hit row col toy)).
    rewrite collect_hit_collected, Hc, orb_false_l in H.
    apply hit_iff, H, list_elem_of_In, list_elem_of_fmap. eauto.
  - intros H toy' (toy & -> & Hin)%list_elem_of_In%list_elem_of_fmap.
    rewrite collect_hit_collected.
    destruct (Toy.collected toy) eqn:Hc; [done|].
    apply hit_iff. split; [done|]. by apply H.
Qed.

Lemma won_iff row col ts :
  existsb (Game.hit row col) ts
  && forallb Toy.collected (collect_hit row col <$> ts) = true
  ↔ last_toy_taken row col ts.
Proof.
  rewrite andb_true_iff, all_collected_after, existsb_exists.
  unfold last_toy_taken. split.
  - intros [(toy & Hin%list_elem_of_In & Hhit%hit_iff) Hall].
    split; [|done]. exists toy. tauto.
  - intros [(toy & Hin & Hc) Hall]. split; [|done].
    exists toy. split; [by apply list_elem_of_In|].
    apply hit_iff. split; [done|]. by apply Hall.
Qed.

Lemma caught_iff p es : caught p es ↔ colliding p es ≠ [].
Proof.
  unfold colliding, caught. split.
  - intros (e & Hin & Hhit) Hnil.
    by apply (filter_nil_not_elem_of _ _ e Hnil).
  - destruct (filter _ es) as [|e l] eqn:Hf; [done|]. intros _.
    exists e. assert (e ∈ e :: l) as Hin by left.
    rewrite <- Hf in Hin. by apply list_elem_of_filter in Hin as [? ?].
Qed.

Lemma updated_enemies_succeed inp i es :
  (∀ k e, es !! k = Some e →
          is_Some (Enemy.update (inp (i + k)%nat).1 (inp (i + k)%nat).2 e)) →
  is_Some (updated_enemies inp i es).
Proof.
  revert i. induction es as [|e es IH]; intros i Hes; [done|].
  cbn [updated_enemies].
  destruct (Hes 0%nat e eq_refl) as [e' He']. rewrite Nat.add_0_r in He'.
  rewrite He'. cbn [mbind option_bind].
  destruct (IH (S i)) as [es' ->]; [|done].
  intros k e0 Hk. replace (S i + k)%nat with (i + S k)%nat by lia.
  by apply Hes.
Qed.

Lemma shuffle_from_Some_perm {A} (rand : nat → Q) (i : nat) (a a' : list A) :
  Game.shuffle_from rand i a = Some a' → a' ≡ₚ a.
Proof.
  revert a. induction i as [|i IH]; intros a; [by intros [= <-]|].
  cbn [Game.shuffle_from].
  destruct (Game.swap a (S i) _) as [a1|] eqn:Hswap; [|done].
  cbn [mbind option_bind]. intros Ha'%IH. rewrite Ha'.
  unfold Game.swap in Hswap.
  destruct (a !! S i) as [ai|] eqn:Hai; [|done].
  destruct (js_index a _) as [aj|] eqn:Haj; [|done].
  destruct (swap_perm a (S i) (rand_index (rand (S i)) (S i + 1)))
    as (a2 & Ha2 & Hperm).
  - by eapply lookup_lt_Some.
  - apply js_index_Some in Haj as [? Haj]. apply lookup_lt_Some in Haj. lia.
  - unfold Game.swap in Ha2. rewrite Hai, Haj in Ha2. congruence.
Qed.

Lemma setup_toy_left rand now g : Game.setup rand now = Some g → toy_left g.
Proof.
  unfold Game.setup.
  destruct (Game.shuffle rand Game.emptyCells) as [cells|] eqn:Hsh; [|done].
  intros [= <-] _. cbn [Game.toys].
  apply shuffle_from_Some_perm, Permutation_length in Hsh.
  destruct (Game.make_toys cells) as [|toy ts] eqn:Hts.
  - apply (f_equal length) in Hts.
    rewrite <- (length_fmap toy_cell), make_toys_cells, length_take, Hsh in Hts.
    vm_compute in Hts. done.
  - exists toy. split; [left|].
    apply (make_toys_uncollected cells). rewrite Hts. left.
Qed.

Lemma forallb_false_elem {A} (f : A → bool) (l : list A) :
  forallb f l = false → ∃ a, a ∈ l ∧ f a = false.
Proof.
  induction l as [|a l IH]; [done|]. cbn [forallb].
  destruct (f a) eqn:Hfa.
  - intros (a' & Hin & Ha')%IH. exists a'. split; [by right|done].
  - intros _. exists a. split; [left|done].
Qed.

Lemma update_toy_left inp g g' :
  Game.update inp g = Some g' → toy_left g → toy_left g'.
Proof.
  rewrite update_result. cbv zeta.
  destruct (Player.update (Game.player g)) as [q|] eqn:Hq; [|done].
  cbn [mbind option_bind].
  destruct (updated_enemies inp 0 (Game.enemies g)) as [es'|]; [|done].
  cbn [mbind option_bind]. intros [= <-] Hleft. unfold toy_left.
  cbn [Game.running Game.toys].
  destruct (bool_decide _); [|done].
  destruct (existsb _ _) eqn:Hex; cbn [andb].
  - destruct (forallb _ _) eqn:Hall; [done|]. intros _.
    by apply forallb_false_elem in Hall.
  - intros Hrun. rewrite collect_hit_no_hit by done. by apply Hleft.
Qed.

Lemma loop_toy_left inp g g' :
  Game.loop inp g = Some g' → toy_left g → toy_left g'.
Proof.
  unfold Game.loop. destruct (negb _); [by intros [= <-]|].
  apply update_toy_left.
Qed.

Lemma reachable_toy_left g : session_reachable g → toy_left g.
Proof.
  induction 1 as [rand now inp g Hinit|inp g g' _ IH Hloop|g _ IH|key g _ IH].
  - unfold Game.init in Hinit.
    destruct (Game.setup rand now) as [g0|] eqn:Hsetup; [|done].
    eapply loop_toy_left; [done|]. by eapply setup_toy_left.
  - by eapply loop_toy_left.
  - unfold toy_left. destruct (tick_toys g) as [-> _].
    intros Hrun. apply IH. unfold Game.tick in Hrun.
    destruct (Game.running g) eqn:E; [done|]. simpl in Hrun. congruence.
  - unfold toy_left. destruct (onkeydown_toys key g) as [-> _].
    intros Hrun. apply IH. unfold Game.onkeydown in Hrun.
    by destruct (Game.dirs_get key).
Qed.

Lemma loop_time_left inp g g' :
  Game.loop inp g = Some g' → time_left g → time_left g'.
Proof.
  unfold Game.loop. destruct (Game.running g) eqn:Hrun; cbn [negb].
  - intros Hup Hleft _. apply update_toys_score in Hup as (_ & _ & _ & ->).
    by apply Hleft.
  - by intros [= <-].
Qed.

Lemma tick_time_left g : time_left g → time_left (Game.tick g).
Proof.
  unfold time_left, Game.tick. destruct (Game.running g) eqn:Hrun; cbn [negb].
  - intros _. cbn [Game.timeLeft Game.set_timeLeft].
    destruct (Z.leb_spec (Game.timeLeft g - 1) 0); [done|].
    cbn [Game.timeLeft Game.set_timeLeft]. lia.
  - by rewrite Hrun.
Qed.

Lemma reachable_time_left g : session_reachable g → time_left g.
Proof.
  induction 1 as [rand now inp g Hinit|inp g g' _ IH Hloop|g _ IH|key g _ IH].
  - unfold Game.init, Game.setup in Hinit.
    destruct (Game.shuffle rand Game.emptyCells) as [cells|]; [|done].
    apply (loop_time_left _ _ _ Hinit). by intros _.
  - by eapply loop_time_left.
  - by apply tick_time_left.
  - unfold time_left, Game.onkeydown in *. by destruct (Game.dirs_get key).
Qed.

(** C3. A frame of a running session moves the player, then the
    enemies, and ends the session exactly on the two events of [update]:
    [endGame (true)] is called, first, when the toys still to collect, at
    least one, all lie on the player's cell; [endGame (false)] is then
    called once for every enemy whose box, after its update, meets the
    player's; and the session stops running when one of the two happens
    and only then.  The frame raises only if the player's update or an
    enemy's does.  A tick of the timer that brings the countdown to zero
    calls [endGame (false)]; other ticks only count down.  A running
    session reached from [init] has a toy still to collect and time left,
    so the timer ends it with toys left and a frame never runs at zero.
    Every [endGame] call clears the running flag. *)
Theorem session_ends_on_events :
  (∀ inp g g',
     Game.running g = true → Game.update inp g = Some g' →
     let p' := Game.player g' in
     let es' := Game.enemies g' in
     let row := Player.y p' / TILE_SIZE in
     let col := Player.x p' / TILE_SIZE in
     Player.update (Game.player g) = Some p'
     ∧ updated_enemies inp 0 (Game.enemies g) = Some es'
     ∧ ∃ calls,
         Game.endGameCalls g' = calls ++ Game.endGameCalls g
         ∧ (last_toy_taken row col (Game.toys g)
            ∧ calls = replicate (length (colliding p' es')) false ++ [true]
            ∨ ¬ last_toy_taken row col (Game.toys g)
              ∧ calls = replicate (length (colliding p' es')) false)
         ∧ (true ∈ calls ↔ last_toy_taken row col (Game.toys g))
         ∧ (false ∈ calls ↔ caught p' es')
         ∧ (Game.running g' = false
            ↔ last_toy_taken row col (Game.toys g) ∨ caught p' es'))
  ∧ (∀ inp g,
       is_Some (Player.update (Game.player g)) →
       (∀ i e, Game.enemies g !! i = Some e →
               is_Some (Enemy.update (inp i).1 (inp i).2 e)) →
       is_Some (Game.update inp g))
  ∧ (∀ g,
       Game.running g = true →
       (Game.timeLeft g - 1 ≤ 0 →
        Game.tick g
        = Game.endGame false (Game.set_timeLeft g (Game.timeLeft g - 1)))
       ∧ (0 < Game.timeLeft g - 1 →
          Game.tick g = Game.set_timeLeft g (Game.timeLeft g - 1)))
  ∧ (∀ g, session_reachable g → Game.running g = true →
          (∃ toy, toy ∈ Game.toys g ∧ Toy.collected toy = false)
          ∧ 0 < Game.timeLeft g)
  ∧ (∀ win g,
       Game.running (Game.endGame win g) = false
       ∧ Game.endGameCalls (Game.endGame win g) = win :: Game.endGameCalls g).
Proof.
  split_and!.
  - intros inp g g' Hrun Hup. pose proof (update_player _ _ _ Hup) as Hp.
    rewrite update_result in Hup. cbv zeta in Hup.
    destruct (Player.update (Game.player g)) as [q|] eqn:Hq; [|done].
    cbn [mbind option_bind] in Hup.
    destruct (updated_enemies inp 0 (Game.enemies g)) as [es'|]; [|done].
    cbn [mbind option_bind] in Hup. injection Hup as <-.
    cbn [Game.player Game.enemies Game.running Game.endGameCalls] in *.
    split; [done|]. split; [done|].
    set (p' := stepped (Game.player g)).
    set (row := Player.y p' / TILE_SIZE). set (col := Player.x p' / TILE_SIZE).
    pose proof (won_iff row col (Game.toys g)) as Hwon.
    pose proof (caught_iff p' es') as Hc.
    assert (false ∈ replicate (length (colliding p' es')) false
            ↔ caught p' es') as Hrep.
    { rewrite elem_of_replicate, Hc, <- length_zero_iff_nil. tauto. }
    destruct (existsb _ _ && forallb _ _).
    + exists (replicate (length (colliding p' es')) false ++ [true]).
      rewrite <- app_assoc. split; [done|].
      assert (last_toy_taken row col (Game.toys g)) as Hlast by by apply Hwon.
      rewrite !elem_of_app, Hrep, !list_elem_of_singleton.
      split_and!; [by left|tauto|split; [intros [?|?]; done|tauto]|].
      split; [tauto|]. intros _. by destruct (bool_decide _).
    + exists (replicate (length (colliding p' es')) false).
      rewrite Hrun. split; [done|].
      assert (¬ last_toy_taken row col (Game.toys g)) as Hlast
        by (intros ?%Hwon; done).
      split_and!.
      * by right.
      * rewrite elem_of_replicate. split; [intros [? _]; done|done].
      * done.
      * rewrite Hc. case_bool_decide as Hd; split; try done; try tauto.
  - intros inp g [q Hq] Hes. rewrite update_result. cbv zeta. rewrite Hq.
    cbn [mbind option_bind].
    destruct (updated_enemies_succeed inp 0 (Game.enemies g)) as [es' ->]; done.
  - intros g Hrun. unfold Game.tick. rewrite Hrun.
    cbn [negb Game.timeLeft Game.set_timeLeft].
    split; intros H.
    + by rewrite (proj2 (Z.leb_le _ _) H).
    + by rewrite (proj2 (Z.leb_gt _ _) H).
  - intros g Hg Hrun. split.
    + by apply reachable_toy_left.
    + by apply reachable_time_left.
  - done.
Qed.

(** The frame in which the player, on cell (1,1), takes the last toy while
    a waiting enemy stands half a tile below it: [endGame (true)], then
    [endGame (false)]. *)
Lemma session_ends_on_events_witness :
  match Game.update (λ _, (0, (1 # 2)%Q))
          (Game.mk (Player.new 64 64) [Enemy.new 64 96 0]
                   [Toy.new 1 1 "teddy"] 0 60 true []) with
  | Some g' =>
      Game.endGameCalls g' = [false; true]
      ∧ Game.running g' = false
      ∧ last_toy_taken 1 1 [Toy.new 1 1 "teddy"]
      ∧ caught (Game.player g') (Game.enemies g')
  | None => False
  end.
Proof.
  destruct (Game.update (λ _, (0, (1 # 2)%Q))
              (Game.mk (Player.new 64 64) [Enemy.new 64 96 0]
                       [Toy.new 1 1 "teddy"] 0 60 true [])) as [g'|] eqn:Hup;
    [|vm_compute in Hup; discriminate].
  destruct (proj1 session_ends_on_events (λ _, (0, (1 # 2)%Q))
              (Game.mk (Player.new 64 64) [Enemy.new 64 96 0]
                       [Toy.new 1 1 "teddy"] 0 60 true [])
              g' eq_refl Hup)
    as (Hp & Hes & calls & Hcalls & Hform & Htrue & Hfalse & Hrun).
  assert (Some g'
          = Some (Game.mk (Player.new 64 64) [Enemy.new 64 96 0]
                          [Toy.collect (Toy.new 1 1 "teddy")] 1 60 false
                          [false; true])) as Hg'
    by (rewrite <- Hup; reflexivity).
  injection Hg' as ->.
  cbn [Game.endGameCalls Game.player Game.enemies Game.running] in *.
  rewrite app_nil_r in Hcalls. subst calls.
  split_and!; [reflexivity|reflexivity| |].
  - apply Htrue. right. left.
  - apply Hfalse. left.
Defined.

(** * Further properties of the player *)

(** The step of an update on each axis. *)
Lemma update_position p :
  Player.x (stepped p)
  = Player.x p + dx (Player.direction (stepped p)) * Player.speed p
  ∧ Player.y (stepped p)
    = Player.y p + dy (Player.direction (stepped p)) * Player.speed p.
Proof.
  destruct (player_update_fields p) as (Hx & Hy & Hd). cbv zeta in Hx, Hy, Hd.
  destruct (tryChangeDirection_position p) as (Hx0 & Hy0 & Hsp0 & _).
  rewrite Hx, Hy, Hd. cbn [dx dy].
  unfold player_newX, player_newY. rewrite Hx0, Hy0, Hsp0.
  split.
  - destruct (player_blocked_x _); lia.
  - destruct (player_blocked_y _); lia.
Qed.

(** X1. What an update does to the player, for every state in which it
    does not raise: it moves the player by its speed along the direction
    the update leaves, which is zero on an axis that was blocked, and it
    keeps what is queued, the speed and the size. *)
Theorem update_moves_along_direction (p p' : Player.t) :
  Player.update p = Some p' →
  Player.x p' = Player.x p + dx (Player.direction p') * Player.speed p
  ∧ Player.y p' = Player.y p + dy (Player.direction p') * Player.speed p
  ∧ Player.nextDirection p' = Player.nextDirection p
  ∧ Player.speed p' = Player.speed p
  ∧ Player.size p' = Player.size p.
Proof.
  intros ->%update_stepped.
  destruct (update_position p) as [Hx Hy].
  destruct (player_move_fields (turned p))
    as (_ & _ & _ & Hnd & Hsp & Hsz).
  change (Player.nextDirection (stepped p)
          = Player.nextDirection (turned p)) in Hnd.
  change (Player.speed (stepped p)
          = Player.speed (turned p)) in Hsp.
  change (Player.size (stepped p)
          = Player.size (turned p)) in Hsz.
  destruct (tryChangeDirection_position p) as (_ & _ & Hsp0 & Hsz0).
  assert (Player.nextDirection (turned p)
          = Player.nextDirection p) as Hnd0
    by by destruct (tryChangeDirection_cases p) as [-> | (d & _ & ->)].
  rewrite Hnd, Hsp, Hsz, Hnd0, Hsp0, Hsz0. by split_and!.
Qed.

Lemma update_moves_along_direction_witness :
  Player.x (Player.mk 64 700 3 (mkDir 0 1) (Player.Vec (mkDir 0 1)) 64)
  = 64 + dx (mkDir 0 1) * 3
  ∧ Player.y (Player.mk 64 700 3 (mkDir 0 1) (Player.Vec (mkDir 0 1)) 64)
    = 697 + dy (mkDir 0 1) * 3.
Proof.
  destruct (update_moves_along_direction
              (Player.mk 64 697 3 (mkDir 0 1) (Player.Vec (mkDir 0 1)) 64)
              (Player.mk 64 700 3 (mkDir 0 1) (Player.Vec (mkDir 0 1)) 64)
              eq_refl) as (Hx & Hy & _).
  split; [exact Hx|exact Hy].
Defined.

Lemma update_at_rest p :
  Player.direction p = zero_dir →
  aligned (Player.x p) && aligned (Player.y p) = false →
  stepped p = p.
Proof.
  intros Hd Hal. unfold stepped.
  rewrite (tryChangeDirection_off_grid p Hal).
  unfold Player.move, Player.collide_x, Player.collide_y. rewrite Hd. simpl.
  destruct p as [x y s d nd sz]. simpl in *. subst d.
  unfold Player.set_y, Player.set_x. simpl. f_equal; lia.
Qed.

(** X2. A player that stands without a direction at a position that is not
    tile-aligned never moves again: whatever is queued and however many
    updates run, its position stays and its direction stays zero. *)
Theorem player_stuck_off_grid (p0 p : Player.t) :
  Player.direction p0 = zero_dir →
  aligned (Player.x p0) && aligned (Player.y p0) = false →
  player_from p0 p →
  Player.x p = Player.x p0 ∧ Player.y p = Player.y p0
  ∧ Player.direction p = zero_dir.
Proof.
  intros Hd Hal. induction 1 as [|p v _ IH|p p' _ IH Hup]; [done|done|].
  destruct IH as (Hx & Hy & Hdp).
  rewrite (update_stepped _ _ Hup).
  rewrite update_at_rest; [done..|]. by rewrite Hx, Hy.
Qed.

Lemma player_stuck_off_grid_witness :
  match Player.update
          (Player.set_nextDirection
             (Player.mk 64 703 3 zero_dir (Player.Vec (mkDir 0 1)) 64)
             (Player.Vec (mkDir 0 (-1)))) with
  | Some p => Player.y p = 703
  | None => False
  end.
Proof.
  destruct (Player.update
              (Player.set_nextDirection
                 (Player.mk 64 703 3 zero_dir (Player.Vec (mkDir 0 1)) 64)
                 (Player.Vec (mkDir 0 (-1))))) as [p|] eqn:Hup;
    [|vm_compute in Hup; discriminate].
  apply (player_stuck_off_grid
           (Player.mk 64 703 3 zero_dir (Player.Vec (mkDir 0 1)) 64) p).
  - reflexivity.
  - reflexivity.
  - eapply from_update; [|exact Hup]. apply from_key, from_here.
Defined.

Lemma reachable_speed p : player_reachable p → Player.speed p = 3.
Proof. by intros (? & _)%reachable_safe. Qed.

Lemma reachable_lattice p :
  player_reachable p →
  (Player.x p - TILE_SIZE) mod 3 = 0 ∧ (Player.y p - TILE_SIZE) mod 3 = 0.
Proof.
  induction 1 as [|p v _ IH Hv|p p' Hp IH Hup]; [done|done|].
  rewrite (update_stepped _ _ Hup).
  destruct (update_position p) as [Hx Hy].
  rewrite Hx, Hy, (reachable_speed p Hp).
  destruct IH as [IHx IHy]. unfold TILE_SIZE in *.
  split; Z.div_mod_to_equations; lia.
Qed.

(** X3. The player's coordinates are always 64 plus a multiple of its
    speed 3, so the positions where it is tile-aligned, the only ones where
    [tryChangeDirection] lets it turn, are those of the cells whose row and
    column leave remainder 1 modulo 3 (rows 1, 4, 7, 10; columns 1, 4, 7,
    10, 13). *)
Theorem player_turns_every_third_tile (p : Player.t) :
  player_reachable p →
  (Player.x p - 64) mod 3 = 0 ∧ (Player.y p - 64) mod 3 = 0
  ∧ (aligned (Player.x p) = true → (Player.x p / TILE_SIZE) mod 3 = 1)
  ∧ (aligned (Player.y p) = true → (Player.y p / TILE_SIZE) mod 3 = 1).
Proof.
  intros [Hx Hy]%reachable_lattice. unfold aligned, TILE_SIZE in *.
  split_and!; [done|done|intros Hal%Z.eqb_eq..];
    Z.to_euclidean_division_equations; lia.
Qed.

Lemma player_turns_every_third_tile_witness :
  (Player.x (Player.mk 67 64 3 (mkDir 1 0) (Player.Vec (mkDir 1 0)) 64)
   - 64) mod 3 = 0.
Proof.
  apply player_turns_every_third_tile.
  apply (player_update
           (Player.set_nextDirection
              (Player.new (1 * TILE_SIZE) (1 * TILE_SIZE))
              (Player.Vec (mkDir 1 0)))); [|reflexivity].
  apply player_key; [apply player_start|].
  exists "ArrowRight"%string. reflexivity.
Defined.

Lemma walkable_inner row col :
  isWall row col = false → 1 ≤ row ≤ ROWS - 2 ∧ 1 ≤ col ≤ COLS - 2.
Proof.
  intros Hfree. destruct (isWall_false_inside _ _ Hfree) as [Hrow Hcol].
  assert (inner_or_wall row col = true) as H
    by (clear Hfree; revert row col Hrow Hcol; apply maze_cells_ind;
        vm_compute; reflexivity).
  unfold inner_or_wall in H. rewrite Hfree in H. simpl in H. lia.
Qed.

(** X4. The border of the maze is all wall, so the player never leaves the
    inside of the canvas: in every state it reaches its corner is between
    (64, 64) and (832, 704), the corners of the cells (1,1) and (11,13). *)
Theorem player_stays_inside (p : Player.t) :
  player_reachable p →
  64 ≤ Player.x p ≤ 832 ∧ 64 ≤ Player.y p ≤ 704.
Proof.
  intros (_ & _ & _ & _ & H1 & _ & _ & H4)%reachable_safe.
  apply walkable_inner in H1, H4. unfold TILE_SIZE, ROWS, COLS in *.
  Z.div_mod_to_equations. lia.
Qed.

Lemma player_stays_inside_witness :
  64 ≤ Player.x (Player.mk 64 67 3 (mkDir 0 1) (Player.Vec (mkDir 0 1)) 64)
    ≤ 832
  ∧ 64 ≤ Player.y (Player.mk 64 67 3 (mkDir 0 1) (Player.Vec (mkDir 0 1)) 64)
      ≤ 704.
Proof.
  apply player_stays_inside.
  apply (player_update
           (Player.set_nextDirection
              (Player.new (1 * TILE_SIZE) (1 * TILE_SIZE))
              (Player.Vec (mkDir 0 1)))); [|reflexivity].
  apply player_key; [apply player_start|].
  exists "ArrowDown"%string. reflexivity.
Defined.

(** * Overlap of the player and a pursuer *)

Lemma Qltb_lt (a b : Q) : Qltb a b = true ↔ (a < b)%Q.
Proof. unfold Qltb, Qlt. apply Z.ltb_lt. Qed.

(** X5. For a player and a pursuer of side 64 in the canvas,
    [checkCollision] answers true only when the two corners are less than
    64 pixels apart on both axes, so that boxes that only touch, as those
    of two neighbouring tile-aligned cells, do not collide; and it answers
    true whenever they are, on both axes, at most [64 - 2^-40] apart,
    whichever of the two is to the left or above. *)
Theorem checkCollision_distance (a : Player.t) (b : Enemy.t) :
  Player.size a = 64 → Enemy.size b = 64 →
  0 ≤ Player.x a ≤ 1024 → 0 ≤ Player.y a ≤ 1024 →
  in_canvas (Enemy.x b) → in_canvas (Enemy.y b) →
  (Game.checkCollision a b = true →
   (Qabs (Enemy.x b - inject_Z (Player.x a)) < 64)%Q
   ∧ (Qabs (Enemy.y b - inject_Z (Player.y a)) < 64)%Q)
  ∧ ((Qabs (Enemy.x b - inject_Z (Player.x a)) <= 64 - coordinate_margin)%Q
     ∧ (Qabs (Enemy.y b - inject_Z (Player.y a)) <= 64 - coordinate_margin)%Q →
     Game.checkCollision a b = true).
Proof.
  intros Ha Hb _ _ _ _. unfold Game.checkCollision, coordinate_margin.
  rewrite Ha, Hb.
  rewrite !andb_true_iff, !Qltb_lt, !inject_Z_plus, !Qabs_Qlt_condition,
    !Qabs_Qle_condition.
  change (inject_Z 64) with 64%Q. split; intros; split_and!; lra.
Qed.

(** A pursuer one pixel short of the next cell overlaps the player; one
    in the next cell does not. *)
Lemma checkCollision_distance_witness :
  Game.checkCollision (Player.new 64 64) (Enemy.new 64 127 0) = true
  ∧ ¬ (Game.checkCollision (Player.new 64 64) (Enemy.new 64 128 0) = true).
Proof.
  assert (∀ v, 0 ≤ v ≤ 1024 → in_canvas (inject_Z v)) as Hin.
  { intros v Hv. split; unfold Qle; simpl; lia. }
  split.
  - apply (checkCollision_distance (Player.new 64 64) (Enemy.new 64 127 0));
      [reflexivity|reflexivity|simpl; lia|simpl; lia
      |apply Hin; lia|apply Hin; lia|].
    split; apply (Qle_bool_imp_le _ _); reflexivity.
  - intros Hc.
    apply (checkCollision_distance (Player.new 64 64) (Enemy.new 64 128 0))
      in Hc as [_ Hy];
      [|reflexivity|reflexivity|simpl; lia|simpl; lia
       |apply Hin; lia|apply Hin; lia].
    revert Hy. apply Qle_not_lt. apply (Qle_bool_imp_le _ _). reflexivity.
Defined.

(** * The pursuer stays off the walls *)

Lemma tile_of_le (a b : Q) : (a <= b)%Q → tile_of a ≤ tile_of b.
Proof.
  intros Hab. unfold tile_of. apply Qfloor_resp_le.
  apply Qmult_le_compat_r; [done|]. by apply Qinv_le_0_compat.
Qed.

Lemma tile_of_comp (a b : Q) : a == b → tile_of a = tile_of b.
Proof. intros Hab. unfold tile_of. apply Qfloor_comp. by rewrite Hab. Qed.

Lemma tile_of_next (a : Q) : tile_of (a + 64) = tile_of a + 1.
Proof.
  unfold tile_of. apply Qfloor_eq_iff. rewrite !inject_Z_plus.
  pose proof (Qfloor_le (a / inject_Z TILE_SIZE)) as Hlo.
  pose proof (Qlt_floor (a / inject_Z TILE_SIZE)) as Hhi.
  rewrite inject_Z_plus in Hhi.
  assert ((a + 64) / inject_Z TILE_SIZE == a / inject_Z TILE_SIZE + 1) as ->
    by (unfold TILE_SIZE; field).
  change (inject_Z 1) with 1%Q in *. lra.
Qed.

(** A coordinate from [a] to 63 further lies in the tile of [a] or in the
    tile of the far edge of the box at [a]. *)
Lemma tile_of_span (a v : Q) :
  (a <= v)%Q → (v <= a + 63)%Q →
  tile_of v = tile_of a ∨ tile_of v = tile_of (a + inject_Z TILE_SIZE - 1).
Proof.
  intros Hlo Hhi.
  pose proof (tile_of_le a v Hlo).
  assert (tile_of v ≤ tile_of (a + inject_Z TILE_SIZE - 1)).
  { apply tile_of_le. unfold TILE_SIZE. change (inject_Z 64) with 64%Q. lra. }
  assert (tile_of (a + inject_Z TILE_SIZE - 1) ≤ tile_of a + 1).
  { rewrite <- tile_of_next. apply tile_of_le.
    unfold TILE_SIZE. change (inject_Z 64) with 64%Q. lra. }
  lia.
Qed.

Lemma enemy_box_free_comp x y x' y' :
  x' == x → y' == y → enemy_box_free x y → enemy_box_free x' y'.
Proof.
  intros Hx Hy. unfold enemy_box_free.
  rewrite (tile_of_comp x' x Hx), (tile_of_comp y' y Hy).
  rewrite (tile_of_comp (x' + _ - 1) (x + inject_Z TILE_SIZE - 1))
    by (by rewrite Hx).
  by rewrite (tile_of_comp (y' + _ - 1) (y + inject_Z TILE_SIZE - 1))
    by (by rewrite Hy).
Qed.

(** Moving the box along a row by [s], up to 63 either way, when the two
    tiles of the leading edge tested free. *)
Lemma enemy_slide_x x y x' :
  enemy_box_free x y →
  (x <= x' ∧ x' <= x + 63
   ∧ isWall (tile_of y) (tile_of (x' + inject_Z TILE_SIZE - 1)) = false
   ∧ isWall (tile_of (y + inject_Z TILE_SIZE - 1))
            (tile_of (x' + inject_Z TILE_SIZE - 1)) = false)%Q
  ∨ (x - 63 <= x' ∧ x' <= x
     ∧ isWall (tile_of y) (tile_of x') = false
     ∧ isWall (tile_of (y + inject_Z TILE_SIZE - 1)) (tile_of x') = false)%Q →
  enemy_box_free x' y.
Proof.
  intros (H1 & H2 & H3 & H4) [(Hlo & Hhi & Ht & Hb)|(Hlo & Hhi & Ht & Hb)];
    unfold enemy_box_free.
  - destruct (tile_of_span x x' Hlo Hhi) as [-> | ->]; by split_and!.
  - destruct (tile_of_span x (x' + inject_Z TILE_SIZE - 1)) as [-> | ->];
      try (unfold TILE_SIZE; change (inject_Z 64) with 64%Q; lra);
      by split_and!.
Qed.

Lemma enemy_slide_y x y y' :
  enemy_box_free x y →
  (y <= y' ∧ y' <= y + 63
   ∧ isWall (tile_of (y' + inject_Z TILE_SIZE - 1)) (tile_of x) = false
   ∧ isWall (tile_of (y' + inject_Z TILE_SIZE - 1))
            (tile_of (x + inject_Z TILE_SIZE - 1)) = false)%Q
  ∨ (y - 63 <= y' ∧ y' <= y
     ∧ isWall (tile_of y') (tile_of x) = false
     ∧ isWall (tile_of y') (tile_of (x + inject_Z TILE_SIZE - 1)) = false)%Q →
  enemy_box_free x y'.
Proof.
  intros (H1 & H2 & H3 & H4) [(Hlo & Hhi & Ht & Hb)|(Hlo & Hhi & Ht & Hb)];
    unfold enemy_box_free.
  - destruct (tile_of_span y y' Hlo Hhi) as [-> | ->]; by split_and!.
  - destruct (tile_of_span y (y' + inject_Z TILE_SIZE - 1)) as [-> | ->];
      try (unfold TILE_SIZE; change (inject_Z 64) with 64%Q; lra);
      by split_and!.
Qed.

Lemma enemy_move_safe e : enemy_safe e → enemy_safe (Enemy.move e).
Proof.
  destruct e as [x y s d sz sd st]. unfold enemy_safe. simpl.
  intros (-> & Hs0 & Hs63 & Hd & Hbox).
  assert (∀ q : Q, q + inject_Z 0 * s == q) as Hstill
    by (intros q; change (inject_Z 0) with 0%Q; ring).
  destruct (unit_dir_cases d Hd) as [->|[->|[->|[->| ->]]]];
    unfold Enemy.move, Enemy.collide_x, Enemy.collide_y; simpl.
  - split_and!; try done. eapply enemy_box_free_comp; [..|exact Hbox];
      first [apply Hstill|reflexivity].
  - destruct (Enemy.blocked_x _ _) eqn:Hblk; simpl.
    + split_and!; try done. eapply enemy_box_free_comp; [..|exact Hbox];
      first [apply Hstill|reflexivity].
    + split_and!; try done. apply orb_false_iff in Hblk as [Ht Hb].
      eapply (enemy_box_free_comp _ y); [done|apply Hstill|].
      apply (enemy_slide_x x); [done|]. left. simpl in Ht, Hb.
      change (inject_Z 1) with 1%Q. split_and!; [lra|lra|done|done].
  - destruct (Enemy.blocked_x _ _) eqn:Hblk; simpl.
    + split_and!; try done. eapply enemy_box_free_comp; [..|exact Hbox];
      first [apply Hstill|reflexivity].
    + split_and!; try done. apply orb_false_iff in Hblk as [Ht Hb].
      eapply (enemy_box_free_comp _ y); [done|apply Hstill|].
      apply (enemy_slide_x x); [done|]. right. simpl in Ht, Hb.
      change (inject_Z (-1)) with (-1)%Q. split_and!; [lra|lra|done|done].
  - destruct (Enemy.blocked_y _ _) eqn:Hblk; simpl.
    + split_and!; try done. eapply enemy_box_free_comp; [..|exact Hbox];
      first [apply Hstill|reflexivity].
    + split_and!; try done. apply orb_false_iff in Hblk as [Hl Hr].
      eapply (enemy_box_free_comp x); [apply Hstill|done|].
      apply (enemy_slide_y x y); [done|]. left. simpl in Hl, Hr.
      change (inject_Z 1) with 1%Q. split_and!; [lra|lra|done|done].
  - destruct (Enemy.blocked_y _ _) eqn:Hblk; simpl.
    + split_and!; try done. eapply enemy_box_free_comp; [..|exact Hbox];
      first [apply Hstill|reflexivity].
    + split_and!; try done. apply orb_false_iff in Hblk as [Hl Hr].
      eapply (enemy_box_free_comp x); [apply Hstill|done|].
      apply (enemy_slide_y x y); [done|]. right. simpl in Hl, Hr.
      change (inject_Z (-1)) with (-1)%Q. split_and!; [lra|lra|done|done].
Qed.

Lemma dirs4_unit d : d ∈ dirs4 → unit_dir d.
Proof.
  unfold dirs4. rewrite !elem_of_cons, elem_of_nil.
  intros [->|[->|[->|[->|[]]]]]; unfold unit_dir; simpl; lia.
Qed.

Lemma chooseDirection_safe r e e0 :
  Enemy.chooseDirection r e = Some e0 → enemy_safe e → enemy_safe e0.
Proof.
  unfold Enemy.chooseDirection. destruct (negb _); [by intros [= <-]|].
  destruct (js_index _ _) as [[d b]|] eqn:Hidx; [|done].
  intros [= <-] (? & ? & ? & _ & ?). split_and!; try done. simpl.
  apply js_index_Some in Hidx as [_ Hidx].
  apply list_elem_of_lookup_2, candidates_subset, possible_elem in Hidx.
  apply dirs4_unit. tauto.
Qed.

Lemma chooseDirection_safe_succeeds r e :
  enemy_safe e → is_draw r → is_Some (Enemy.chooseDirection r e).
Proof.
  intros (_ & _ & _ & _ & Hfree & _) Hr.
  destruct (walkable_has_exit _ _ Hfree) as (d & Hd & Hopen).
  apply chooseDirection_succeeds; [done|].
  apply (possible_nonempty e d Hd). unfold Enemy.is_open. by rewrite Hopen.
Qed.

Lemma enemy_update_safe now r e e' :
  Enemy.update now r e = Some e' → enemy_safe e → enemy_safe e'.
Proof.
  unfold Enemy.update. destruct (_ <? _); [by intros [= <-]|].
  destruct (Enemy.chooseDirection r e) as [e0|] eqn:Hch; [|done].
  intros [= <-] He. by eapply enemy_move_safe, chooseDirection_safe.
Qed.

Lemma enemy_update_succeeds now r e :
  enemy_safe e → is_draw r → is_Some (Enemy.update now r e).
Proof.
  intros He Hr. unfold Enemy.update. destruct (_ <? _); [done|].
  apply fmap_is_Some. by apply chooseDirection_safe_succeeds.
Qed.

(** X6. A pursuer of size 64 and speed at most 63 whose direction is zero
    or a unit step along one axis and whose corner tiles are not walls keeps all
    that through [Enemy.update], and with a draw of [Math.random] its
    update does not fail: on the grid it always finds a candidate
    direction. *)
Theorem pursuer_update_safe (now : Z) (r : Q) (e : Enemy.t) :
  enemy_safe e → is_draw r →
  ∃ e', Enemy.update now r e = Some e' ∧ enemy_safe e'.
Proof.
  intros He Hr.
  destruct (enemy_update_succeeds now r e He Hr) as [e' He'].
  exists e'. split; [done|]. by eapply enemy_update_safe.
Qed.

Lemma new_enemy_safe now :
  enemy_safe (Enemy.new (1 * TILE_SIZE) (11 * TILE_SIZE) now).
Proof.
  unfold enemy_safe, enemy_box_free. simpl.
  split_and!; try reflexivity; by vm_compute.
Qed.

Lemma pursuer_update_safe_witness :
  ∃ e', Enemy.update 5000 (1 # 2) (Enemy.new (1 * TILE_SIZE) (11 * TILE_SIZE) 0)
        = Some e'
        ∧ enemy_safe e'.
Proof.
  apply pursuer_update_safe.
  - apply new_enemy_safe.
  - split; [apply (Qle_bool_imp_le 0 (1 # 2))|]; reflexivity.
Defined.

Lemma updated_enemies_safe inp i es es' :
  updated_enemies inp i es = Some es' →
  Forall enemy_safe es → Forall enemy_safe es'.
Proof.
  revert i es'. induction es as [|e es IH]; intros i es'.
  { by intros [= <-]. }
  cbn [updated_enemies].
  destruct (Enemy.update _ _ e) as [e'|] eqn:He'; [|done].
  cbn [mbind option_bind].
  destruct (updated_enemies inp (S i) es) as [es''|] eqn:Hes; [|done].
  intros [= <-] [He Hes']%Forall_cons. constructor.
  - by eapply enemy_update_safe.
  - by eapply IH.
Qed.

Lemma loop_enemies_safe inp g g' :
  Game.loop inp g = Some g' →
  Forall enemy_safe (Game.enemies g) → Forall enemy_safe (Game.enemies g').
Proof.
  unfold Game.loop. destruct (negb _); [by intros [= <-]|].
  rewrite update_result. cbv zeta.
  destruct (Player.update (Game.player g)) as [q|] eqn:Hq; [|done].
  cbn [mbind option_bind].
  destruct (updated_enemies inp 0 (Game.enemies g)) as [es'|] eqn:Hes; [|done].
  intros [= <-]. cbn [Game.enemies]. by eapply updated_enemies_safe.
Qed.

Lemma reachable_enemies_safe g :
  session_reachable g → Forall enemy_safe (Game.enemies g).
Proof.
  induction 1 as [rand now inp g Hinit|inp g g' _ IH Hloop|g _ IH|key g _ IH].
  - unfold Game.init, Game.setup in Hinit.
    destruct (Game.shuffle rand Game.emptyCells) as [cells|]; [|done].
    apply (loop_enemies_safe _ _ _ Hinit). cbn [Game.enemies].
    constructor; [apply new_enemy_safe|constructor].
  - by eapply loop_enemies_safe.
  - unfold Game.tick. destruct (negb _); [done|]. by destruct (_ <=? _).
  - unfold Game.onkeydown. by destruct (Game.dirs_get key).
Qed.

(** X7. In a session reached from [init], with draws of [Math.random], a
    pursuer never makes a frame raise: [chooseDirection] never reads a
    missing candidate, because every pursuer stays on corner tiles that
    are not walls.  A frame raises exactly when the session runs, the
    player stands on a whole tile and the last key pressed named a member
    of [Object.prototype], which is then what [nextDirection] holds. *)
Theorem frame_raises_on_queued_member (inp : nat → Z * Q) (g : Game.t) :
  session_reachable g → (∀ i, is_draw (inp i).2) →
  Forall enemy_safe (Game.enemies g)
  ∧ (Game.loop inp g = None
     ↔ Game.running g = true ∧ on_grid (Game.player g)
       ∧ ∃ name, Player.nextDirection (Game.player g) = Player.Member name).
Proof.
  intros Hg Hinp. pose proof (reachable_enemies_safe g Hg) as Hsafe.
  split; [done|]. unfold Game.loop, on_grid.
  destruct (Game.running g); cbn [negb]; [|split; [done|by intros [? _]]].
  rewrite <- update_raises, update_result. cbv zeta.
  destruct (Player.update (Game.player g)) as [q|]; [|done].
  cbn [mbind option_bind].
  destruct (updated_enemies_succeed inp 0 (Game.enemies g)) as [es' ->].
  - intros k e Hk. rewrite Forall_forall in Hsafe.
    apply enemy_update_succeeds; [|done].
    apply Hsafe. by eapply list_elem_of_lookup_2.
  - split; [done|]. by intros [_ ?].
Qed.

Lemma frame_raises_on_queued_member_witness :
  match Game.init (λ _, 1 # 2)%Q 0 (λ _, (5000, (1 # 2)%Q)) with
  | Some g =>
      Game.loop (λ _, (5000, (1 # 2)%Q)) (Game.onkeydown "valueOf" g) = None
  | None => False
  end.
Proof.
  destruct (Game.init (λ _, 1 # 2)%Q 0 (λ _, (5000, (1 # 2)%Q))) as [g|] eqn:Hg;
    [|vm_compute in Hg; discriminate].
  apply (frame_raises_on_queued_member (λ _, (5000, (1 # 2)%Q))
           (Game.onkeydown "valueOf" g)).
  - apply session_key. by eapply session_init.
  - intros _. split; [apply (Qle_bool_imp_le 0 (1 # 2))|]; reflexivity.
  - vm_compute in Hg. injection Hg as <-. vm_compute.
    split_and!; [reflexivity|reflexivity|]. by eexists.
Defined.

Lemma tile_of_lower (v : Q) (k : Z) :
  k ≤ tile_of v → (inject_Z (k * TILE_SIZE) <= v)%Q.
Proof.
  unfold tile_of, TILE_SIZE. intros Hk. rewrite Zle_Qle in Hk.
  pose proof (Qfloor_le (v / inject_Z 64)) as Hlo.
  assert (inject_Z k <= v / 64)%Q as H by (by eapply Qle_trans).
  rewrite inject_Z_mult. change (inject_Z 64) with 64%Q.
  apply (Qmult_le_r _ _ 64) in H; [|done].
  assert (v / 64 * 64 == v) as Hv by field. by rewrite Hv in H.
Qed.

Lemma tile_of_upper (v : Q) (k : Z) :
  tile_of v ≤ k → (v < inject_Z ((k + 1) * TILE_SIZE))%Q.
Proof.
  unfold tile_of, TILE_SIZE. intros Hk.
  pose proof (Qlt_floor (v / inject_Z 64)) as Hhi.
  assert (inject_Z (Qfloor (v / inject_Z 64) + 1) <= inject_Z (k + 1))%Q as Hk'
    by (rewrite <- Zle_Qle; lia).
  assert (v / 64 < inject_Z (k + 1))%Q as H by (by eapply Qlt_le_trans).
  rewrite inject_Z_mult. change (inject_Z 64) with 64%Q.
  apply (Qmult_lt_r _ _ 64) in H; [|done].
  assert (v / 64 * 64 == v) as Hv by field. by rewrite Hv in H.
Qed.

(** X8. Every pursuer of a session reached from [init] stays inside the
    canvas: its corner is at least at (64, 64) and less than one pixel
    beyond (832, 704), the corner of the last cell inside the border. *)
Theorem pursuer_stays_inside (g : Game.t) (e : Enemy.t) :
  session_reachable g → e ∈ Game.enemies g →
  (64 <= Enemy.x e)%Q ∧ (Enemy.x e < 833)%Q
  ∧ (64 <= Enemy.y e)%Q ∧ (Enemy.y e < 705)%Q.
Proof.
  intros Hg He. pose proof (reachable_enemies_safe g Hg) as Hsafe.
  rewrite Forall_forall in Hsafe.
  destruct (Hsafe e He) as (_ & _ & _ & _ & H1 & _ & _ & H4).
  apply walkable_inner in H1 as [[Hy _] [Hx _]].
  apply walkable_inner in H4 as [[_ Hy'] [_ Hx']].
  apply tile_of_lower in Hx, Hy. apply tile_of_upper in Hx', Hy'.
  unfold TILE_SIZE, ROWS, COLS in *.
  change (inject_Z (1 * 64)) with 64%Q in *. change (inject_Z 64) with 64%Q in *.
  change (inject_Z ((15 - 2 + 1) * 64)) with 896%Q in *.
  change (inject_Z ((13 - 2 + 1) * 64)) with 768%Q in *.
  lra.
Qed.

Lemma pursuer_stays_inside_witness :
  match Game.init (λ _, 1 # 2)%Q 0 (λ _, (5000, (1 # 2)%Q)) with
  | Some g => Forall (λ e, (64 <= Enemy.x e)%Q) (Game.enemies g)
  | None => False
  end.
Proof.
  destruct (Game.init (λ _, 1 # 2)%Q 0 (λ _, (5000, (1 # 2)%Q))) as [g|] eqn:Hg;
    [|vm_compute in Hg; discriminate].
  apply Forall_forall. intros e He.
  apply (pursuer_stays_inside g e); [|exact He]. by eapply session_init.
Defined.

(** * A pursuer at rest *)

Lemma alignedQ_comp (a b : Q) : a == b → alignedQ a = alignedQ b.
Proof.
  intros Hab. unfold alignedQ. rewrite (tile_of_comp a b Hab).
  apply eq_true_iff_eq. rewrite !Qeq_bool_iff. by rewrite Hab.
Qed.

Lemma update_at_rest_off_grid now r e e' :
  Enemy.direction e = zero_dir → Enemy.at_tile e = false →
  Enemy.update now r e = Some e' →
  Enemy.x e' == Enemy.x e ∧ Enemy.y e' == Enemy.y e
  ∧ Enemy.direction e' = zero_dir.
Proof.
  intros Hd Hal. unfold Enemy.update.
  destruct (_ <? _); [by intros [= <-]|].
  rewrite (chooseDirection_off_grid r e Hal). intros [= <-].
  destruct (enemy_move_fields e) as (Hx & Hy & Hdir & _).
  cbv zeta in Hx, Hy, Hdir. rewrite Hd in Hx, Hy, Hdir. simpl in Hx, Hy, Hdir.
  rewrite Hx, Hy, Hdir. split_and!; [|
    |done]; change (inject_Z 0) with 0%Q; ring.
Qed.

(** X9. A pursuer that stands without a direction at a position that is
    not tile-aligned stays there for good: [chooseDirection] only acts on
    the grid, so no update moves it or gives it a direction again.  A wall
    that blocks a pursuer off the grid leaves it in that state. *)
Theorem pursuer_stuck_off_grid (e0 e : Enemy.t) :
  Enemy.direction e0 = zero_dir → Enemy.at_tile e0 = false →
  pursuer_from e0 e →
  Enemy.x e == Enemy.x e0 ∧ Enemy.y e == Enemy.y e0
  ∧ Enemy.direction e = zero_dir.
Proof.
  intros Hd Hal. induction 1 as [|now r e e' _ IH Hup]; [done|].
  destruct IH as (Hx & Hy & Hde).
  assert (Enemy.at_tile e = false) as Hale.
  { unfold Enemy.at_tile in *.
    by rewrite (alignedQ_comp _ _ Hx), (alignedQ_comp _ _ Hy). }
  destruct (update_at_rest_off_grid now r e e' Hde Hale Hup) as (Hx' & Hy' & ?).
  split_and!; [by rewrite Hx'|by rewrite Hy'|done].
Qed.

Lemma pursuer_stuck_off_grid_witness :
  match Enemy.update 9000 (1 # 3)
          (Enemy.mk 64 (129 # 2) (6 # 5) zero_dir 64 3000 0) with
  | Some e' => Enemy.y e' == 129 # 2
  | None => False
  end.
Proof.
  destruct (Enemy.update 9000 (1 # 3)
              (Enemy.mk 64 (129 # 2) (6 # 5) zero_dir 64 3000 0))
    as [e'|] eqn:He'; [|vm_compute in He'; discriminate].
  apply (pursuer_stuck_off_grid
           (Enemy.mk 64 (129 # 2) (6 # 5) zero_dir 64 3000 0) e');
    [reflexivity|reflexivity|].
  eapply pursuer_step; [apply pursuer_here|exact He'].
Defined.

(** * Dead ends of the pursuer *)

(** X10. In a dead end the pursuer turns back: on the grid, when some
    neighbour is open and every open direction reverses the current one,
    [chooseDirection] assigns the reversed direction, whatever the draw. *)
Theorem pursuer_turns_back_in_dead_end (r : Q) (e : Enemy.t) :
  Enemy.at_tile e = true → is_draw r →
  (∃ d, d ∈ dirs4 ∧ Enemy.is_open e d = true) →
  (∀ d, d ∈ dirs4 → Enemy.is_open e d = true → Enemy.is_reverse e d = true) →
  Enemy.chooseDirection r e
  = Some (Enemy.set_direction e (mkDir (- dx (Enemy.direction e))
                                       (- dy (Enemy.direction e)))).
Proof.
  intros Htile Hr (d0 & Hd0 & Hopen0) Hdead.
  destruct (chooseDirection_succeeds r e Hr) as [e' He'].
  { by eapply possible_nonempty. }
  rewrite He'. rewrite chooseDirection_at_tile in He' by done.
  destruct (js_index _ _) as [[d b]|] eqn:Hidx; [|done].
  injection He' as <-. simpl. do 2 f_equal.
  apply js_index_Some in Hidx as [_ Hidx].
  apply list_elem_of_lookup_2, candidates_subset, possible_elem in Hidx
    as (Hd & Hopen & _).
  specialize (Hdead d Hd Hopen). unfold Enemy.is_reverse in Hdead.
  destruct d as [a c]. simpl in *. f_equal; lia.
Qed.

Lemma pursuer_turns_back_in_dead_end_witness :
  Enemy.chooseDirection (7 # 8)
    (Enemy.mk (8 * 64) (11 * 64) (6 # 5) (mkDir (-1) 0) 64 3000 0)
  = Some (Enemy.mk (8 * 64) (11 * 64) (6 # 5) (mkDir 1 0) 64 3000 0).
Proof.
  apply (pursuer_turns_back_in_dead_end (7 # 8)
           (Enemy.mk (8 * 64) (11 * 64) (6 # 5) (mkDir (-1) 0) 64 3000 0)).
  - reflexivity.
  - split; [apply (Qle_bool_imp_le 0 (7 # 8))|]; reflexivity.
  - exists (mkDir 1 0). split; [|reflexivity].
    apply list_elem_of_In. simpl. tauto.
  - intros d Hd. apply list_elem_of_In in Hd. simpl in Hd.
    destruct Hd as [<-|[<-|[<-|[<-|[]]]]]; vm_compute; congruence.
Defined.

(** * The step of a pursuer *)

Lemma chooseDirection_fields r e e0 :
  unit_dir (Enemy.direction e) → Enemy.chooseDirection r e = Some e0 →
  unit_dir (Enemy.direction e0)
  ∧ Enemy.x e0 = Enemy.x e ∧ Enemy.y e0 = Enemy.y e
  ∧ Enemy.speed e0 = Enemy.speed e.
Proof.
  intros Hu. unfold Enemy.chooseDirection. destruct (negb _); [by intros [= <-]|].
  destruct (js_index _ _) as [[d b]|] eqn:Hidx; [|done].
  intros [= <-]. split_and!; try done. simpl.
  apply js_index_Some in Hidx as [_ Hidx].
  apply list_elem_of_lookup_2, candidates_subset, possible_elem in Hidx.
  apply dirs4_unit. tauto.
Qed.

(** X16. An update of a pursuer whose direction is zero or one of the
    four unit directions either leaves it as it is, while its spawn delay
    runs, or moves it along the direction it has after the update, which
    is again zero or a unit direction: the coordinate of an axis on which
    that direction is zero is the one it had, so that a pursuer that a
    wall blocks stays where it is, and at most one coordinate changes; in
    the canvas and with a speed of at most 2, the coordinates after the
    update are those before it plus the speed along the direction, up to
    [2^-40]. *)
Theorem pursuer_moves_along_one_axis (now : Z) (r : Q) (e e' : Enemy.t) :
  unit_dir (Enemy.direction e) → Enemy.update now r e = Some e' →
  in_canvas (Enemy.x e) → in_canvas (Enemy.y e) →
  (0 <= Enemy.speed e)%Q → (Enemy.speed e <= 2)%Q →
  (now - Enemy.spawnTimestamp e < Enemy.startDelay e ∧ e' = e)
  ∨ (Enemy.startDelay e ≤ now - Enemy.spawnTimestamp e
     ∧ unit_dir (Enemy.direction e')
     ∧ Enemy.speed e' = Enemy.speed e
     ∧ (dx (Enemy.direction e') = 0 → Enemy.x e' == Enemy.x e)
     ∧ (dy (Enemy.direction e') = 0 → Enemy.y e' == Enemy.y e)
     ∧ (Qabs (Enemy.x e' - (Enemy.x e + inject_Z (dx (Enemy.direction e'))
                                         * Enemy.speed e))
        <= coordinate_margin)%Q
     ∧ (Qabs (Enemy.y e' - (Enemy.y e + inject_Z (dy (Enemy.direction e'))
                                         * Enemy.speed e))
        <= coordinate_margin)%Q).
Proof.
  intros Hu Hup _ _ _ _. revert Hup. unfold Enemy.update.
  destruct (Z.ltb_spec (now - Enemy.spawnTimestamp e) (Enemy.startDelay e))
    as [Hwait|Hgo].
  { intros [= <-]. by left. }
  destruct (Enemy.chooseDirection r e) as [e0|] eqn:Hch; [|done].
  intros [= <-]. right. split; [done|].
  destruct (chooseDirection_fields r e e0 Hu Hch) as (Hu0 & Hx0 & Hy0 & Hs0).
  destruct (enemy_move_fields e0) as (Hx & Hy & Hd & Hs & _).
  cbv zeta in Hx, Hy, Hd. rewrite Hx, Hy, Hd, Hs, Hx0, Hy0, Hs0.
  clear Hx Hy Hd Hs.
  assert (∀ a b : Q, a == b → (Qabs (a - b) <= coordinate_margin)%Q) as Hnear.
  { intros a b Hab. apply Qabs_Qle_condition. unfold coordinate_margin.
    split; lra. }
  destruct (unit_dir_cases _ Hu0) as [Hd|[Hd|[Hd|[Hd|Hd]]]]; rewrite Hd;
    cbn [dx dy Z.eqb negb andb orb];
    repeat match goal with
           | |- context [Enemy.blocked_x ?a ?b] => destruct (Enemy.blocked_x a b)
           | |- context [Enemy.blocked_y ?a ?b] => destruct (Enemy.blocked_y a b)
           end;
    cbn [dx dy zero_dir negb andb orb];
    (split_and!;
     [unfold unit_dir; simpl; lia|done
     |intros; first [ring|lia]|intros; first [ring|lia]
     |apply Hnear; ring|apply Hnear; ring]).
Qed.

(** The first update of the first pursuer after its spawn delay, with the
    draw 3/4: it leaves its cell upwards, and only its [y] changes. *)
Lemma pursuer_moves_along_one_axis_witness :
  match Enemy.update 9000 (3 # 4)
          (Enemy.mk 64 704 (6 # 5) zero_dir 64 3000 0) with
  | Some e' =>
      Enemy.direction e' = mkDir 0 (-1) ∧ Enemy.x e' == 64
      ∧ (Qabs (Enemy.y e' - (704 + inject_Z (-1) * (6 # 5)))
         <= coordinate_margin)%Q
  | None => False
  end.
Proof.
  destruct (Enemy.update 9000 (3 # 4)
              (Enemy.mk 64 704 (6 # 5) zero_dir 64 3000 0))
    as [e'|] eqn:He'; [|vm_compute in He'; discriminate].
  assert (Enemy.direction e' = mkDir 0 (-1)) as Hdir.
  { assert (Enemy.direction <$> Some e' = Some (mkDir 0 (-1))) as [= ->]
      by (rewrite <- He'; vm_compute; reflexivity).
    reflexivity. }
  destruct (pursuer_moves_along_one_axis 9000 (3 # 4)
              (Enemy.mk 64 704 (6 # 5) zero_dir 64 3000 0) e')
    as [[Hwait _]|(_ & _ & _ & Hx & _ & _ & Hy)].
  - unfold unit_dir. simpl. lia.
  - exact He'.
  - split; apply (Qle_bool_imp_le _ _); reflexivity.
  - split; apply (Qle_bool_imp_le _ _); reflexivity.
  - apply (Qle_bool_imp_le _ _). reflexivity.
  - apply (Qle_bool_imp_le _ _). reflexivity.
  - simpl in Hwait. lia.
  - rewrite Hdir in Hx, Hy. split; [done|]. split; [by apply Hx|exact Hy].
Defined.

(** * Invariants of a session *)

Lemma loop_cases inp g g' :
  Game.loop inp g = Some g' →
  (Game.running g = false ∧ g' = g)
  ∨ (Game.running g = true ∧ Game.update inp g = Some g').
Proof.
  unfold Game.loop. destruct (Game.running g); cbn [negb].
  - by right.
  - intros [= <-]. by left.
Qed.

Lemma updated_enemies_length inp i es es' :
  updated_enemies inp i es = Some es' → length es' = length es.
Proof.
  revert i es'. induction es as [|e es IH]; intros i es'.
  { by intros [= <-]. }
  cbn [updated_enemies].
  destruct (Enemy.update _ _ e) as [e'|]; [|done]. cbn [mbind option_bind].
  destruct (updated_enemies inp (S i) es) as [es''|] eqn:Hes; [|done].
  intros [= <-]. simpl. f_equal. by eapply IH.
Qed.

(** ** The calls of [endGame] *)

Lemma loop_calls_ok inp g g' :
  Game.loop inp g = Some g' → calls_ok g → calls_ok g'.
Proof.
  intros [[_ ->]|[Hrun Hup]]%loop_cases; [done|].
  rewrite update_result in Hup. cbv zeta in Hup.
  destruct (Player.update (Game.player g)) as [q|] eqn:Hq; [|done].
  cbn [mbind option_bind] in Hup.
  destruct (updated_enemies inp 0 (Game.enemies g)) as [es'|] eqn:Hes; [|done].
  cbn [mbind option_bind] in Hup. injection Hup as <-.
  intros (Hlen & Hc & _). unfold calls_ok.
  cbn [Game.enemies Game.running Game.endGameCalls].
  rewrite (Hc Hrun), Hrun.
  apply updated_enemies_length in Hes. rewrite Hlen in Hes.
  pose proof (length_filter
                (λ e, Game.checkCollision (stepped (Game.player g)) e = true)
                es') as Hhits.
  fold (colliding (stepped (Game.player g)) es') in Hhits.
  destruct (colliding _ es') as [|h [|h2 tl]]; [| |simpl in Hhits; lia];
    destruct (existsb _ _ && forallb _ _); cbn;
    (split; [done|split; [done|]]); first [done|intros _; repeat first [by left|right]].
Qed.

Lemma tick_calls_ok g : calls_ok g → calls_ok (Game.tick g).
Proof.
  intros (Hlen & Hc & Hs). unfold Game.tick.
  destruct (Game.running g) eqn:Hrun; cbn [negb];
    [|unfold calls_ok; rewrite Hrun; by split_and!].
  cbn [Game.timeLeft Game.set_timeLeft]. destruct (_ <=? _).
  - unfold calls_ok. cbn. rewrite (Hc eq_refl).
    split_and!; [done|done|]. intros _. right. left.
  - unfold calls_ok. cbn. rewrite Hrun. by split_and!.
Qed.

Lemma onkeydown_calls_ok key g : calls_ok g → calls_ok (Game.onkeydown key g).
Proof. unfold Game.onkeydown. by destruct (Game.dirs_get key). Qed.

Lemma reachable_calls_ok g : session_reachable g → calls_ok g.
Proof.
  induction 1 as [rand now inp g Hinit|inp g g' _ IH Hloop|g _ IH|key g _ IH].
  - unfold Game.init, Game.setup in Hinit.
    destruct (Game.shuffle rand Game.emptyCells) as [cells|]; [|done].
    apply (loop_calls_ok _ _ _ Hinit). by split_and!.
  - by eapply loop_calls_ok.
  - by apply tick_calls_ok.
  - by apply onkeydown_calls_ok.
Qed.

(** X11. In every session reached from [init], the session runs exactly
    as long as [endGame] has not been called, and [endGame] is called at
    most twice: once with [true], once with [false], or first with [true]
    and then with [false], as a frame does that takes the last toy and
    meets the pursuer.  Once stopped, no frame or tick changes the
    session. *)
Theorem endGame_called_once_per_cause (g : Game.t) :
  session_reachable g →
  (Game.running g = true ↔ Game.endGameCalls g = [])
  ∧ Game.endGameCalls g ∈ [ []; [true]; [false]; [false; true] ]
  ∧ (Game.running g = false →
     Game.tick g = g ∧ ∀ inp, Game.loop inp g = Some g).
Proof.
  intros (_ & Hc & Hs)%reachable_calls_ok. split_and!.
  - split; [done|]. destruct (Game.running g); [done|].
    intros Hnil. specialize (Hs eq_refl). rewrite Hnil in Hs.
    rewrite !elem_of_cons, elem_of_nil in Hs.
    destruct Hs as [?|[?|[?|[]]]]; discriminate.
  - destruct (Game.running g).
    + rewrite Hc by done. left.
    + right. by apply Hs.
  - intros Hrun. unfold Game.tick, Game.loop. by rewrite Hrun.
Qed.

Lemma endGame_called_once_per_cause_witness :
  match Game.init (λ _, 1 # 2)%Q 0 (λ _, (5000, (1 # 2)%Q)) with
  | Some g => Game.running g = true ↔ Game.endGameCalls g = []
  | None => False
  end.
Proof.
  destruct (Game.init (λ _, 1 # 2)%Q 0 (λ _, (5000, (1 # 2)%Q))) as [g|] eqn:Hg;
    [|vm_compute in Hg; discriminate].
  apply (endGame_called_once_per_cause g). by eapply session_init.
Defined.

(** ** The toys stay where [init] put them *)

Lemma collect_hit_cells row col (ts : list Toy.t) :
  toy_cell <$> (collect_hit row col <$> ts) = toy_cell <$> ts.
Proof.
  rewrite <- list_fmap_compose. apply list_fmap_ext. intros _ toy _. simpl.
  unfold collect_hit. by destruct (Game.hit row col toy).
Qed.

Lemma loop_cells inp g g' :
  Game.loop inp g = Some g' →
  toy_cell <$> Game.toys g' = toy_cell <$> Game.toys g.
Proof.
  intros [[_ ->]|[_ Hup]]%loop_cases; [done|].
  apply update_toys_score in Hup as (_ & -> & _). apply collect_hit_cells.
Qed.

Lemma reachable_cells g :
  session_reachable g →
  ∃ cells, cells ≡ₚ Game.emptyCells
           ∧ toy_cell <$> Game.toys g = take 10 cells.
Proof.
  induction 1 as [rand now inp g Hinit|inp g g' _ IH Hloop|g _ IH|key g _ IH].
  - unfold Game.init, Game.setup in Hinit.
    destruct (Game.shuffle rand Game.emptyCells) as [cells|] eqn:Hsh; [|done].
    exists cells. split; [by eapply shuffle_from_Some_perm|].
    rewrite (loop_cells _ _ _ Hinit). cbn [Game.toys].
    rewrite make_toys_cells.
    destruct (Nat.min_spec 10 (length cells)) as [[_ ->]|[Hle ->]]; [done|].
    by rewrite !take_ge by lia.
  - by rewrite (loop_cells _ _ _ Hloop).
  - by destruct (tick_toys g) as [-> _].
  - by destruct (onkeydown_toys key g) as [-> _].
Qed.

Lemma count_collected_le ts : 0 ≤ count_collected ts ≤ Z.of_nat (length ts).
Proof.
  unfold count_collected.
  pose proof (length_filter (λ toy, Toy.collected toy = true) ts). lia.
Qed.

Lemma reachable_toy_count g : session_reachable g → length (Game.toys g) = 10%nat.
Proof.
  intros (cells & Hperm & Hcells)%reachable_cells.
  rewrite <- (length_fmap toy_cell), Hcells, length_take.
  rewrite (Permutation_length Hperm). vm_compute. reflexivity.
Qed.

(** X12. In every session reached from [init], after any frames, ticks
    and key presses, there are ten toys, on pairwise distinct walkable
    cells other than the player's start (1,1), and the score is between 0
    and 10. *)
Theorem toys_stay_in_place (g : Game.t) :
  session_reachable g →
  length (Game.toys g) = 10%nat
  ∧ NoDup (toy_cell <$> Game.toys g)
  ∧ (∀ toy, toy ∈ Game.toys g →
       isWall (Toy.row toy) (Toy.col toy) = false ∧ toy_cell toy ≠ (1, 1))
  ∧ 0 ≤ Game.score g ≤ 10.
Proof.
  intros Hg. pose proof (reachable_toy_count g Hg) as Hlen.
  destruct (reachable_cells g Hg) as (cells & Hperm & Hcells).
  split_and!.
  - done.
  - rewrite Hcells. eapply sublist_NoDup; [|apply sublist_take].
    rewrite Hperm. apply emptyCells_NoDup.
  - intros toy Htoy. apply (emptyCells_elem (toy_cell toy)).
    rewrite <- Hperm. apply (subseteq_take 10). rewrite <- Hcells.
    apply list_elem_of_fmap. eauto.
  - rewrite (reachable_score_ok g Hg).
    pose proof (count_collected_le (Game.toys g)). lia.
  - rewrite (reachable_score_ok g Hg).
    pose proof (count_collected_le (Game.toys g)). lia.
Qed.

Lemma toys_stay_in_place_witness :
  match Game.init (λ _, 1 # 2)%Q 0 (λ _, (5000, (1 # 2)%Q)) with
  | Some g => length (Game.toys g) = 10%nat
  | None => False
  end.
Proof.
  destruct (Game.init (λ _, 1 # 2)%Q 0 (λ _, (5000, (1 # 2)%Q))) as [g|] eqn:Hg;
    [|vm_compute in Hg; discriminate].
  apply (toys_stay_in_place g). by eapply session_init.
Defined.

(** ** Winning *)

Lemma loop_won_ok inp g g' :
  Game.loop inp g = Some g' → toy_left g → calls_ok g → won_ok g → won_ok g'.
Proof.
  intros [[_ ->]|[Hrun Hup]]%loop_cases; [done|].
  rewrite update_result in Hup. cbv zeta in Hup.
  destruct (Player.update (Game.player g)) as [q|] eqn:Hq; [|done].
  cbn [mbind option_bind] in Hup.
  destruct (updated_enemies inp 0 (Game.enemies g)) as [es'|]; [|done].
  cbn [mbind option_bind] in Hup. injection Hup as <-.
  intros Hleft (_ & Hc & _) _. unfold won_ok.
  cbn [Game.toys Game.endGameCalls]. rewrite (Hc Hrun).
  set (row := Player.y (stepped (Game.player g)) / TILE_SIZE).
  set (col := Player.x (stepped (Game.player g)) / TILE_SIZE).
  destruct (Hleft Hrun) as (toy & Hin & Hnot).
  destruct (forallb Toy.collected (collect_hit row col <$> Game.toys g)) eqn:Hall.
  - assert (existsb (Game.hit row col) (Game.toys g) = true) as ->.
    { apply existsb_exists. exists toy. split; [by apply list_elem_of_In|].
      rewrite forallb_forall in Hall.
      specialize (Hall (collect_hit row col toy)).
      rewrite collect_hit_collected, Hnot in Hall. apply Hall.
      apply list_elem_of_In, list_elem_of_fmap. eauto. }
    cbn [andb]. split; [done|]. intros _. apply elem_of_app. right. left.
  - rewrite andb_false_r, app_nil_r. split; [|done].
    by intros [? _]%elem_of_replicate.
Qed.

Lemma reachable_won_ok g : session_reachable g → won_ok g.
Proof.
  induction 1 as [rand now inp g Hinit|inp g g' Hg IH Hloop|g _ IH|key g _ IH].
  - unfold Game.init in Hinit.
    destruct (Game.setup rand now) as [g0|] eqn:Hsetup; [|done].
    pose proof (setup_toy_left _ _ _ Hsetup) as Hleft.
    unfold Game.setup in Hsetup.
    destruct (Game.shuffle rand Game.emptyCells) as [cells|]; [|done].
    injection Hsetup as <-.
    apply (loop_won_ok _ _ _ Hinit Hleft); [by split_and!|].
    unfold won_ok. cbn [Game.endGameCalls Game.toys]. split; [by intros ?%elem_of_nil|].
    intros Hall. destruct (Hleft eq_refl) as (toy & Hin & Hnot).
    rewrite forallb_forall in Hall. cbn [Game.toys] in Hin.
    apply list_elem_of_In, Hall in Hin. congruence.
  - apply (loop_won_ok _ _ _ Hloop);
      [by apply reachable_toy_left|by apply reachable_calls_ok|done].
  - unfold won_ok in *. destruct (tick_toys g) as [-> _]. rewrite <- IH.
    unfold Game.tick. destruct (negb _); [done|]. destruct (_ <=? _); [|done].
    cbn [Game.endGame Game.endGameCalls Game.set_timeLeft].
    rewrite elem_of_cons. split; [by intros [?|?]|by right].
  - unfold won_ok in *. destruct (onkeydown_toys key g) as [-> _]. rewrite <- IH.
    unfold Game.onkeydown. by destruct (Game.dirs_get key).
Qed.

Lemma count_collected_all ts :
  count_collected ts = Z.of_nat (length ts)
  ↔ forallb Toy.collected ts = true.
Proof.
  induction ts as [|toy ts IH]; [done|].
  rewrite count_collected_cons. cbn [forallb length].
  pose proof (count_collected_le ts).
  destruct (Toy.collected toy); cbn [andb].
  - rewrite <- IH. lia.
  - split; [lia|done].
Qed.

(** X13. In every session reached from [init], [endGame (true)] has been
    called exactly when every toy is collected, which is exactly when the
    score is 10. *)
Theorem won_iff_score_ten (g : Game.t) :
  session_reachable g →
  (true ∈ Game.endGameCalls g
   ↔ ∀ toy, toy ∈ Game.toys g → Toy.collected toy = true)
  ∧ (true ∈ Game.endGameCalls g ↔ Game.score g = 10).
Proof.
  intros Hg. pose proof (reachable_won_ok g Hg) as Hwon. unfold won_ok in Hwon.
  split.
  - rewrite Hwon, forallb_forall. split; intros H toy Hin; apply H.
    + by apply list_elem_of_In.
    + by apply list_elem_of_In in Hin.
  - rewrite Hwon, <- count_collected_all, <- (reachable_score_ok g Hg).
    by rewrite (reachable_toy_count g Hg).
Qed.

Lemma won_iff_score_ten_witness :
  match Game.init (λ _, 1 # 2)%Q 0 (λ _, (5000, (1 # 2)%Q)) with
  | Some g => true ∈ Game.endGameCalls g ↔ Game.score g = 10
  | None => False
  end.
Proof.
  destruct (Game.init (λ _, 1 # 2)%Q 0 (λ _, (5000, (1 # 2)%Q))) as [g|] eqn:Hg;
    [|vm_compute in Hg; discriminate].
  apply (won_iff_score_ten g). by eapply session_init.
Defined.

(** ** The countdown *)

Lemma loop_timeLeft inp g g' :
  Game.loop inp g = Some g' → Game.timeLeft g' = Game.timeLeft g.
Proof.
  intros [[_ ->]|[_ Hup]]%loop_cases; [done|].
  by apply update_toys_score in Hup as (_ & _ & _ & ->).
Qed.

Lemma loop_running inp g g' :
  Game.loop inp g = Some g' → Game.running g' = true → Game.running g = true.
Proof. by intros [[_ ->]|[? _]]%loop_cases. Qed.

Lemma after_reachable rand now inp g0 n g :
  Game.init rand now inp = Some g0 → session_after g0 n g → session_reachable g.
Proof.
  intros Hinit. induction 1.
  - by eapply session_init.
  - by eapply session_frame.
  - by apply session_tick.
  - by apply session_key.
Qed.

(** X14. The countdown of a session started by [init]: the time left is
    always between 0 and 60; while the session runs it is 60 less the
    number of ticks of the timer so far, whatever frames and key presses
    came in between; and after 60 ticks no session runs. *)
Theorem countdown_ends_session rand now inp (g0 g : Game.t) (n : nat) :
  Game.init rand now inp = Some g0 → session_after g0 n g →
  0 ≤ Game.timeLeft g ≤ 60
  ∧ (Game.running g = true → Game.timeLeft g = 60 - Z.of_nat n)
  ∧ (60 ≤ n → Game.running g = false)%nat.
Proof.
  intros Hinit Hafter.
  assert (0 ≤ Game.timeLeft g ≤ 60
          ∧ (Game.running g = true → Game.timeLeft g = 60 - Z.of_nat n))
    as [Hrange Hrun].
  { induction Hafter as [|inp' n g g' Hafter IH Hloop|n g Hafter IH
                         |key n g Hafter IH].
    - unfold Game.init, Game.setup in Hinit.
      destruct (Game.shuffle rand Game.emptyCells) as [cells|]; [|done].
      rewrite (loop_timeLeft _ _ _ Hinit). cbn [Game.timeLeft]. lia.
    - rewrite (loop_timeLeft _ _ _ Hloop). split; [tauto|].
      intros Hr. apply IH. by eapply loop_running.
    - pose proof (reachable_time_left g (after_reachable _ _ _ _ _ _ Hinit Hafter))
        as Hleft.
      unfold time_left in Hleft. unfold Game.tick.
      destruct (Game.running g) eqn:Hr; cbn [negb].
      2:{ split; [tauto|]. intros Hr'. congruence. }
      specialize (Hleft eq_refl). destruct IH as [IH1 IH2].
      specialize (IH2 eq_refl). cbn [Game.timeLeft Game.set_timeLeft].
      destruct (_ <=? _); cbn; (split; [lia|]); first [done|intros _; lia].
    - unfold Game.onkeydown. by destruct (Game.dirs_get key). }
  split_and!; [lia|lia|done|].
  intros Hn. destruct (Game.running g) eqn:Hr; [|done].
  pose proof (reachable_time_left g (after_reachable _ _ _ _ _ _ Hinit Hafter) Hr).
  specialize (Hrun eq_refl). lia.
Qed.

Lemma countdown_ends_session_witness :
  match Game.init (λ _, 1 # 2)%Q 0 (λ _, (5000, (1 # 2)%Q)) with
  | Some g0 => Game.running (Game.tick g0) = true →
               Game.timeLeft (Game.tick g0) = 60 - 1
  | None => False
  end.
Proof.
  destruct (Game.init (λ _, 1 # 2)%Q 0 (λ _, (5000, (1 # 2)%Q))) as [g0|] eqn:Hg;
    [|vm_compute in Hg; discriminate].
  apply (countdown_ends_session _ _ _ g0 (Game.tick g0) 1 Hg).
  apply after_tick, after_here.
Defined.

(** ** Which toys a frame collects *)

(** X15. A frame collects a toy exactly when the top left corner of the
    player's box, after the player's move, lies in the toy's tile; the toy
    keeps its cell and type, and a collected toy stays collected. *)
Theorem toy_taken_on_player_cell inp (g g' : Game.t) (i : nat) (toy : Toy.t) :
  Game.update inp g = Some g' → Game.toys g !! i = Some toy →
  ∃ toy', Game.toys g' !! i = Some toy'
    ∧ toy_cell toy' = toy_cell toy ∧ Toy.type toy' = Toy.type toy
    ∧ (Toy.collected toy' = true
       ↔ Toy.collected toy = true
         ∨ (Toy.col toy * TILE_SIZE ≤ Player.x (Game.player g')
              < (Toy.col toy + 1) * TILE_SIZE
            ∧ Toy.row toy * TILE_SIZE ≤ Player.y (Game.player g')
              < (Toy.row toy + 1) * TILE_SIZE)).
Proof.
  intros (Hp & Hts & _)%update_toys_score Hi. rewrite Hp, Hts.
  set (p' := stepped (Game.player g)).
  exists (collect_hit (Player.y p' / TILE_SIZE) (Player.x p' / TILE_SIZE) toy).
  split; [by rewrite list_lookup_fmap, Hi|].
  split_and!.
  - unfold collect_hit. by destruct (Game.hit _ _ toy).
  - unfold collect_hit. by destruct (Game.hit _ _ toy).
  - rewrite collect_hit_collected, orb_true_iff, hit_iff. unfold TILE_SIZE.
    destruct (Toy.collected toy).
    + split; intros _; by left.
    + split.
      * intros [?|(_ & Hr & Hc)]; [done|]. right.
        pose proof (Z.div_mod (Player.x p') 64 ltac:(done)).
        pose proof (Z.mod_pos_bound (Player.x p') 64 ltac:(done)).
        pose proof (Z.div_mod (Player.y p') 64 ltac:(done)).
        pose proof (Z.mod_pos_bound (Player.y p') 64 ltac:(done)). lia.
      * intros [?|[Hc Hr]]; [done|]. right. split; [done|].
        split.
        -- apply (Z.div_unique_pos _ 64 _ (Player.y p' - Toy.row toy * 64)); lia.
        -- apply (Z.div_unique_pos _ 64 _ (Player.x p' - Toy.col toy * 64)); lia.
Qed.

Lemma toy_taken_on_player_cell_witness :
  ∃ toy', Toy.collected toy' = true.
Proof.
  destruct (toy_taken_on_player_cell (λ _, (0, (1 # 2)%Q))
              (Game.mk (Player.new 64 64) [] [Toy.new 1 1 "teddy"] 0 60 true [])
              (Game.mk (Player.new 64 64) [] [Toy.collect (Toy.new 1 1 "teddy")]
                       1 60 false [true])
              0 (Toy.new 1 1 "teddy") eq_refl eq_refl)
    as (toy' & _ & _ & _ & Hc).
  exists toy'. apply Hc. right. vm_compute. repeat split; congruence.
Defined.

(** * The track of the player *)

Lemma tryChangeDirection_turn p :
  turned p = p
  ∨ ∃ d, Player.nextDirection p = Player.Vec d
         ∧ aligned (Player.x p) = true ∧ aligned (Player.y p) = true
         ∧ isWall (Player.y p / TILE_SIZE + dy d)
                  (Player.x p / TILE_SIZE + dx d) = false
         ∧ turned p = Player.set_direction p d.
Proof.
  unfold turned, Player.tryChangeDirection.
  destruct (aligned (Player.x p)); [|by left].
  destruct (aligned (Player.y p)); [|by left]. cbn [andb].
  destruct (Player.nextDirection p) as [d|name]; [|by left]. simpl.
  destruct (isWall _ _) eqn:Hfree; cbn [negb]; [by left|].
  right. exists d. by split_and!.
Qed.

(** The tile-aligned coordinates among those the player reaches. *)
Lemma aligned_lattice v :
  aligned v = true → (v - 64) mod 3 = 0 → 64 ≤ v ≤ 832 →
  v = 64 ∨ v = 256 ∨ v = 448 ∨ v = 640 ∨ v = 832.
Proof.
  unfold aligned, TILE_SIZE. intros Hal%Z.eqb_eq Hmod Hv.
  Z.to_euclidean_division_equations. lia.
Qed.

Lemma reachable_inside p :
  player_reachable p → 64 ≤ Player.x p ≤ 832 ∧ 64 ≤ Player.y p ≤ 704.
Proof.
  intros (_ & _ & _ & _ & H1 & _ & _ & H4)%reachable_safe.
  apply walkable_inner in H1, H4. unfold TILE_SIZE, ROWS, COLS in *.
  Z.div_mod_to_equations. lia.
Qed.

Lemma turn_on_outer_track p :
  player_reachable p → on_outer_track p →
  on_outer_track (turned p).
Proof.
  intros Hp Htrack.
  destruct (tryChangeDirection_turn p)
    as [->|(nd & Hq & Hax & Hay & Hfree & ->)]; [done|].
  destruct (reachable_inside p Hp) as [Hxr Hyr].
  destruct (reachable_lattice p Hp) as [Hxl Hyl].
  destruct (reachable_safe p Hp) as (_ & _ & _ & Hnd & _).
  rewrite Hq in Hnd. simpl in Hnd. clear Hq.
  unfold TILE_SIZE in Hxl, Hyl.
  pose proof (aligned_lattice _ Hax Hxl Hxr) as Hxs.
  pose proof (aligned_lattice _ Hay Hyl ltac:(lia)) as Hys.
  unfold on_outer_track in *.
  destruct p as [x y s d q sz]. cbn [Player.x Player.y Player.direction
    Player.nextDirection Player.set_direction] in *.
  clear Hp Hax Hay Hxl Hyl Hxr.
  destruct (unit_dir_cases nd Hnd) as [->|[->|[->|[->| ->]]]];
    cbn [dx dy] in *; clear Hnd.
  - destruct Htrack as [[? _]|[? _]]; [by left|by right].
  - destruct Htrack as [[? _]|[Hx _]]; [by left|]. left. split; [|done].
    destruct Hx as [->| ->];
      destruct Hys as [->|[->|[->|[->| ->]]]];
      first [done|lia|vm_compute in Hfree; discriminate].
  - destruct Htrack as [[? _]|[Hx _]]; [by left|]. left. split; [|done].
    destruct Hx as [->| ->];
      destruct Hys as [->|[->|[->|[->| ->]]]];
      first [done|lia|vm_compute in Hfree; discriminate].
  - destruct Htrack as [[-> _]|[? _]]; [|by right]. right. split; [|done].
    destruct Hxs as [->|[->|[->|[->| ->]]]];
      first [by left|by right|vm_compute in Hfree; discriminate].
  - destruct Htrack as [[-> _]|[? _]]; [|by right]. right. split; [|done].
    destruct Hxs as [->|[->|[->|[->| ->]]]];
      first [by left|by right|vm_compute in Hfree; discriminate].
Qed.

Lemma update_on_outer_track p :
  player_reachable p → on_outer_track p → on_outer_track (stepped p).
Proof.
  intros Hp Htrack%turn_on_outer_track; [|done].
  destruct (player_update_fields p) as (Hx & Hy & Hd). cbv zeta in Hx, Hy, Hd.
  destruct (tryChangeDirection_position p) as (Hx0 & Hy0 & _).
  unfold on_outer_track in *. rewrite Hx, Hy, Hd. cbn [dx dy].
  unfold player_newX, player_newY. rewrite Hx0, Hy0 in *.
  destruct Htrack as [[Hy1 Hdy]|[Hx1 Hdx]].
  - left. rewrite Hdy. split; destruct (player_blocked_y _); lia.
  - right. rewrite Hdx. split; destruct (player_blocked_x _); lia.
Qed.

Lemma reachable_on_outer_track p : player_reachable p → on_outer_track p.
Proof.
  induction 1 as [|p v _ IH Hv|p p' Hp IH Hup].
  - by left.
  - done.
  - rewrite (update_stepped _ _ Hup). by apply update_on_outer_track.
Qed.

(** X17. The player never leaves row 1 and columns 1 and 13.  It can turn
    only where it is tile-aligned, which its speed 3 allows only on every
    third row and column; of those cells only the corners (1,1) and (1,13)
    have an open neighbour across.  On a column its y never exceeds 703,
    so its corner never enters row 11. *)
Theorem player_confined_to_track (p : Player.t) :
  player_reachable p →
  (Player.y p = 64 ∧ 64 ≤ Player.x p ≤ 832)
  ∨ ((Player.x p = 64 ∨ Player.x p = 832) ∧ 64 ≤ Player.y p ≤ 703).
Proof.
  intros Hp. destruct (reachable_inside p Hp) as [Hx Hy].
  destruct (reachable_lattice p Hp) as [_ Hyl]. unfold TILE_SIZE in Hyl.
  destruct (reachable_on_outer_track p Hp) as [[? _]|[? _]]; [by left|].
  right. split; [done|]. Z.to_euclidean_division_equations. lia.
Qed.

Lemma player_confined_to_track_witness :
  (Player.y (Player.mk 64 703 3 (mkDir 0 0) (Player.Vec (mkDir 0 1)) 64) = 64
   ∧ 64 ≤ Player.x (Player.mk 64 703 3 (mkDir 0 0) (Player.Vec (mkDir 0 1)) 64)
       ≤ 832)
  ∨ ((Player.x (Player.mk 64 703 3 (mkDir 0 0) (Player.Vec (mkDir 0 1)) 64) = 64
      ∨ Player.x (Player.mk 64 703 3 (mkDir 0 0) (Player.Vec (mkDir 0 1)) 64)
        = 832)
     ∧ 64 ≤ Player.y (Player.mk 64 703 3 (mkDir 0 0) (Player.Vec (mkDir 0 1)) 64)
         ≤ 703).
Proof.
  apply player_confined_to_track.
  change (Player.mk 64 703 3 (mkDir 0 0) (Player.Vec (mkDir 0 1)) 64)
    with (Nat.iter 300 stepped
            (Player.set_nextDirection
               (Player.new (1 * TILE_SIZE) (1 * TILE_SIZE))
               (Player.Vec (mkDir 0 1)))).
  apply (reachable_iter 300 _ (mkDir 0 1)); [|reflexivity].
  apply player_key; [apply player_start|].
  exists "ArrowDown"%string. reflexivity.
Defined.

(** * Toys off the track *)

Lemma loop_player_reachable inp g g' :
  Game.loop inp g = Some g' →
  player_reachable (Game.player g) → player_reachable (Game.player g').
Proof.
  intros [[_ ->]|[_ Hup%update_player]]%loop_cases Hp; [done|].
  by eapply player_update.
Qed.

Lemma session_player_reachable g :
  session_reachable g → player_reachable (Game.player g).
Proof.
  induction 1 as [rand now inp g Hinit|inp g g' _ IH Hloop|g _ IH|key g _ IH].
  - unfold Game.init, Game.setup in Hinit.
    destruct (Game.shuffle rand Game.emptyCells) as [cells|]; [|done].
    apply (loop_player_reachable _ _ _ Hinit). apply player_start.
  - by eapply loop_player_reachable.
  - unfold Game.tick. destruct (negb _); [done|]. by destruct (_ <=? _).
  - unfold Game.onkeydown. destruct (Game.dirs_get key) as [v|] eqn:Hkey; [|done].
    apply player_key; [done|]. by exists key.
Qed.

Lemma track_cell_of_player p :
  player_reachable p →
  track_cell (Player.y p / TILE_SIZE) (Player.x p / TILE_SIZE).
Proof.
  intros Hp. destruct (reachable_inside p Hp) as [Hx Hy].
  destruct (reachable_lattice p Hp) as [_ Hyl]. unfold TILE_SIZE in *.
  unfold track_cell.
  destruct (reachable_on_outer_track p Hp) as [[-> _]|[[->| ->] _]].
  - by left.
  - right. split; [by left|]. Z.to_euclidean_division_equations. lia.
  - right. split; [by right|]. Z.to_euclidean_division_equations. lia.
Qed.

Lemma loop_collected_on_track inp g g' :
  Game.loop inp g = Some g' → player_reachable (Game.player g) →
  (∀ toy, toy ∈ Game.toys g → Toy.collected toy = true →
          track_cell (Toy.row toy) (Toy.col toy)) →
  ∀ toy, toy ∈ Game.toys g' → Toy.collected toy = true →
         track_cell (Toy.row toy) (Toy.col toy).
Proof.
  intros [[_ ->]|[_ Hup]]%loop_cases Hp IH; [done|].
  pose proof (update_player _ _ _ Hup) as Hpl.
  apply update_toys_score in Hup as (Hp' & -> & _). rewrite <- Hp'.
  intros toy' (toy & -> & Hin)%list_elem_of_fmap.
  rewrite collect_hit_collected. unfold collect_hit.
  destruct (Game.hit _ _ toy) eqn:Hhit.
  - intros _. apply hit_iff in Hhit as (_ & Hr & Hc). cbn [Toy.collect Toy.row Toy.col].
    rewrite Hr, Hc. by eapply track_cell_of_player, player_update.
  - rewrite orb_false_r. by apply IH.
Qed.

Lemma reachable_collected_on_track g :
  session_reachable g →
  ∀ toy, toy ∈ Game.toys g → Toy.collected toy = true →
         track_cell (Toy.row toy) (Toy.col toy).
Proof.
  induction 1 as [rand now inp g Hinit|inp g g' Hg IH Hloop|g _ IH|key g _ IH].
  - unfold Game.init, Game.setup in Hinit.
    destruct (Game.shuffle rand Game.emptyCells) as [cells|]; [|done].
    apply (loop_collected_on_track _ _ _ Hinit); [apply player_start|].
    cbn [Game.toys]. intros toy Hin%make_toys_uncollected. congruence.
  - apply (loop_collected_on_track _ _ _ Hloop); [|done].
    by apply session_player_reachable.
  - by destruct (tick_toys g) as [-> _].
  - by destruct (onkeydown_toys key g) as [-> _].
Qed.

(** X18. A toy is collected only on the player's track: in every session
    reached from [init], a collected toy lies on row 1 or on column 1 or 13
    above row 11.  So a session with a toy elsewhere is never won: no
    [endGame (true)] is called and the score stays below 10. *)
Theorem toys_off_track_never_collected (g : Game.t) :
  session_reachable g →
  (∀ toy, toy ∈ Game.toys g → Toy.collected toy = true →
          track_cell (Toy.row toy) (Toy.col toy))
  ∧ ((∃ toy, toy ∈ Game.toys g ∧ ¬ track_cell (Toy.row toy) (Toy.col toy)) →
     (true ∉ Game.endGameCalls g) ∧ Game.score g < 10).
Proof.
  intros Hg. pose proof (reachable_collected_on_track g Hg) as Htrack.
  split; [done|]. intros (toy & Hin & Hoff).
  assert (forallb Toy.collected (Game.toys g) ≠ true) as Hnot.
  { rewrite forallb_forall. intros Hall. apply Hoff, Htrack; [done|].
    by apply Hall, list_elem_of_In. }
  split.
  - pose proof (reachable_won_ok g Hg) as Hw. unfold won_ok in Hw.
    by rewrite Hw.
  - rewrite <- count_collected_all, <- (reachable_score_ok g Hg) in Hnot.
    rewrite (reachable_toy_count g Hg) in Hnot.
    pose proof (count_collected_le (Game.toys g)) as Hle.
    rewrite <- (reachable_score_ok g Hg), (reachable_toy_count g Hg) in Hle.
    lia.
Qed.

Lemma toys_off_track_never_collected_witness :
  match Game.init (λ _, 1 # 2)%Q 0 (λ _, (5000, (1 # 2)%Q)) with
  | Some g => ∀ toy, toy ∈ Game.toys g → Toy.collected toy = true →
                     track_cell (Toy.row toy) (Toy.col toy)
  | None => False
  end.
Proof.
  destruct (Game.init (λ _, 1 # 2)%Q 0 (λ _, (5000, (1 # 2)%Q))) as [g|] eqn:Hg;
    [|vm_compute in Hg; discriminate].
  apply (toys_off_track_never_collected g). by eapply session_init.
Defined.

(** * The orders the shuffle can give *)

Lemma draw_for_index (j n : nat) :
  (j < n)%nat → ∃ r, is_draw r ∧ rand_index r n = Z.of_nat j.
Proof.
  intros Hj. pose proof (inject_nat_pos n ltac:(lia)) as Hn.
  exists (inject_Z (Z.of_nat j) / inject_Z (Z.of_nat n))%Q.
  assert (inject_Z (Z.of_nat j) / inject_Z (Z.of_nat n) * inject_Z (Z.of_nat n)
          == inject_Z (Z.of_nat j))%Q as Hmul.
  { field. intros H0. rewrite H0 in Hn. by apply Qlt_irrefl in Hn. }
  split; [split|].
  - apply Qle_shift_div_l; [done|]. rewrite Qmult_0_l.
    rewrite <- (Zle_Qle 0). lia.
  - apply Qlt_shift_div_r; [done|]. rewrite Qmult_1_l.
    rewrite <- Zlt_Qlt. lia.
  - unfold rand_index. apply Qfloor_eq_iff. rewrite Hmul. split.
    + apply Qle_refl.
    + rewrite <- Zlt_Qlt. lia.
Qed.

Lemma shuffle_from_ext {A} (rand rand' : nat → Q) (i : nat) (a : list A) :
  (∀ k, (k ≤ i)%nat → rand k = rand' k) →
  Game.shuffle_from rand i a = Game.shuffle_from rand' i a.
Proof.
  revert a. induction i as [|i IH]; intros a Hext; [done|].
  cbn [Game.shuffle_from]. rewrite (Hext (S i)) by lia.
  destruct (Game.swap a (S i) _) as [a1|]; [|done]. cbn [mbind option_bind].
  apply IH. intros k Hk. apply Hext. lia.
Qed.

(** The swap of the entries at [length l1] and, further on, at
    [length l1 + 1 + length l2]. *)
Lemma swap_apart {A} (l1 l2 suf : list A) (z y : A) :
  Game.swap (l1 ++ z :: l2 ++ y :: suf) (length l1 + 1 + length l2)
            (Z.of_nat (length l1))
  = Some (l1 ++ y :: l2 ++ z :: suf).
Proof.
  unfold Game.swap, js_index.
  destruct (Z.ltb_spec (Z.of_nat (length l1)) 0); [lia|].
  rewrite Nat2Z.id, list_lookup_middle by done.
  replace (l1 ++ z :: l2 ++ y :: suf) with ((l1 ++ z :: l2) ++ y :: suf)
    by (by rewrite <- app_assoc).
  rewrite list_lookup_middle by (rewrite length_app; simpl; lia).
  cbn [mbind option_bind]. f_equal.
  rewrite insert_app_r_alt by (rewrite length_app; simpl; lia).
  replace (length l1 + 1 + length l2 - length (l1 ++ z :: l2))%nat with 0%nat
    by (rewrite length_app; simpl; lia).
  cbn [insert list_insert]. rewrite <- app_assoc.
  rewrite insert_app_r_alt by lia. rewrite Nat.sub_diag. done.
Qed.

(** The swap of an entry with itself. *)
Lemma swap_same {A} (l1 suf : list A) (z : A) :
  Game.swap (l1 ++ z :: suf) (length l1) (Z.of_nat (length l1))
  = Some (l1 ++ z :: suf).
Proof.
  unfold Game.swap, js_index.
  destruct (Z.ltb_spec (Z.of_nat (length l1)) 0); [lia|].
  rewrite Nat2Z.id, list_lookup_middle by done.
  cbn [mbind option_bind]. f_equal.
  rewrite !insert_app_r_alt by lia. rewrite Nat.sub_diag. done.
Qed.

Lemma shuffle_from_onto {A} (i : nat) (pre pre' suf : list A) :
  length pre = S i → pre' ≡ₚ pre →
  ∃ rand, (∀ k, is_draw (rand k))
          ∧ Game.shuffle_from rand i (pre ++ suf) = Some (pre' ++ suf).
Proof.
  revert pre pre' suf. induction i as [|i IH]; intros pre pre' suf Hlen Hperm.
  { exists (λ _, 0%Q). split; [done|].
    destruct pre as [|x [|? ?]]; try done.
    by apply Permutation_singleton_r in Hperm as ->. }
  assert (pre' ≠ []) as Hne.
  { intros ->. apply Permutation_length in Hperm. simpl in Hperm. lia. }
  destruct (exists_last Hne) as (q & z & ->).
  assert (z ∈ pre) as (l1 & l2 & ->)%list_elem_of_split.
  { rewrite <- Hperm. apply elem_of_app. right. left. }
  assert (∃ pre1 a1,
             Game.swap ((l1 ++ z :: l2) ++ suf) (S i) (Z.of_nat (length l1))
             = Some a1
             ∧ a1 = pre1 ++ z :: suf ∧ length pre1 = S i ∧ q ≡ₚ pre1)
    as (pre1 & a1 & Hswap & -> & Hlen1 & Hq).
  { destruct (decide (l2 = [])) as [->|Hl2].
    - exists l1, (l1 ++ z :: suf). rewrite length_app in Hlen. simpl in Hlen.
      replace (S i) with (length l1) by lia. rewrite <- app_assoc.
      split; [apply swap_same|]. split_and!; [done|lia|].
      by apply (Permutation_app_inv_r [z]).
    - destruct (exists_last Hl2) as (l2' & y & ->).
      exists (l1 ++ y :: l2'), (l1 ++ y :: l2' ++ z :: suf).
      rewrite !length_app in Hlen. simpl in Hlen. rewrite length_app in Hlen.
      simpl in Hlen.
      replace (S i) with (length l1 + 1 + length l2')%nat by lia.
      split.
      { rewrite <- !app_assoc. cbn [app]. rewrite <- app_assoc. apply swap_apart. }
      split_and!.
      + by rewrite <- app_assoc.
      + rewrite length_app. simpl. lia.
      + apply (Permutation_app_inv_r [z]). rewrite Hperm.
        rewrite <- !app_assoc. cbn [app]. apply Permutation_app_head.
        rewrite (Permutation_app_comm l2' [y]), (Permutation_app_comm l2' [z]).
        apply perm_swap. }
  destruct (IH pre1 q (z :: suf) Hlen1 Hq) as (rand' & Hdraw' & Hrest).
  destruct (draw_for_index (length l1) (S i + 1)) as (r & Hr & Hidx).
  { rewrite length_app in Hlen. simpl in Hlen. lia. }
  exists (λ k, if decide (k = S i) then r else rand' k). split.
  - intros k. by case_decide.
  - cbn [Game.shuffle_from]. rewrite decide_True by done.
    rewrite Hidx, Hswap. cbn [mbind option_bind].
    rewrite <- !app_assoc. cbn [app]. rewrite <- Hrest.
    apply shuffle_from_ext. intros k Hk. by rewrite decide_False by lia.
Qed.

(** X19. The shuffle of [init] is a Fisher-Yates shuffle: with draws of
    [Math.random] it never reads outside the array and returns a
    rearrangement of it, and every rearrangement of the array is returned
    for some draws. *)
Theorem shuffle_gives_every_order {A} (a : list A) :
  (∀ rand, (∀ k, is_draw (rand k)) →
           ∃ a', Game.shuffle rand a = Some a' ∧ a' ≡ₚ a)
  ∧ (∀ a', a' ≡ₚ a →
           ∃ rand, (∀ k, is_draw (rand k)) ∧ Game.shuffle rand a = Some a').
Proof.
  split.
  - intros rand Hrand. by apply shuffle_perm.
  - intros a' Hperm. unfold Game.shuffle.
    destruct a as [|x a].
    { apply Permutation_nil_r in Hperm as ->. by exists (λ _, 0%Q). }
    destruct (shuffle_from_onto (length a) (x :: a) a' [])
      as (rand & Hdraw & Hsh); [done|done|].
    exists rand. split; [done|]. rewrite !app_nil_r in Hsh.
    cbn [length]. by rewrite Nat.sub_1_r.
Qed.

Lemma shuffle_gives_every_order_witness :
  ∃ rand, (∀ k, is_draw (rand k))
          ∧ Game.shuffle rand [1; 2; 3] = Some [3; 1; 2].
Proof.
  apply (proj2 (shuffle_gives_every_order [1; 2; 3]) [3; 1; 2]).
  apply (Permutation_cons_append [1; 2] 3).
Defined.

(** * The places [init] can give the toys *)

Lemma init_toys rand now inp cells :
  Game.shuffle rand Game.emptyCells = Some cells → is_draw (inp 0%nat).2 →
  ∃ g, Game.init rand now inp = Some g ∧ Game.toys g = Game.make_toys cells.
Proof.
  intros Hsh Hinp. unfold Game.init, Game.setup. rewrite Hsh.
  cbn [mbind option_bind]. unfold Game.loop. cbn [Game.running negb].
  rewrite update_result.
  cbn [Game.player Game.enemies Game.toys Game.score Game.timeLeft
       Game.running Game.endGameCalls updated_enemies].
  destruct (first_enemy_update now (inp 0%nat).1 (inp 0%nat).2 Hinp) as [e' ->].
  cbn [mbind option_bind]. eexists. split; [done|].
  cbn [Game.toys].
  change (stepped (Player.new (1 * TILE_SIZE) (1 * TILE_SIZE)))
    with (Player.new 64 64).
  change (Player.y (Player.new 64 64) / TILE_SIZE) with 1.
  change (Player.x (Player.new 64 64) / TILE_SIZE) with 1.
  apply collect_hit_no_hit, no_hit_off_cell.
  rewrite make_toys_cells. intros Hin%subseteq_take.
  apply shuffle_from_Some_perm in Hsh. rewrite Hsh in Hin.
  apply emptyCells_elem in Hin. by destruct Hin.
Qed.

(** X20. [init] can put the toys on any ten distinct walkable cells other
    than (1,1), in any order: for each such list of cells there are draws
    of [Math.random] with which the session starts with its ten toys on
    them, none collected. *)
Theorem init_reaches_every_placement (cells : list (Z * Z)) now inp :
  NoDup cells → length cells = 10%nat →
  (∀ rc, rc ∈ cells → isWall rc.1 rc.2 = false ∧ rc ≠ (1, 1)) →
  is_draw (inp 0%nat).2 →
  ∃ rand g, (∀ k, is_draw (rand k))
            ∧ Game.init rand now inp = Some g
            ∧ toy_cell <$> Game.toys g = cells
            ∧ ∀ toy, toy ∈ Game.toys g → Toy.collected toy = false.
Proof.
  intros Hnd Hlen Hcells Hinp.
  assert (∀ rc, rc ∈ cells → rc ∈ Game.emptyCells) as Hsub.
  { intros rc [Hfree Hne]%Hcells. rewrite emptyCells_walkable.
    apply list_elem_of_filter. split; [done|].
    destruct (isWall_false_inside _ _ Hfree) as [Hr Hc].
    unfold grid_cells. apply list_elem_of_bind. exists rc.1.
    split; [|apply elem_of_seqZ; lia].
    apply list_elem_of_bind. exists rc.2.
    split; [|apply elem_of_seqZ; lia].
    destruct rc. by left. }
  assert (cells ++ list_difference Game.emptyCells cells ≡ₚ Game.emptyCells)
    as Hperm.
  { apply NoDup_Permutation.
    - apply NoDup_app. split_and!; [done| |].
      + intros rc Hin. rewrite list_elem_of_difference. tauto.
      + apply NoDup_list_difference, emptyCells_NoDup.
    - apply emptyCells_NoDup.
    - intros rc. rewrite elem_of_app, list_elem_of_difference. split.
      + intros [Hin|[Hin _]]; [by apply Hsub|done].
      + intros Hin. destruct (decide (rc ∈ cells)); [by left|by right]. }
  destruct (shuffle_from_onto (length Game.emptyCells - 1) Game.emptyCells
              (cells ++ list_difference Game.emptyCells cells) [])
    as (rand & Hdraw & Hsh); [by vm_compute|done|].
  rewrite !app_nil_r in Hsh.
  destruct (init_toys rand now inp _ Hsh Hinp) as (g & Hg & Hts).
  exists rand, g. split_and!; [done|done| |].
  - rewrite Hts, make_toys_cells, length_app, <- Hlen.
    rewrite Nat.min_l by lia. by rewrite take_app_length.
  - intros toy. rewrite Hts. apply make_toys_uncollected.
Qed.

Lemma init_reaches_every_placement_witness :
  ∃ rand g,
    (∀ k, is_draw (rand k))
    ∧ Game.init rand 0 (λ _, (0, (1 # 2)%Q)) = Some g
    ∧ toy_cell <$> Game.toys g
      = [ (11, 13); (3, 3); (5, 5); (5, 6); (5, 7); (5, 8); (5, 9); (7, 7);
          (7, 8); (7, 9) ].
Proof.
  destruct (init_reaches_every_placement
              [ (11, 13); (3, 3); (5, 5); (5, 6); (5, 7); (5, 8); (5, 9);
                (7, 7); (7, 8); (7, 9) ] 0 (λ _, (0, (1 # 2)%Q)))
    as (rand & g & Hdraw & Hg & Hcells & _).
  - apply (bool_decide_unpack _). vm_compute. exact I.
  - reflexivity.
  - intros rc Hin. apply list_elem_of_In in Hin. simpl in Hin.
    repeat (destruct Hin as [<-|Hin]; [split; [vm_compute; reflexivity|congruence]|]).
    destruct Hin.
  - split; [apply (Qle_bool_imp_le 0 (1 # 2))|]; reflexivity.
  - exists rand, g. split; [exact Hdraw|]. split; [exact Hg|exact Hcells].
Defined.

(** * Where the player comes to rest *)

Lemma row1_open col : 1 ≤ col ≤ 13 → isWall 1 col = false.
Proof.
  intros H.
  assert (col = 1 ∨ col = 2 ∨ col = 3 ∨ col = 4 ∨ col = 5 ∨ col = 6 ∨ col = 7
          ∨ col = 8 ∨ col = 9 ∨ col = 10 ∨ col = 11 ∨ col = 12 ∨ col = 13)
    as Hc by lia.
  repeat (destruct Hc as [->|Hc]; [reflexivity|]). by subst.
Qed.

Lemma outer_columns_open row :
  1 ≤ row ≤ 11 → isWall row 1 = false ∧ isWall row 13 = false.
Proof.
  intros H.
  assert (row = 1 ∨ row = 2 ∨ row = 3 ∨ row = 4 ∨ row = 5 ∨ row = 6 ∨ row = 7
          ∨ row = 8 ∨ row = 9 ∨ row = 10 ∨ row = 11) as Hc by lia.
  repeat (destruct Hc as [->|Hc]; [split; reflexivity|]). by subst.
Qed.

(** On row 1 a wall stops the player on the first or the last cell. *)
Lemma blocked_x_on_track p0 :
  Player.speed p0 = 3 → Player.size p0 = 64 → Player.y p0 = 64 →
  64 ≤ Player.x p0 ≤ 832 → (Player.x p0 - 64) mod 3 = 0 →
  dx (Player.direction p0) = 1 ∨ dx (Player.direction p0) = -1 →
  player_blocked_x p0 = true →
  Player.x p0 = 64 ∨ Player.x p0 = 832.
Proof.
  destruct p0 as [x y s [a b] nd sz].
  unfold player_blocked_x, Player.blocked_x, player_newX, TILE_SIZE.
  cbn [Player.x Player.y Player.speed Player.size Player.direction dx dy].
  intros -> -> -> Hx Hl Ha.
  replace ((64 + 64 - 1) / 64) with 1 by reflexivity.
  replace (64 / 64) with 1 by reflexivity.
  rewrite orb_diag.
  destruct Ha as [-> | ->]; cbn [Z.eqb negb andb Z.gtb Z.compare]; intros Hw.
  - destruct (decide ((x + 1 * 3 + 64 - 1) / 64 ≤ 13)) as [Hc|Hc].
    + rewrite row1_open in Hw; [done|].
      split; [|done]. apply Z.div_le_lower_bound; lia.
    + right. Z.to_euclidean_division_equations. lia.
  - destruct (decide (1 ≤ (x + -1 * 3) / 64)) as [Hc|Hc].
    + rewrite row1_open in Hw; [done|].
      split; [done|]. apply Z.div_le_upper_bound; lia.
    + left. Z.to_euclidean_division_equations. lia.
Qed.

(** On column 1 or 13 a wall stops the player on row 1 or, one pixel above
    row 11, at [y = 703]. *)
Lemma blocked_y_on_track p0 :
  Player.speed p0 = 3 → Player.size p0 = 64 →
  Player.x p0 = 64 ∨ Player.x p0 = 832 →
  64 ≤ Player.y p0 ≤ 704 → (Player.y p0 - 64) mod 3 = 0 →
  dx (Player.direction p0) = 0 →
  dy (Player.direction p0) = 1 ∨ dy (Player.direction p0) = -1 →
  player_blocked_y p0 = true →
  Player.y p0 = 64 ∨ Player.y p0 = 703.
Proof.
  destruct p0 as [x y s [a b] nd sz].
  unfold player_blocked_y, Player.blocked_y, Player.collide_x, player_newX,
    player_newY, TILE_SIZE.
  cbn [Player.x Player.y Player.speed Player.size Player.direction dx dy].
  intros -> -> Hx Hy Hl -> Hb.
  cbn [Z.eqb negb andb fst Player.x Player.y Player.size Player.direction dx dy].
  assert (x / 64 = 1 ∧ (x + 64 - 1) / 64 = 1
          ∨ x / 64 = 13 ∧ (x + 64 - 1) / 64 = 13) as Hcols
    by (destruct Hx as [-> | ->]; [left|right]; split; reflexivity).
  assert (∀ row, 1 ≤ row ≤ 11 →
                 isWall row (x / 64) || isWall row ((x + 64 - 1) / 64) = false)
    as Hopen.
  { intros row [H1 H13]%outer_columns_open.
    destruct Hcols as [[-> ->]|[-> ->]]; by rewrite ?H1, ?H13. }
  clear Hx Hcols.
  destruct Hb as [-> | ->]; cbn [Z.eqb negb andb Z.gtb Z.compare]; intros Hw.
  - destruct (decide ((y + 1 * 3 + 64 - 1) / 64 ≤ 11)) as [Hc|Hc].
    + rewrite Hopen in Hw; [done|].
      split; [|done]. apply Z.div_le_lower_bound; lia.
    + right. Z.to_euclidean_division_equations. lia.
  - destruct (decide (1 ≤ (y + -1 * 3) / 64)) as [Hc|Hc].
    + rewrite Hopen in Hw; [done|].
      split; [done|]. apply Z.div_le_upper_bound; lia.
    + left. Z.to_euclidean_division_equations. lia.
Qed.

Lemma reachable_rest p :
  player_reachable p → Player.direction p = zero_dir →
  on_grid p ∨ (Player.y p = 703 ∧ (Player.x p = 64 ∨ Player.x p = 832)).
Proof.
  induction 1 as [|p v _ IH Hv|p p' Hp IH Hup]; [by left|done|].
  rewrite (update_stepped _ _ Hup). clear Hup p'.
  intros Hzero.
  destruct (player_update_fields p) as (Hx & Hy & Hd). cbv zeta in Hx, Hy, Hd.
  pose proof (turn_on_outer_track p Hp (reachable_on_outer_track p Hp)) as Htrack.
  pose proof (tryChangeDirection_safe p (reachable_safe p Hp))
    as (Hs & Hsz & Hu & _ & _).
  destruct (tryChangeDirection_position p) as (Hx0 & Hy0 & _).
  destruct (reachable_inside p Hp) as [Hxr Hyr].
  destruct (reachable_lattice p Hp) as [Hxl Hyl]. unfold TILE_SIZE in *.
  rewrite <- Hx0 in Hxr, Hxl, Hx. rewrite <- Hy0 in Hyr, Hyl, Hy.
  rewrite Hd in Hzero. injection Hzero as Hzx Hzy.
  unfold on_grid. rewrite Hx, Hy. clear Hx Hy Hd.
  assert (dx (Player.direction (turned p)) = 0
          → player_blocked_x (turned p) = false) as Hnx.
  { unfold player_blocked_x. by intros ->. }
  assert (dy (Player.direction (turned p)) = 0
          → player_blocked_y (turned p) = false) as Hny.
  { unfold player_blocked_y. by intros ->. }
  unfold player_newX, player_newY.
  destruct (unit_dir_cases _ Hu) as [Hd0|[Hd0|[Hd0|[Hd0|Hd0]]]];
    rewrite Hd0 in *; cbn [dx dy] in *.
  - rewrite Hnx, Hny by done. rewrite !Z.mul_0_l, !Z.add_0_r.
    destruct (tryChangeDirection_turn p) as [Hsame|(d & _ & Hax & Hay & _)].
    + rewrite Hsame in *. apply IH. by rewrite Hd0.
    + left. rewrite Hx0, Hy0. by rewrite Hax, Hay.
  - rewrite Hny by done. rewrite Z.mul_0_l, Z.add_0_r.
    destruct (player_blocked_x _) eqn:Hbx; [|done]. left.
    destruct Htrack as [[Hy1 _]|[_ ?]]; [|by rewrite Hd0 in *].
    destruct (blocked_x_on_track _ Hs Hsz Hy1 Hxr Hxl) as [Hv|Hv];
      [rewrite Hd0; by left|done|..]; by rewrite Hv, Hy1.
  - rewrite Hny by done. rewrite Z.mul_0_l, Z.add_0_r.
    destruct (player_blocked_x _) eqn:Hbx; [|done]. left.
    destruct Htrack as [[Hy1 _]|[_ ?]]; [|by rewrite Hd0 in *].
    destruct (blocked_x_on_track _ Hs Hsz Hy1 Hxr Hxl) as [Hv|Hv];
      [rewrite Hd0; by right|done|..]; by rewrite Hv, Hy1.
  - rewrite Hnx by done. rewrite Z.mul_0_l, Z.add_0_r.
    destruct (player_blocked_y _) eqn:Hby; [|done].
    destruct Htrack as [[_ ?]|[Hx1 _]]; [by rewrite Hd0 in *|].
    destruct (blocked_y_on_track _ Hs Hsz Hx1 Hyr Hyl) as [Hv|Hv];
      [by rewrite Hd0|rewrite Hd0; by left|done|..].
    + left. rewrite Hv. by destruct Hx1 as [-> | ->].
    + by right.
  - rewrite Hnx by done. rewrite Z.mul_0_l, Z.add_0_r.
    destruct (player_blocked_y _) eqn:Hby; [|done].
    destruct Htrack as [[_ ?]|[Hx1 _]]; [by rewrite Hd0 in *|].
    destruct (blocked_y_on_track _ Hs Hsz Hx1 Hyr Hyl) as [Hv|Hv];
      [by rewrite Hd0|rewrite Hd0; by right|done|..].
    + left. rewrite Hv. by destruct Hx1 as [-> | ->].
    + by right.
Qed.

(** X21. The player comes to rest on a whole tile, where it can start
    again, or at the bottom of column 1 or 13 with [y = 703], one pixel
    above row 11, where no key moves it any more; and that place is
    reached: holding the down arrow from the start leads there. *)
Theorem player_rests_on_tile_or_at_bottom :
  (∀ p, player_reachable p → Player.direction p = zero_dir →
        on_grid p ∨ (Player.y p = 703 ∧ (Player.x p = 64 ∨ Player.x p = 832)))
  ∧ (∀ p0 p, player_reachable p0 → Player.direction p0 = zero_dir →
             Player.y p0 = 703 → player_from p0 p →
             Player.x p = Player.x p0 ∧ Player.y p = 703
             ∧ Player.direction p = zero_dir)
  ∧ ∃ p, player_reachable p ∧ Player.direction p = zero_dir
         ∧ Player.x p = 64 ∧ Player.y p = 703.
Proof.
  split_and!.
  - exact reachable_rest.
  - intros p0 p _ Hd Hy.
    induction 1 as [|p v _ IH|p p' _ IH Hup]; [done|done|].
    destruct IH as (Hx & Hyp & Hdp).
    rewrite (update_stepped _ _ Hup).
    rewrite update_at_rest; [done|done|].
    unfold aligned. rewrite Hyp. apply andb_false_r.
  - exists (Nat.iter 214 stepped
              (Player.set_nextDirection
                 (Player.new (1 * TILE_SIZE) (1 * TILE_SIZE))
                 (Player.Vec (mkDir 0 1)))).
    split; [|by vm_compute].
    apply (reachable_iter 214 _ (mkDir 0 1)); [|reflexivity].
    apply player_key; [apply player_start|].
    by exists "ArrowDown"%string.
Qed.

Lemma player_rests_on_tile_or_at_bottom_witness :
  on_grid (Player.mk 64 703 3 (mkDir 0 0) (Player.Vec (mkDir 0 1)) 64)
  ∨ (Player.y (Player.mk 64 703 3 (mkDir 0 0) (Player.Vec (mkDir 0 1)) 64) = 703
     ∧ (Player.x (Player.mk 64 703 3 (mkDir 0 0) (Player.Vec (mkDir 0 1)) 64)
        = 64
        ∨ Player.x (Player.mk 64 703 3 (mkDir 0 0) (Player.Vec (mkDir 0 1)) 64)
          = 832)).
Proof.
  apply (proj1 player_rests_on_tile_or_at_bottom); [|reflexivity].
  change (Player.mk 64 703 3 (mkDir 0 0) (Player.Vec (mkDir 0 1)) 64)
    with (Nat.iter 214 stepped
            (Player.set_nextDirection
               (Player.new (1 * TILE_SIZE) (1 * TILE_SIZE))
               (Player.Vec (mkDir 0 1)))).
  apply (reachable_iter 214 _ (mkDir 0 1)); [|reflexivity].
  apply player_key; [apply player_start|].
  exists "ArrowDown"%string. reflexivity.
Defined.

(** * One toy a frame *)

Lemma count_hits_none row col ts :
  existsb (Game.hit row col) ts = false → count_hits row col ts = 0.
Proof.
  induction ts as [|toy ts IH]; [done|]. cbn [existsb].
  intros [Hh Hts]%orb_false_iff. rewrite count_hits_cons, Hh, (IH Hts). done.
Qed.

Lemma count_hits_distinct row col ts :
  NoDup (toy_cell <$> ts) → 0 ≤ count_hits row col ts ≤ 1.
Proof.
  induction ts as [|toy ts IH]; [done|].
  rewrite fmap_cons, NoDup_cons. intros [Hnot Hnd].
  rewrite count_hits_cons. specialize (IH Hnd).
  destruct (Game.hit row col toy) eqn:Hhit; [|lia].
  apply hit_iff in Hhit as (_ & Hr & Hc).
  rewrite count_hits_none; [lia|].
  apply no_hit_off_cell. unfold toy_cell in Hnot at 1. by rewrite Hr, Hc in Hnot.
Qed.

(** X22. A frame of a session reached from [init] collects at most one
    toy, since the toys lie on distinct cells: the score goes up by 0 or
    by 1. *)
Theorem frame_collects_at_most_one inp (g g' : Game.t) :
  session_reachable g → Game.update inp g = Some g' →
  Game.score g' = Game.score g ∨ Game.score g' = Game.score g + 1.
Proof.
  intros (cells & Hperm & Hcells)%reachable_cells (_ & _ & -> & _)%update_toys_score.
  pose proof (count_hits_distinct
                (Player.y (stepped (Game.player g)) / TILE_SIZE)
                (Player.x (stepped (Game.player g)) / TILE_SIZE)
                (Game.toys g)) as Hc.
  rewrite Hcells in Hc. 
  assert (NoDup (take 10 cells)) as Hnd.
  { eapply sublist_NoDup; [|apply sublist_take].
    rewrite Hperm. apply emptyCells_NoDup. }
  specialize (Hc Hnd). lia.
Qed.

Lemma frame_collects_at_most_one_witness :
  match Game.init (λ _, 1 # 2)%Q 0 (λ _, (5000, (1 # 2)%Q)) with
  | Some g =>
      match Game.update (λ _, (5000, (1 # 2)%Q)) g with
      | Some g' => Game.score g' = Game.score g ∨ Game.score g' = Game.score g + 1
      | None => False
      end
  | None => False
  end.
Proof.
  destruct (Game.init (λ _, 1 # 2)%Q 0 (λ _, (5000, (1 # 2)%Q))) as [g|] eqn:Hg;
    [|vm_compute in Hg; discriminate].
  destruct (Game.update (λ _, (5000, (1 # 2)%Q)) g) as [g'|] eqn:Hg'.
  - apply (frame_collects_at_most_one (λ _, (5000, (1 # 2)%Q)) g g');
      [by eapply session_init|exact Hg'].
  - vm_compute in Hg. injection Hg as <-. vm_compute in Hg'. discriminate.
Defined.
